(** * FBref import script: tables, identifier extraction and merging

    A shallow embedding of the helper functions of
    [projects/00_data_import_and_misc_work/import_data_fbref.py] and the
    properties of them that the specification states.

    - Python [str] is [string], holding the UTF-8 encoding of the text;
      [x in s] on strings is [contains].
    - A pandas [DataFrame] is its list of column labels (duplicates are
      possible and do occur after merges) and its list of rows; every row
      lists one cell per column.  The row index is not represented: every
      operation embedded here is positional on rows.  A column has the
      dtype that pandas infers from its cells, a missing value being NaN:
      object when it holds a string, a numeric dtype otherwise.
    - A Python [dict] with string keys is a [gmap string string].
    - A parsed document is a tree of [Tag]s.
    - A statement that can raise returns a [result]; [print] is the list
      of printed lines returned next to the value.
    - [pd.to_numeric], and the cells that [DataFrame.where] leaves under
      repeated labels, are parameters of the embedding.
    - Fetching pages, validation of league names and writing the JSON files
      are outside the embedding. *)

From Stdlib Require Import String Ascii ZArith.
From stdpp Require Import base option list gmap strings pretty.

Local Open Scope string_scope.
Local Open Scope list_scope.

(** ** Python strings *)

(** [needle in hay] for two strings. *)
Fixpoint contains (needle hay : string) : bool :=
  String.prefix needle hay ||
  match hay with
  | EmptyString => false
  | String _ hay' => contains needle hay'
  end.

(** The ASCII characters for which [str.isspace] holds. *)
Definition is_space (a : ascii) : bool :=
  let n := nat_of_ascii a in
  (Nat.leb 9 n && Nat.leb n 13) || (Nat.leb 28 n && Nat.leb n 32).

(** [s[n:]] *)
Fixpoint string_drop (n : nat) (s : string) : string :=
  match n, s with
  | O, _ => s
  | S n', String _ s' => string_drop n' s'
  | S _, EmptyString => EmptyString
  end.

(** The number of bytes of the whitespace character that [s] starts
    with, 0 when it starts with none.  Beyond ASCII, [str.isspace] holds
    for U+0085, U+00A0, U+1680, U+2000 to U+200A, U+2028, U+2029, U+202F,
    U+205F and U+3000. *)
Definition space_width (s : string) : nat :=
  match s with
  | EmptyString => 0
  | String a s1 =>
      if is_space a then 1
      else
        match s1 with
        | EmptyString => 0
        | String b s2 =>
            let na := nat_of_ascii a in
            let nb := nat_of_ascii b in
            if Nat.eqb na 194 && (Nat.eqb nb 133 || Nat.eqb nb 160) then 2
            else
              match s2 with
              | EmptyString => 0
              | String c _ =>
                  let nc := nat_of_ascii c in
                  if (Nat.eqb na 225 && Nat.eqb nb 154 && Nat.eqb nc 128)
                     || (Nat.eqb na 226 && Nat.eqb nb 128
                         && ((Nat.leb 128 nc && Nat.leb nc 138)
                             || Nat.eqb nc 168 || Nat.eqb nc 169 || Nat.eqb nc 175))
                     || (Nat.eqb na 226 && Nat.eqb nb 129 && Nat.eqb nc 159)
                     || (Nat.eqb na 227 && Nat.eqb nb 128 && Nat.eqb nc 128)
                  then 3 else 0
              end
        end
  end.

(** [s.lstrip()]; [fuel] bounds the number of characters removed. *)
Fixpoint lstrip_from (fuel : nat) (s : string) : string :=
  match fuel with
  | O => s
  | S fuel' =>
      match space_width s with
      | O => s
      | w => lstrip_from fuel' (string_drop w s)
      end
  end.

Definition lstrip (s : string) : string := lstrip_from (String.length s) s.

(** [s] consists of whitespace characters only. *)
Fixpoint all_space_from (fuel : nat) (s : string) : bool :=
  match s with
  | EmptyString => true
  | String _ _ =>
      match fuel with
      | O => false
      | S fuel' =>
          match space_width s with
          | O => false
          | w => all_space_from fuel' (string_drop w s)
          end
      end
  end.

Definition all_space (s : string) : bool := all_space_from (String.length s) s.

(** [s.rstrip()]: the text up to the trailing run of whitespace. *)
Fixpoint rstrip (s : string) : string :=
  match s with
  | EmptyString => EmptyString
  | String a s' => if all_space s then EmptyString else String a (rstrip s')
  end.

(** [s.strip()] *)
Definition strip (s : string) : string := rstrip (lstrip s).

(** Truth value of a string: the empty string is false. *)
Definition str_truthy (s : string) : bool :=
  match s with EmptyString => false | _ => true end.

(** ** Exceptions *)

Inductive exn := KeyError | IndexError | ValueError | TypeError | MergeError.

Inductive result (A : Type) : Type :=
| Ok (a : A)
| Raise (e : exn).
Arguments Ok {A} a.
Arguments Raise {A} e.

#[global] Instance result_ret : MRet result := fun A a => Ok a.
#[global] Instance result_bind : MBind result := fun A B k m =>
  match m with
  | Ok a => k a
  | Raise e => Raise e
  end.

Definition returns {A} (m : result A) : Prop := exists a, m = Ok a.

(** ** Tables *)

(** A cell holds a string, a number or a missing value ([None]/[NaN]).
    No function of the script does arithmetic on cells; numbers are only
    compared for equality, and are represented by integers. *)
Inductive cell :=
| CStr (s : string)
| CNum (z : Z)
| CNA.

#[global] Instance cell_eq_dec : EqDecision cell.
Proof. solve_decision. Defined.

Abbreviation row := (list cell).

Record DataFrame := mkDF {
  columns : list string;
  values : list row;
}.

#[global] Instance DataFrame_eq_dec : EqDecision DataFrame.
Proof. solve_decision. Defined.

(** Every row has one cell per column. *)
Definition wf (df : DataFrame) : Prop :=
  Forall (fun r => length r = length (columns df)) (values df).

(** [len(df)] *)
Definition len (df : DataFrame) : nat := length (values df).

(** [df.empty]: some axis has length 0. *)
Definition empty (df : DataFrame) : bool :=
  match columns df, values df with
  | [], _ => true
  | _, [] => true
  | _, _ => false
  end.

(** [pd.DataFrame()] *)
Definition empty_frame : DataFrame := mkDF [] [].

(** [name in df.columns] *)
Definition has_column (df : DataFrame) (name : string) : bool :=
  bool_decide (name ∈ columns df).

(** Positions of the columns labelled [name]. *)
Fixpoint positions_from (i : nat) (name : string) (cols : list string) : list nat :=
  match cols with
  | [] => []
  | c :: cols' =>
      if decide (c = name) then i :: positions_from (S i) name cols'
      else positions_from (S i) name cols'
  end.

Definition positions (name : string) (cols : list string) : list nat :=
  positions_from 0 name cols.

Definition cell_at (r : row) (i : nat) : cell := default CNA (r !! i).

(** [df.loc[:, labels]]: for each requested label, every column carrying
    it, in the order of the request. *)
Definition loc_columns (df : DataFrame) (labels : list string) : DataFrame :=
  let idx := labels ≫= (fun l => positions l (columns df)) in
  mkDF (map (fun i => default "" (columns df !! i)) idx)
       (map (fun r => map (cell_at r) idx) (values df)).

(** ** get_merge_keys *)

Definition get_merge_keys (df : DataFrame) (data_type : string) : list string :=
  if decide (data_type = "team") then
    if has_column df "Team ID" then ["Team ID"]
    else if has_column df "Squad" then ["Squad"]
    else []
  else if decide (data_type = "player") then
    let keys : list string := [] in
    let keys := if has_column df "Player ID" then keys ++ ["Player ID"] else keys in
    let keys := if has_column df "Team ID" then keys ++ ["Team ID"] else keys in
    match keys with
    | [] =>
        let keys := if has_column df "Player" then keys ++ ["Player"] else keys in
        let keys := if has_column df "Squad" then keys ++ ["Squad"] else keys in
        keys
    | _ => keys
    end
  else [].

(** ** remove_duplicate_columns *)

Definition remove_duplicate_columns (df : DataFrame) : DataFrame :=
  loc_columns df (filter (fun col => contains "_duplicate" col = false) (columns df)).

(** ** Reading and assigning a column *)

(** The cells of the column at position [i]. *)
Definition column_at (df : DataFrame) (i : nat) : list cell :=
  map (fun r => cell_at r i) (values df).

(** [df[name]] read as a Series.  A label carried by several columns
    selects a DataFrame instead, which the script's next step (a dict
    [map], [pd.to_numeric]) does not accept. *)
Definition getitem (df : DataFrame) (name : string) : result (list cell) :=
  match positions name (columns df) with
  | [] => Raise KeyError
  | [i] => Ok (column_at df i)
  | _ => Raise TypeError
  end.

(** [df[name] = vals] for a list or Series [vals].

    When several columns are labelled [name] and [vals] has as many
    values as there are such columns, pandas sets these columns one at a
    time, the i-th of them to the i-th value: every row receives the
    values side by side.

    Otherwise every column labelled [name] receives the list, and without
    such a column one is appended.  A frame with no rows first takes the
    length of the assigned list, filled with missing values; a list of the
    wrong length is refused. *)
Definition set_cells (cols : list string) (name : string) (v : cell) (r : row) : row :=
  zip_with (fun c x => if decide (c = name) then v else x) cols r.

Fixpoint set_cells_across (cols : list string) (name : string) (vals : list cell)
    (r : row) : row :=
  match cols, r with
  | c :: cols', x :: r' =>
      if decide (c = name) then
        match vals with
        | v :: vals' => v :: set_cells_across cols' name vals' r'
        | [] => x :: set_cells_across cols' name [] r'
        end
      else x :: set_cells_across cols' name vals r'
  | _, _ => []
  end.

Definition ensure_valid_index (df : DataFrame) (vals : list cell) : DataFrame :=
  match values df, vals with
  | [], _ :: _ =>
      mkDF (columns df) (replicate (length vals) (replicate (length (columns df)) CNA))
  | _, _ => df
  end.

Definition setitem (df : DataFrame) (name : string) (vals : list cell) : result DataFrame :=
  let k := length (positions name (columns df)) in
  if decide (1 < k ∧ k = length vals) then
    Ok (mkDF (columns df) (map (set_cells_across (columns df) name vals) (values df)))
  else
    let df := ensure_valid_index df vals in
    if decide (length vals = len df) then
      if has_column df name then
        Ok (mkDF (columns df) (zip_with (set_cells (columns df) name) vals (values df)))
      else
        Ok (mkDF (columns df ++ [name]) (zip_with (fun v r => r ++ [v]) vals (values df)))
    else Raise ValueError.

(** The test that sends an assignment to the one-column-at-a-time
    branch. *)
Definition across (df : DataFrame) (name : string) (vals : list cell) : Prop :=
  1 < length (positions name (columns df)) ∧
  length (positions name (columns df)) = length vals.

(** ** add_ids_to_dataframe and add_team_id_to_player_df *)

(** A row of the association list: [(player_id, team_id)], either of
    which may be [None]. *)
Definition assoc := (option string * option string)%type.

(** Truth value of an identifier-or-[None]. *)
Definition truthy (o : option string) : bool :=
  match o with
  | Some s => str_truthy s
  | None => false
  end.

(** A Python value stored in a cell: [None] is a missing value. *)
Definition opt_cell (o : option string) : cell :=
  match o with
  | Some s => CStr s
  | None => CNA
  end.

(** [{pid: tid for pid, tid in valid_rows if pid and tid}]: one step of
    the comprehension, and the whole dict. *)
Definition id_map_step (m : gmap string string) (r : assoc) : gmap string string :=
  let '(pid, tid) := r in
  if truthy pid && truthy tid then
    match pid, tid with
    | Some p, Some t => <[p := t]> m
    | _, _ => m
    end
  else m.

Definition id_map_of (valid_rows : list assoc) : gmap string string :=
  foldl id_map_step ∅ valid_rows.

(** [series.map(d)] for a dict [d]: a value that is not a key of [d]
    becomes missing. *)
Definition map_cell (d : gmap string string) (c : cell) : cell :=
  match c with
  | CStr s => opt_cell (d !! s)
  | _ => CNA
  end.

Definition add_ids_to_dataframe (df : DataFrame) (id_map : gmap string string)
    (name_col id_col : string) : result DataFrame :=
  if bool_decide (id_map = ∅) || negb (has_column df name_col) then Ok df
  else
    names ← getitem df name_col;
    setitem df id_col (map (map_cell id_map) names).

(** [[r for r in rows_data if r[0] is not None]] *)
Definition valid_rows_of (rows_data : list assoc) : list assoc :=
  filter (fun r => is_Some (fst r)) rows_data.

Definition add_team_id_to_player_df (df : DataFrame) (rows_data : list assoc)
  : result DataFrame :=
  match rows_data with
  | [] => Ok df
  | _ =>
      let valid_rows := valid_rows_of rows_data in
      if decide (length valid_rows ≠ len df) then
        let id_map := id_map_of valid_rows in
        if has_column df "Player ID" then
          player_ids ← getitem df "Player ID";
          setitem df "Team ID" (map (map_cell id_map) player_ids)
        else Ok df
      else
        setitem df "Team ID" (map (fun r => opt_cell (snd r)) valid_rows)
  end.

(** ** Parsed markup (BeautifulSoup) *)

Set Warnings "-register-all".

(** A node of the parsed document: an element with its attribute dict and
    its children, or a text node. *)
Inductive Tag :=
| Element (name : string) (attrs : gmap string string) (contents : list Tag)
| NavigableString (text : string).

(** All nodes below [t], in document order. *)
Fixpoint descendants (t : Tag) : list Tag :=
  match t with
  | Element _ _ cs =>
      (fix below (l : list Tag) : list Tag :=
         match l with
         | [] => []
         | c :: l' => c :: descendants c ++ below l'
         end) cs
  | NavigableString _ => []
  end.

(** [tag.get(key)] *)
Definition tag_get (t : Tag) (key : string) : option string :=
  match t with
  | Element _ attrs _ => attrs !! key
  | NavigableString _ => None
  end.

(** [tag[key]] *)
Definition tag_getitem (t : Tag) (key : string) : result string :=
  match tag_get t key with
  | Some v => Ok v
  | None => Raise KeyError
  end.

(** The whitespace-separated words of an attribute value; the parser
    stores the [class] attribute as this list.  [fuel] bounds the number
    of characters read. *)
Definition flush (cur : option string) : list string :=
  match cur with Some w => [w] | None => [] end.

Fixpoint words_from (fuel : nat) (cur : option string) (s : string) : list string :=
  match fuel, s with
  | S fuel', String a s' =>
      match space_width s with
      | O => words_from fuel' (Some (default "" cur +:+ String a "")) s'
      | w => flush cur ++ words_from fuel' None (string_drop w s)
      end
  | _, _ => flush cur
  end.

Definition words (s : string) : list string := words_from (String.length s) None s.

Definition tag_get_class (t : Tag) : option (list string) :=
  words <$> tag_get t "class".

(** Does the node carry tag name [n] (one of [names]) and every
    attribute value of [attrs]? *)
Definition tag_matches (names : list string) (attrs : list (string * string))
    (t : Tag) : bool :=
  match t with
  | Element n _ _ =>
      bool_decide (n ∈ names) &&
      forallb (fun kv => bool_decide (tag_get t (fst kv) = Some (snd kv))) attrs
  | NavigableString _ => false
  end.

(** [tag.find_all(names, attrs)] and [tag.find(names, attrs)] *)
Definition find_all (names : list string) (attrs : list (string * string))
    (t : Tag) : list Tag :=
  filter (fun d => tag_matches names attrs d = true) (descendants t).

Definition find (names : list string) (attrs : list (string * string))
    (t : Tag) : option Tag :=
  head (find_all names attrs t).

(** [tag.text]: the text nodes below the tag, concatenated. *)
Definition own_text (t : Tag) : string :=
  match t with
  | NavigableString s => s
  | Element _ _ _ => ""
  end.

Definition tag_text (t : Tag) : string :=
  foldr (fun d acc => own_text d +:+ acc) "" (descendants t).

(** ** The href pattern [/en/<collection>/([a-f0-9]+)/] *)

Definition is_hex (a : ascii) : bool :=
  let n := nat_of_ascii a in
  (Nat.leb 48 n && Nat.leb n 57) || (Nat.leb 97 n && Nat.leb n 102).

Fixpoint strip_prefix (p s : string) : option string :=
  match p, s with
  | EmptyString, _ => Some s
  | String a p', String b s' =>
      if Ascii.eqb a b then strip_prefix p' s' else None
  | String _ _, EmptyString => None
  end.

(** The longest prefix of characters satisfying [p], and the rest. *)
Fixpoint span (p : ascii -> bool) (s : string) : string * string :=
  match s with
  | EmptyString => ("", "")
  | String a s' =>
      if p a then let '(h, t) := span p s' in (String a h, t)
      else ("", s)
  end.

(** A match of the pattern that starts at the first character of [s];
    the value is the identifier group.  The greedy hex run cannot give a
    character back: the character after a shorter run is a hex digit,
    not a slash. *)
Definition match_here (collection s : string) : option string :=
  match strip_prefix ("/en/" +:+ collection +:+ "/") s with
  | Some rest =>
      match span is_hex rest with
      | (String a h, String "/" _) => Some (String a h)
      | _ => None
      end
  | None => None
  end.

(** [re.search(pattern, s)]: the leftmost match, as its identifier group. *)
Fixpoint re_search (collection s : string) : option string :=
  match match_here collection s with
  | Some id => Some id
  | None =>
      match s with
      | EmptyString => None
      | String _ s' => re_search collection s'
      end
  end.

(** ** extract_ids_from_soup *)

Fixpoint foldM {A B} (f : B -> A -> result B) (b : B) (l : list A) : result B :=
  match l with
  | [] => Ok b
  | x :: l' => b' ← f b x; foldM f b' l'
  end.

(** One pass of the loop body over a cell [td]. *)
Definition record_id (collection : string) (id_map : gmap string string) (td : Tag)
  : result (gmap string string) :=
  match find ["a"] [] td with
  | Some link =>
      if truthy (tag_get link "href") then
        href ← tag_getitem link "href";
        match re_search collection href with
        | Some entity_id =>
            let name := strip (tag_text link) in
            Ok (<[name := entity_id]> id_map)
        | None => Ok id_map
        end
      else Ok id_map
  | None => Ok id_map
  end.

Definition extract_ids_from_soup (soup_table : option Tag) (id_type : string)
  : result (gmap string string) :=
  let id_map : gmap string string := ∅ in
  match soup_table with
  | None => Ok id_map
  | Some table =>
      let data_stat := if decide (id_type = "player") then id_type else "team" in
      let collection := if decide (id_type = "player") then "players" else "squads" in
      if decide (id_type = "player") then
        foldM (record_id collection) id_map
              (find_all ["td"] [("data-stat", data_stat)] table)
      else
        foldM (record_id collection) id_map
              (find_all ["th"] [("data-stat", data_stat)] table)
  end.

(** ** extract_player_team_ids_from_soup *)

(** The identifier in the first link of a cell, if the cell exists, has a
    link, and the link target matches. *)
Definition cell_link_id (collection : string) (cell : option Tag) : option string :=
  match cell with
  | Some c =>
      match find ["a"] [] c with
      | Some link => re_search collection (default "" (tag_get link "href"))
      | None => None
      end
  | None => None
  end.

(** [row.get("class") and any("thead" in c for c in row.get("class", []))] *)
Definition is_section_header (r : Tag) : bool :=
  match tag_get_class r with
  | Some (c :: cs) => existsb (contains "thead") (c :: cs)
  | _ => false
  end.

Definition row_pair (r : Tag) : assoc :=
  let player_cell := find ["td"; "th"] [("data-stat", "player")] r in
  let team_cell := find ["td"; "th"] [("data-stat", "team")] r in
  (cell_link_id "players" player_cell, cell_link_id "squads" team_cell).

Definition extract_player_team_ids_from_soup (soup_table : option Tag) : list assoc :=
  match soup_table with
  | None => []
  | Some table =>
      match find ["tbody"] [] table with
      | None => []
      | Some tbody =>
          map row_pair
              (filter (fun r => is_section_header r = false) (find_all ["tr"] [] tbody))
      end
  end.

(** ** flatten_multiindex_columns *)

(** The header of a freshly parsed table: plain labels, or one tuple of
    level labels per column. *)
Inductive Columns :=
| Index (labels : list string)
| MultiIndex (tuples : list (list string)).

Record ParsedFrame := mkPF {
  pf_columns : Columns;
  pf_values : list row;
}.

(** A frame with a plain header, seen as a parsed frame. *)
Definition of_frame (df : DataFrame) : ParsedFrame :=
  mkPF (Index (columns df)) (values df).

(** [col[i]] on a tuple *)
Definition tuple_get (col : list string) (i : nat) : result string :=
  match col !! i with
  | Some x => Ok x
  | None => Raise IndexError
  end.

Definition new_col_name (col : list string) : result string :=
  col0 ← tuple_get col 0;
  let col_name_1 := if contains "Unnamed" col0 then "" else col0 in
  col1 ← tuple_get col 1;
  let col_name_2 := if contains "Unnamed" col0 then col1 else " " +:+ col1 in
  Ok (strip (col_name_1 +:+ col_name_2)).

Fixpoint mapM {A B} (f : A -> result B) (l : list A) : result (list B) :=
  match l with
  | [] => Ok []
  | x :: l' => y ← f x; ys ← mapM f l'; Ok (y :: ys)
  end.

(** [series != s] for a string [s], cell by cell. *)
Definition cell_ne_str (s : string) (c : cell) : bool :=
  match c with
  | CStr s' => negb (String.eqb s' s)
  | _ => true
  end.

(** [df[mask]] for a boolean Series [mask] *)
Definition select_rows (df : DataFrame) (mask : list bool) : DataFrame :=
  mkDF (columns df)
       (map snd (filter (fun br => fst br = true) (zip mask (values df)))).

(** [df[df["Rk"] != "Rk"]].  With one column labelled "Rk" the comparison
    is a boolean Series and selects rows.  With several, it is a boolean
    frame and the selection goes through [DataFrame.where], which keeps
    the labels; the cells it leaves depend on how pandas aligns the
    repeated labels, and are the parameter [where_rk] of the embedding. *)
Definition flatten_multiindex_columns (where_rk : DataFrame -> result (list row))
    (df : ParsedFrame) : result DataFrame :=
  match pf_columns df with
  | Index labels => Ok (mkDF labels (pf_values df))
  | MultiIndex tuples =>
      new_col_names ← mapM new_col_name tuples;
      let df := mkDF new_col_names (pf_values df) in
      if has_column df "Rk" then
        match positions "Rk" (columns df) with
        | [i] => Ok (select_rows df (map (cell_ne_str "Rk") (column_at df i)))
        | _ => rows ← where_rk df; Ok (mkDF (columns df) rows)
        end
      else Ok df
  end.

(** ** safe_merge *)

(** [df.drop_duplicates(subset=subset)]: a row is dropped when an earlier
    row agrees with it on every column whose label is in [subset]. *)
Definition subset_key (cols subset : list string) (r : row) : list cell :=
  map snd (filter (fun cx => bool_decide (fst cx ∈ subset)) (zip cols r)).

Fixpoint dedup_rows (key : row -> list cell) (seen : list (list cell))
    (rows : list row) : list row :=
  match rows with
  | [] => []
  | r :: rows' =>
      if decide (key r ∈ seen) then dedup_rows key seen rows'
      else r :: dedup_rows key (key r :: seen) rows'
  end.

Definition drop_duplicates (df : DataFrame) (subset : list string) : DataFrame :=
  mkDF (columns df) (dedup_rows (subset_key (columns df) subset) [] (values df)).

(** *** [left.merge(right, on=on, suffixes=suffixes, how="outer")]

    The result lists the columns of [left], then the columns of [right]
    that are not keys.  A label of the second group that is also a label of
    [left] is suffixed on both sides.  Rows: every left row with each right
    row of equal key (missing values when there is none), and every right
    row whose key no left row has.  Missing key values match each other.

    pandas returns the rows of an outer join sorted by key; the order fixed
    here is left rows first, then the unmatched right rows. *)

Definition key_pos (cols : list string) (k : string) : nat :=
  default 0 (head (positions k cols)).

Definition key_of (cols on : list string) (r : row) : list cell :=
  map (fun k => cell_at r (key_pos cols k)) on.

Definition unique_label (cols : list string) (k : string) : bool :=
  bool_decide (length (positions k cols) = 1).

(** Positions of the columns of [cols] that are not keys. *)
Fixpoint rest_positions_from (i : nat) (on cols : list string) : list nat :=
  match cols with
  | [] => []
  | c :: cols' =>
      if decide (c ∈ on) then rest_positions_from (S i) on cols'
      else i :: rest_positions_from (S i) on cols'
  end.

Definition rest_of (on cols : list string) (r : row) : row :=
  map (cell_at r) (rest_positions_from 0 on cols).

Definition rest_labels (on cols : list string) : list string :=
  filter (fun c => c ∉ on) cols.

(** [index.duplicated()]: true at every occurrence but the first. *)
Fixpoint duplicated_from (seen l : list string) : list bool :=
  match l with
  | [] => []
  | x :: l' => bool_decide (x ∈ seen) :: duplicated_from (x :: seen) l'
  end.

(** Did renaming [orig] into [renamed] create a repeated label? *)
Definition suffix_dups (orig renamed : list string) : bool :=
  existsb (fun dd => fst dd && negb (snd dd))
          (zip (duplicated_from [] renamed) (duplicated_from [] orig)).

Definition rename_overlap (overlap : list string) (suffix : string) (c : string) : string :=
  if decide (c ∈ overlap) then c +:+ suffix else c.

Definition joined_rows (lcols rcols on : list string) (lrows rrows : list row)
  : list row :=
  let n := length (rest_labels on rcols) in
  lrows ≫= (fun l =>
    match filter (fun r => key_of rcols on r = key_of lcols on l) rrows with
    | [] => [l ++ replicate n CNA]
    | ms => map (fun r => l ++ rest_of on rcols r) ms
    end).

Definition right_only_row (lcols rcols on : list string) (r : row) : row :=
  map (fun c => if decide (c ∈ on) then cell_at r (key_pos rcols c) else CNA) lcols
  ++ rest_of on rcols r.

Definition right_only_rows (lcols rcols on : list string) (lrows rrows : list row)
  : list row :=
  map (right_only_row lcols rcols on)
      (filter (fun r => Forall (fun l => key_of lcols on l ≠ key_of rcols on r) lrows)
              rrows).

(** The dtype check on a pair of key columns.  A merge of an object
    column whose values are inferred as text (strings, with or without
    missing values, and no number) with a numeric column is refused; a
    column without rows is never checked. *)
Definition is_str (c : cell) : bool :=
  match c with CStr _ => true | _ => false end.

Definition is_num (c : cell) : bool :=
  match c with CNum _ => true | _ => false end.

Definition text_column (cells : list cell) : bool :=
  existsb is_str cells && negb (existsb is_num cells).

Definition numeric_column (cells : list cell) : bool :=
  negb (existsb is_str cells) && negb (bool_decide (cells = [])).

Definition keys_clash (lk rk : list cell) : bool :=
  (text_column lk && numeric_column rk) || (numeric_column lk && text_column rk).

Definition merge_outer (left right : DataFrame) (on : list string)
    (suffixes : string * string) : result DataFrame :=
  let lcols := columns left in
  let rcols := columns right in
  if forallb (fun k => unique_label lcols k && unique_label rcols k) on
     && forallb (fun k => negb (keys_clash (column_at left (key_pos lcols k))
                                           (column_at right (key_pos rcols k)))) on
  then
    let rrest := rest_labels on rcols in
    let overlap := filter (fun c => c ∈ rrest) lcols in
    let '(lsuffix, rsuffix) := suffixes in
    if bool_decide (overlap ≠ []) && negb (str_truthy lsuffix) && negb (str_truthy rsuffix)
    then Raise ValueError
    else
      let llabels := map (rename_overlap overlap lsuffix) lcols in
      let rlabels := map (rename_overlap overlap rsuffix) rrest in
      if suffix_dups lcols llabels || suffix_dups rrest rlabels then
        Raise MergeError
      else
        Ok (mkDF (llabels ++ rlabels)
                 (joined_rows lcols rcols on (values left) (values right)
                  ++ right_only_rows lcols rcols on (values left) (values right)))
  else Raise ValueError.

Definition default_suffixes : string * string := ("", "_duplicate").

Definition fanout_warning (before after : nat) : string :=
  "Warning: Merge increased rows from " +:+ pretty before +:+ " to " +:+ pretty after.

(** [len(merged) > len(left_df) * 1.5 and len(merged) > 100].  The product
    with 1.5 is exact, and the comparison is that of [2 * len(merged)]
    with [3 * len(left_df)]. *)
Definition fanout (before after : nat) : bool :=
  Nat.ltb (3 * before) (2 * after) && Nat.ltb 100 after.

(** The second component of the value is what the call prints. *)
Definition safe_merge (left_df right_df : DataFrame) (merge_keys : list string)
    (suffixes : string * string) : result (DataFrame * list string) :=
  if empty left_df then Ok (right_df, [])
  else if empty right_df then Ok (left_df, [])
  else
    match merge_keys with
    | [] => Ok (left_df, [])
    | _ =>
        let existing_keys :=
          filter (fun k => has_column left_df k = true ∧ has_column right_df k = true)
                 merge_keys in
        match existing_keys with
        | [] => Ok (left_df, [])
        | _ =>
            let right_deduped := drop_duplicates right_df existing_keys in
            merged ← merge_outer left_df right_deduped existing_keys suffixes;
            if fanout (len left_df) (len merged) then
              Ok (merged, [fanout_warning (len left_df) (len merged)])
            else Ok (merged, [])
        end
    end.

(** ** The driver's finalization step *)

(** The three consolidated tables of the driver. *)
Record Consolidated := mkConsolidated {
  teaminfo_for_df : DataFrame;
  teaminfo_against_df : DataFrame;
  playerinfo_df : DataFrame;
}.

(** "Remove duplicate columns": the three reassignments after the loop
    over the statistic groups. *)
Definition strip_duplicate_columns (c : Consolidated) : Consolidated :=
  let teaminfo_for_df := remove_duplicate_columns (teaminfo_for_df c) in
  let teaminfo_against_df := remove_duplicate_columns (teaminfo_against_df c) in
  let playerinfo_df := remove_duplicate_columns (playerinfo_df c) in
  mkConsolidated teaminfo_for_df teaminfo_against_df playerinfo_df.

(** ** convert_numeric_columns *)

(** [try: ... except (ValueError, TypeError): pass] around a computation
    whose failure leaves [otherwise]. *)
Definition value_or_type_error (e : exn) : bool :=
  match e with
  | ValueError | TypeError => true
  | _ => false
  end.

Definition try_except {A} (m : result A) (caught : exn -> bool) (otherwise : A)
  : result A :=
  match m with
  | Ok a => Ok a
  | Raise e => if caught e then Ok otherwise else Raise e
  end.

(** [pd.to_numeric] on a Series is a parameter of the embedding. *)
Section ToNumeric.
Variable to_numeric : list cell -> result (list cell).

(** The body of the loop for one column label. *)
Definition convert_column (df : DataFrame) (col : string) : result DataFrame :=
  try_except
    (series ← getitem df col;
     converted ← to_numeric series;
     setitem df col converted)
    value_or_type_error df.

Definition convert_numeric_columns (df : DataFrame) : result DataFrame :=
  foldM convert_column df (columns df).
End ToNumeric.

(** ** The driver: merging the statistic groups *)

(** One entry of [fbref_dict]: the three tables of a statistic group. *)
Record StatData := mkStatData {
  squad : DataFrame;
  opponent : DataFrame;
  player : DataFrame;
}.

(** [if not temp.empty: merge_keys = get_merge_keys(temp, data_type);
     acc = safe_merge(acc, temp, merge_keys)] *)
Definition merge_into (acc temp : DataFrame) (data_type : string)
  : result (DataFrame * list string) :=
  if negb (empty temp) then
    let merge_keys := get_merge_keys temp data_type in
    safe_merge acc temp merge_keys default_suffixes
  else Ok (acc, []).

(** The body of the loop over the statistic groups; the second component
    collects what is printed. *)
Definition merge_statistic_group (acc : Consolidated * list string)
    (stat_data : StatData) : result (Consolidated * list string) :=
  let '(c, out) := acc in
  r1 ← merge_into (teaminfo_for_df c) (squad stat_data) "team";
  r2 ← merge_into (teaminfo_against_df c) (opponent stat_data) "team";
  r3 ← merge_into (playerinfo_df c) (player stat_data) "player";
  Ok (mkConsolidated (fst r1) (fst r2) (fst r3), out ++ snd r1 ++ snd r2 ++ snd r3).

Definition merge_statistic_groups (groups : list StatData)
  : result (Consolidated * list string) :=
  foldM merge_statistic_group
        (mkConsolidated empty_frame empty_frame empty_frame, []) groups.

(** ** The driver: incomplete player rows *)

(** [series.isna()] on a cell *)
Definition isna (c : cell) : bool :=
  match c with
  | CNA => true
  | _ => false
  end.

Definition incomplete_message (incomplete_count : nat) : string :=
  "Removing " +:+ pretty incomplete_count +:+ " incomplete player rows (no Player name)".

(** With several columns labelled "Player" the count is a Series, and its
    truth value in the [if] is refused. *)
Definition remove_incomplete_player_rows (playerinfo_df : DataFrame)
  : result (DataFrame * list string) :=
  if has_column playerinfo_df "Player" then
    match positions "Player" (columns playerinfo_df) with
    | [i] =>
        let names := column_at playerinfo_df i in
        let incomplete_count := length (filter (fun c => isna c = true) names) in
        if Nat.ltb 0 incomplete_count then
          Ok (select_rows playerinfo_df (map (fun c => negb (isna c)) names),
              [incomplete_message incomplete_count])
        else Ok (playerinfo_df, [])
    | _ => Raise ValueError
    end
  else Ok (playerinfo_df, []).

(** ** scrape_stats_with_ids: from the located tables to the frames

    [tag] is the table element found in the page, if any, and [parsed] is
    what [pd.read_html] made of it. *)

Definition table_frame (tag : option Tag) (parsed : ParsedFrame) : ParsedFrame :=
  match tag with
  | Some _ => parsed
  | None => of_frame empty_frame
  end.

(** The squad table and the opponent table are treated alike. *)
Definition squad_stats (where_rk : DataFrame -> result (list row))
    (squad_tag : option Tag) (parsed : ParsedFrame) : result DataFrame :=
  let squad_df := table_frame squad_tag parsed in
  team_ids ← extract_ids_from_soup squad_tag "squad";
  squad_df ← flatten_multiindex_columns where_rk squad_df;
  add_ids_to_dataframe squad_df team_ids "Squad" "Team ID".

Definition player_stats (where_rk : DataFrame -> result (list row))
    (player_tag : option Tag) (parsed : ParsedFrame) : result DataFrame :=
  let player_df := table_frame player_tag parsed in
  player_ids ← extract_ids_from_soup player_tag "player";
  let player_team_ids := extract_player_team_ids_from_soup player_tag in
  player_df ← flatten_multiindex_columns where_rk player_df;
  player_df ← add_ids_to_dataframe player_df player_ids "Player" "Player ID";
  add_team_id_to_player_df player_df player_team_ids.

(** ** scrape_stats_with_ids: the page addresses *)

(** [s.split(sep)] for a one-character separator *)
Fixpoint split_on (sep : ascii) (s : string) : list string :=
  match s with
  | EmptyString => [""]
  | String a s' =>
      if Ascii.eqb a sep then "" :: split_on sep s'
      else
        match split_on sep s' with
        | w :: ws => String a w :: ws
        | [] => [String a ""]
        end
  end.

(** [sep.join(parts)] *)
Fixpoint join_with (sep : string) (parts : list string) : string :=
  match parts with
  | [] => ""
  | [p] => p
  | p :: ps => p +:+ sep +:+ join_with sep ps
  end.

(** [l.insert(-1, x)]: before the last element; into an empty list, as
    its only element. *)
Definition insert_before_last {A} (x : A) (l : list A) : list A :=
  let i := length l - 1 in
  take i l ++ x :: drop i l.

(** [category_url] stands for [stats_categories[stat_category]["url"]]. *)
Definition stat_url (season_url category_url : string) (is_big5 : bool) : string :=
  let season_url_split := split_on "/" season_url in
  let season_url_split := insert_before_last category_url season_url_split in
  let season_url_split :=
    if is_big5 then insert_before_last "squads" season_url_split
    else season_url_split in
  join_with "/" season_url_split.

Definition player_url (season_url category_url : string) : string :=
  let player_url_split := split_on "/" season_url in
  let player_url_split := insert_before_last category_url player_url_split in
  let player_url_split := insert_before_last "players" player_url_split in
  join_with "/" player_url_split.

(** ** Predicates on strings *)

(** Every character of [s] satisfies [p]. *)
Fixpoint string_forall (p : ascii -> bool) (s : string) : bool :=
  match s with
  | EmptyString => true
  | String a s' => p a && string_forall p s'
  end.

(** A hex identifier as the href pattern captures it. *)
Definition hex_id (s : string) : Prop :=
  s ≠ "" ∧ string_forall is_hex s = true.

(** [s] contains the pattern with identifier [id]. *)
Definition href_occurrence (collection s id : string) : Prop :=
  exists pre post,
    s = pre +:+ ("/en/" +:+ collection +:+ "/") +:+ id +:+ "/" +:+ post.

(** ** The entry a table cell contributes to the name map *)

(** The trimmed text and the identifier of the first link of the cell,
    when the link target matches. *)
Definition cell_entry (collection : string) (td : Tag) : option (string * string) :=
  link ← find ["a"] [] td;
  entity_id ← re_search collection (default "" (tag_get link "href"));
  Some (strip (tag_text link), entity_id).

(** The dict after the loop body has run on one more cell. *)
Definition entry_step (collection : string) (m : gmap string string) (td : Tag)
  : gmap string string :=
  match cell_entry collection td with
  | Some (name, entity_id) => <[name := entity_id]> m
  | None => m
  end.

(** ** Counting the rows of a merge *)

(** The rows of [right] whose key no row of [left] has. *)
Definition unmatched_rows (left right : DataFrame) (on : list string) : list (list cell) :=
  filter (fun r => Forall (fun l => key_of (columns left) on l
                                    ≠ key_of (columns right) on r) (values left))
         (values right).

(** The labels and the rows of the merged table, in the terms of
    [merge_outer]. *)
Definition outer_join_of (left right : DataFrame) (on : list string)
    (merged : DataFrame) : Prop :=
  let lcols := columns left in
  let rcols := columns right in
  columns merged =
    lcols ++ map (fun c => if decide (c ∈ lcols) then c +:+ "_duplicate" else c)
                 (rest_labels on rcols) ∧
  forall x, x ∈ values merged <->
    (exists l r, l ∈ values left ∧ r ∈ values right ∧
                 key_of lcols on l = key_of rcols on r ∧
                 x = l ++ rest_of on rcols r) ∨
    (exists l, l ∈ values left ∧
               (forall r, r ∈ values right -> key_of rcols on r ≠ key_of lcols on l) ∧
               x = l ++ replicate (length (rest_labels on rcols)) CNA) ∨
    (exists r, r ∈ values right ∧
               (forall l, l ∈ values left -> key_of lcols on l ≠ key_of rcols on r) ∧
               x = right_only_row lcols rcols on r).

(** [existing_keys] of [safe_merge]. *)
Definition shared_keys (left right : DataFrame) (merge_keys : list string) : list string :=
  filter (fun k => has_column left k = true ∧ has_column right k = true) merge_keys.

(** The cells of a column after the conversion attempt: what
    [to_numeric] returns, or the cells as they were when it raises. *)
Definition converted (to_numeric : list cell -> result (list cell)) (series : list cell)
  : list cell :=
  match to_numeric series with
  | Ok c => c
  | Raise _ => series
  end.

(** ** Season strings *)

(** [f"{end_year - 1}-{end_year}"] *)
Definition get_season_string (end_year : Z) : string :=
  pretty (end_year - 1)%Z +:+ "-" +:+ pretty end_year.

(** [season_str] of [get_output_dir]:
    [f"{competition_end_year - 1}_{str(competition_end_year)[2:]}"] *)
Definition season_str (competition_end_year : Z) : string :=
  pretty (competition_end_year - 1)%Z +:+ "_"
  +:+ string_drop 2 (pretty competition_end_year).

(** The two decimal digits of a number below 100. *)
Definition two_digits (n : Z) : string :=
  String (ascii_of_nat (48 + Z.to_nat (n / 10))) 
         (String (ascii_of_nat (48 + Z.to_nat (n mod 10))) "").

(** The accumulators are either untouched or hold a table with rows and
    columns. *)
Definition started_or_untouched (acc : DataFrame) : Prop :=
  acc = empty_frame ∨ empty acc = false.

Definition consolidated_ok (s : Consolidated * list string) : Prop :=
  started_or_untouched (teaminfo_for_df (fst s)) ∧
  started_or_untouched (teaminfo_against_df (fst s)) ∧
  started_or_untouched (playerinfo_df (fst s)).

(** ** The specification's wording *)

(** Merge Key Resolver: for a team, the identifier column if present, else
    the team-name column, else nothing; for a player, whichever of the two
    identifier columns are present, and only when there is none, whichever
    of the two name columns are present. *)
Definition present (df : DataFrame) (names : list string) : list string :=
  filter (fun c => c ∈ columns df) names.

Definition spec_team_keys (df : DataFrame) : list string :=
  if decide ("Team ID" ∈ columns df) then ["Team ID"]
  else if decide ("Squad" ∈ columns df) then ["Squad"]
  else [].

Definition spec_player_keys (df : DataFrame) : list string :=
  match present df ["Player ID"; "Team ID"] with
  | [] => present df ["Player"; "Squad"]
  | ids => ids
  end.

(** Safe Merger, degenerate cases: no listed key is a column of both
    tables. *)
Definition no_shared_key (left right : DataFrame) (keys : list string) : Prop :=
  Forall (fun k => ¬ (k ∈ columns left ∧ k ∈ columns right)) keys.

(** Safe Merger.  The description below is written on labels and cells
    alone.

    Two rows of one table hold the same cells under every key column. *)
Definition same_on (cols on : list string) (r1 r2 : row) : Prop :=
  forall j c, cols !! j = Some c -> c ∈ on -> r1 !! j = r2 !! j.

(** [kept] is [rows] reduced to one row per distinct key combination:
    the row at position [i] stays exactly when no earlier row holds the
    same key cells. *)
Definition kept_first (cols on : list string) (rows kept : list row) : Prop :=
  exists keep : list bool,
    length keep = length rows ∧
    kept = map snd (filter (fun br => fst br = true) (zip keep rows)) ∧
    forall i r, rows !! i = Some r ->
      (keep !! i = Some true <->
       forall j r', j < i -> rows !! j = Some r' -> ¬ same_on cols on r' r).

(** A row [l] of the accumulator and a row [r] of the new table hold the
    same cell under every key label. *)
Definition keys_agree (lcols rcols on : list string) (l r : row) : Prop :=
  forall k i j, k ∈ on -> lcols !! i = Some k -> rcols !! j = Some k -> l !! i = r !! j.

(** The cells of [r] under the columns that are not keys. *)
Definition non_key_cells (rcols on : list string) (r : row) : list cell :=
  map snd (filter (fun cx => fst cx ∉ on) (zip rcols r)).

(** [x] lays the key cells of [r] under the header of the accumulator,
    with a missing value under every column that is not a key. *)
Definition keys_under (lcols rcols on : list string) (r x : row) : Prop :=
  length x = length lcols ∧
  forall i c, lcols !! i = Some c ->
    (c ∉ on -> x !! i = Some CNA) ∧
    (c ∈ on -> forall j, rcols !! j = Some c -> x !! i = r !! j).

(** [merged] is the full outer join of the accumulator [left] with the
    rows [kept] of the new table, whose header is [rcols], on the key
    columns [on]; the non-key labels of the new side that are labels of
    the accumulator carry the marker "_duplicate".  A row of the result is
    a row of the accumulator extended by the non-key cells of a kept row
    with the same key, a row of the accumulator without partner extended
    by missing values, or a kept row without partner: its key cells under
    the header of the accumulator, then its non-key cells. *)
Definition spec_outer_join (left : DataFrame) (rcols : list string) (kept : list row)
    (on : list string) (merged : DataFrame) : Prop :=
  let lcols := columns left in
  columns merged =
    lcols ++ map (fun c => if decide (c ∈ lcols) then c +:+ "_duplicate" else c)
                 (filter (fun c => c ∉ on) rcols) ∧
  forall x, x ∈ values merged <->
    (exists l r, l ∈ values left ∧ r ∈ kept ∧ keys_agree lcols rcols on l r ∧
                 x = l ++ non_key_cells rcols on r) ∨
    (exists l, l ∈ values left ∧
               (forall r, r ∈ kept -> ¬ keys_agree lcols rcols on l r) ∧
               x = l ++ replicate (length (filter (fun c => c ∉ on) rcols)) CNA) ∨
    (exists r k, r ∈ kept ∧
                 (forall l, l ∈ values left -> ¬ keys_agree lcols rcols on l r) ∧
                 keys_under lcols rcols on r k ∧
                 x = k ++ non_key_cells rcols on r).

(** Conditions under which the merge is carried out: every key label is
    carried by one column, the key column holds text on both sides, and
    marking a colliding label does not produce a label the new table
    already has. *)
Definition labelled_once (cols : list string) (k : string) : Prop :=
  exists i, cols !! i = Some k ∧ forall j, cols !! j = Some k -> j = i.

Definition holds_text (df : DataFrame) (k : string) : Prop :=
  exists r i s, r ∈ values df ∧ columns df !! i = Some k ∧ r !! i = Some (CStr s).

Definition holds_number (df : DataFrame) (k : string) : Prop :=
  exists r i z, r ∈ values df ∧ columns df !! i = Some k ∧ r !! i = Some (CNum z).

(** The key column [k] holds text in one table and numbers in the other:
    pandas refuses the merge. *)
Definition text_against_numbers (df1 df2 : DataFrame) (k : string) : Prop :=
  holds_text df1 k ∧ ¬ holds_number df1 k ∧ holds_number df2 k ∧ ¬ holds_text df2 k.

Definition marker_free (left right : DataFrame) (on : list string) : Prop :=
  forall c c', c ∈ columns right -> c ∉ on -> c ∈ columns left ->
               c' ∈ columns right -> c' ≠ c +:+ "_duplicate".

(** ID Extractor: the cells the extractor looks at, and the identifier
    found in the first link of a cell. *)
Definition relevant_cells (id_type : string) (table : Tag) : list Tag :=
  if decide (id_type = "player") then find_all ["td"] [("data-stat", "player")] table
  else find_all ["th"] [("data-stat", "team")] table.

Definition collection_of (id_type : string) : string :=
  if decide (id_type = "player") then "players" else "squads".

Definition tag_name (t : Tag) : option string :=
  match t with
  | Element n _ _ => Some n
  | NavigableString _ => None
  end.

(** A table without a body element. *)
Definition no_tbody (table : Tag) : Prop :=
  Forall (fun d => tag_name d ≠ Some "tbody") (descendants table).

(** Row Enricher: a pair of the association list that enters the
    identifier-keyed map: both identifiers present, neither empty. *)
Definition valid_pair (rows_data : list assoc) (pid tid : string) : Prop :=
  (Some pid, Some tid) ∈ rows_data ∧ pid ≠ "" ∧ tid ≠ "".

(** The map built from the pairs in which both identifiers are present. *)
Definition spec_id_map (rows_data : list assoc) : gmap string string :=
  foldl (fun m r =>
           match r with
           | (Some pid, Some tid) => <[pid := tid]> m
           | _ => m
           end) ∅ rows_data.

(** [df'] is [df] after the assignment [df[name] = vals] of a list with
    one value per row.  As a rule every column labelled [name] holds the
    list afterwards.  When [df] has several columns labelled [name], as
    many as the list has values, the i-th of them holds the i-th value in
    every row instead. *)
Definition column_assigned (df : DataFrame) (name : string) (vals : list cell)
    (df' : DataFrame) : Prop :=
  let ps := positions name (columns df) in
  len df' = len df ∧ name ∈ columns df' ∧
  (¬ (1 < length ps ∧ length ps = length vals) ->
   forall j, columns df' !! j = Some name -> column_at df' j = vals) ∧
  (1 < length ps -> length ps = length vals ->
   forall i j v, ps !! i = Some j -> vals !! i = Some v ->
     column_at df' j = replicate (len df) v).

(** The team-identifier column the Row Enricher is to assign, for every
    table and every association list: by position when the counts agree,
    by lookup of the player identifier otherwise. *)
Definition spec_team_column (df : DataFrame) (rows_data : list assoc)
    (team_ids : list cell) : Prop :=
  if decide (length (valid_rows_of rows_data) = len df) then
    team_ids = map (fun r => opt_cell (snd r)) (valid_rows_of rows_data)
  else
    exists player_ids,
      getitem df "Player ID" = Ok player_ids ∧
      team_ids = map (map_cell (spec_id_map rows_data)) player_ids.

Definition spec_row_enricher (df : DataFrame) (rows_data : list assoc) : Prop :=
  exists df' team_ids,
    add_team_id_to_player_df df rows_data = Ok df' ∧
    getitem df' "Team ID" = Ok team_ids ∧
    spec_team_column df rows_data team_ids.

(** The fallback path read for every table with one Player ID column:
    every row that carries the player identifier [pid] holds [tid] under
    every column labelled Team ID. *)
Definition spec_last_seen (df : DataFrame) (rows_data : list assoc) (pid tid : string)
  : Prop :=
  exists df' p,
    add_team_id_to_player_df df rows_data = Ok df' ∧
    positions "Player ID" (columns df) = [p] ∧
    forall i j r r',
      values df !! i = Some r -> cell_at r p = CStr pid ->
      values df' !! i = Some r' -> columns df' !! j = Some "Team ID" ->
      cell_at r' j = CStr tid.

(** Column Normalizer: the name the specification gives a two-level
    column, and the rule read for every table. *)
Definition spec_flat_name (group sub : string) : string :=
  if contains "Unnamed" group then sub else group +:+ " " +:+ sub.

Definition two_level (tuples : list (list string)) : Prop :=
  Forall (fun col => length col = 2) tuples.

Definition two_or_more_levels (tuples : list (list string)) : Prop :=
  Forall (fun col => 2 <= length col) tuples.

Definition group_label (col : list string) : string := default "" (col !! 0).
Definition sub_label (col : list string) : string := default "" (col !! 1).

Definition spec_column_normalizer (where_rk : DataFrame -> result (list row))
    (df : ParsedFrame) : Prop :=
  match pf_columns df with
  | Index labels =>
      flatten_multiindex_columns where_rk df = Ok (mkDF labels (pf_values df))
  | MultiIndex tuples =>
      two_level tuples ->
      exists df',
        flatten_multiindex_columns where_rk df = Ok df' ∧
        columns df' = map (fun col => spec_flat_name (group_label col) (sub_label col))
                          tuples
  end.

(** ** Example inputs *)

(** *** Tables *)

Definition players_abc : DataFrame :=
  mkDF ["Player"; "Player ID"]
       [[CStr "A"; CStr "a1"]; [CStr "B"; CStr "b2"]; [CStr "C"; CStr "c3"]].

(** A player table with two columns labelled Team ID, and two rows. *)
Definition two_team_columns : DataFrame :=
  mkDF ["Player ID"; "Team ID"; "Team ID"]
       [[CStr "a1"; CNA; CNA]; [CStr "b2"; CNA; CNA]].

Definition accumulator_small : DataFrame :=
  mkDF ["Team ID"; "Goals"] [[CStr "t1"; CNum 2]].

(** 101 teams, none of them in [accumulator_small]. *)
Definition hundred_teams : DataFrame :=
  mkDF ["Team ID"; "Shots"]
       (map (fun i => [CStr ("u" +:+ pretty i); CNum 10]) (seq 0 101)).

Definition merged_hundred : DataFrame :=
  mkDF ["Team ID"; "Goals"; "Shots"]
       ([CStr "t1"; CNum 2; CNA]
        :: map (fun i => [CStr ("u" +:+ pretty i); CNA; CNum 10]) (seq 0 101)).

Definition goals_table : DataFrame :=
  mkDF ["Team ID"; "Squad"; "Goals"]
       [[CStr "t1"; CStr "Arsenal"; CNum 2]; [CStr "t2"; CStr "Chelsea"; CNum 3]].

(** Two rows for team [t1]. *)
Definition shots_table : DataFrame :=
  mkDF ["Team ID"; "Squad"; "Shots"]
       [[CStr "t1"; CStr "Arsenal"; CNum 10]; [CStr "t3"; CStr "Everton"; CNum 7];
        [CStr "t1"; CStr "Arsenal FC"; CNum 99]].

(** A merged table that still carries a marked column. *)
Definition merged_with_marker : DataFrame :=
  mkDF ["Team ID"; "Squad"; "Goals"; "Squad_duplicate"; "Shots"]
       [[CStr "t1"; CStr "Arsenal"; CNum 2; CStr "Arsenal"; CNum 10]].

(** An instance of the [to_numeric] parameter for the examples: whole
    numbers written in decimal digits are converted, numbers and missing
    values are kept, any other string is refused. *)
Definition digit_value (a : ascii) : option Z :=
  let n := nat_of_ascii a in
  if Nat.leb 48 n && Nat.leb n 57 then Some (Z.of_nat (n - 48)) else None.

Fixpoint parse_digits_from (acc : Z) (s : string) : option Z :=
  match s with
  | EmptyString => Some acc
  | String a s' =>
      match digit_value a with
      | Some d => parse_digits_from (10 * acc + d) s'
      | None => None
      end
  end.

Definition to_numeric_cell (c : cell) : result cell :=
  match c with
  | CStr EmptyString => Raise ValueError
  | CStr t =>
      match parse_digits_from 0 t with
      | Some z => Ok (CNum z)
      | None => Raise ValueError
      end
  | _ => Ok c
  end.

Definition to_numeric_digits (series : list cell) : result (list cell) :=
  mapM to_numeric_cell series.

Definition scraped_goals : DataFrame :=
  mkDF ["Player"; "Goals"] [[CStr "A"; CStr "12"]; [CStr "B"; CStr "7"]].

(** Player tables of two statistic groups; player [d4] is only in the
    second. *)
Definition players_first : DataFrame :=
  mkDF ["Player"; "Player ID"; "Goals"]
       [[CStr "A"; CStr "a1"; CNum 3]; [CStr "B"; CStr "b2"; CNum 1]].

Definition players_later : DataFrame :=
  mkDF ["Player"; "Player ID"; "Shots"]
       [[CStr "A"; CStr "a1"; CNum 9]; [CStr "D"; CStr "d4"; CNum 5]].

(** *** Association lists *)

Definition assoc_xyz : list assoc :=
  [(Some "a1", Some "x"); (None, Some "x"); (Some "b2", Some "y"); (Some "c3", Some "z")].

(** Four valid entries against three table rows; player [a1] appears for
    two teams. *)
Definition assoc_transfer : list assoc :=
  [(Some "a1", Some "x"); (Some "a1", Some "y"); (Some "b2", Some "z");
   (Some "d4", Some "w")].

(** *** Parsed tables *)

(** An instance of the [where_rk] parameter for the examples: every cell
    is kept. *)
Definition where_keep (df : DataFrame) : result (list row) := Ok (values df).

(** A two-level header with a repeated header row in the data. *)
Definition parsed_shooting : ParsedFrame :=
  mkPF (MultiIndex [["Unnamed: 0_level_0"; "Rk"]; ["Unnamed: 1_level_0"; "Player"];
                    ["Performance"; "Gls"]; ["Per 90 Minutes"; "Gls"]])
       [[CStr "1"; CStr "A"; CNum 3; CNum 1];
        [CStr "Rk"; CStr "Player"; CStr "Gls"; CStr "Gls"];
        [CStr "2"; CStr "B"; CNum 0; CNum 0]].

(** A group label that is empty rather than auto-generated. *)
Definition parsed_blank_group : ParsedFrame :=
  mkPF (MultiIndex [[""; "Squad"]; ["Performance"; "Gls"]])
       [[CStr "Arsenal"; CNum 88]].

(** A plain header with a repeated header row in the data. *)
Definition plain_with_header_row : DataFrame :=
  mkDF ["Rk"; "Player"] [[CStr "1"; CStr "A"]; [CStr "Rk"; CStr "Player"]].

(** *** Markup *)

(** U+00A0, the no-break space, in UTF-8. *)
Definition nbsp : string := String (ascii_of_nat 194) (String (ascii_of_nat 160) "").

Definition anchor (href text : string) : Tag :=
  Element "a" {["href" := href]} [NavigableString text].

Definition data_cell (tag stat : string) (contents : list Tag) : Tag :=
  Element tag {["data-stat" := stat]} contents.

(** Player cells whose links do not follow the players/hex-id pattern, or
    that have no link at all. *)
Definition table_without_ids : Tag :=
  Element "table" ∅
    [Element "tbody" ∅
       [Element "tr" ∅
          [data_cell "td" "player" [anchor "/en/squads/18bb7c10/Arsenal" "Arsenal"]];
        Element "tr" ∅
          [data_cell "td" "player" [anchor "/en/players/XYZ/" "Nobody"]];
        Element "tr" ∅
          [data_cell "td" "player" [NavigableString "No link"]]]].

(** Rows directly under the table element. *)
Definition table_without_body : Tag :=
  Element "table" ∅
    [Element "tr" ∅
       [data_cell "td" "player" [anchor "/en/players/e46012d4/Kevin" "Kevin"];
        data_cell "td" "team" [anchor "/en/squads/b8fd03ef/City" "City"]]].

(** * Properties *)

(** ** Columns and positions *)

Lemma has_column_true df name : has_column df name = true <-> name ∈ columns df.
Proof. unfold has_column. apply bool_decide_eq_true. Qed.

Lemma has_column_false df name : has_column df name = false <-> name ∉ columns df.
Proof. unfold has_column. apply bool_decide_eq_false. Qed.

Lemma positions_from_spec name cols i j :
  j ∈ positions_from i name cols <-> i <= j ∧ cols !! (j - i) = Some name.
Proof.
  revert i. induction cols as [|c cols IH]; intros i; simpl.
  - split; [intros H; inversion H | intros [_ H]; discriminate].
  - destruct (decide (c = name)) as [->|Hne].
    + rewrite elem_of_cons, IH. split.
      * intros [->|[Hle Hl]].
        -- split; [lia|]. by replace (i - i) with 0 by lia.
        -- split; [lia|]. by replace (j - i) with (S (j - S i)) by lia.
      * intros [Hle Hl]. destruct (decide (j = i)) as [->|Hji]; [by left|right].
        split; [lia|]. by replace (j - i) with (S (j - S i)) in Hl by lia.
    + rewrite IH. split.
      * intros [Hle Hl]. split; [lia|].
        by replace (j - i) with (S (j - S i)) by lia.
      * intros [Hle Hl]. destruct (decide (j = i)) as [->|Hji].
        -- replace (i - i) with 0 in Hl by lia. simpl in Hl. congruence.
        -- split; [lia|]. by replace (j - i) with (S (j - S i)) in Hl by lia.
Qed.

Lemma positions_spec name cols j :
  j ∈ positions name cols <-> cols !! j = Some name.
Proof.
  unfold positions. rewrite positions_from_spec.
  replace (j - 0) with j by lia. split; [by intros [_ ?] | intros; split; [lia|done]].
Qed.

Lemma positions_nil name cols : positions name cols = [] <-> name ∉ cols.
Proof.
  split.
  - intros Hnil Hin. apply list_elem_of_lookup in Hin as [j Hj].
    apply positions_spec in Hj. rewrite Hnil in Hj. inversion Hj.
  - intros Hnot. destruct (positions name cols) as [|j l] eqn:E; [done|].
    exfalso. apply Hnot. assert (Hj : j ∈ positions name cols) by (rewrite E; left).
    apply positions_spec in Hj. eapply list_elem_of_lookup_2; eauto.
Qed.

Lemma loc_columns_labels df labels c :
  c ∈ columns (loc_columns df labels) -> c ∈ labels.
Proof.
  unfold loc_columns; simpl. intros Hc.
  apply list_elem_of_fmap in Hc as (i & -> & Hi).
  apply list_elem_of_bind in Hi as (l & Hi & Hl).
  apply positions_spec in Hi. by rewrite Hi.
Qed.

Lemma remove_duplicate_columns_clean df :
  Forall (fun c => contains "_duplicate" c = false)
         (columns (remove_duplicate_columns df)).
Proof.
  apply Forall_forall. intros c Hc. unfold remove_duplicate_columns in Hc.
  apply loc_columns_labels in Hc. by apply list_elem_of_filter in Hc as [? _].
Qed.

(** ** Merge Key Resolver *)

(** C5: for kind team the resolver returns the team-identifier column
    alone when present, else the team-name column alone when present, else
    nothing; for kind player it returns whichever of the player-identifier
    and team-identifier columns are present, in that order, and only when
    neither is present whichever of the player-name and team-name columns
    are present.  A team table with both an identifier and a name column
    yields the identifier column only. *)
Theorem get_merge_keys_spec (df : DataFrame) :
  get_merge_keys df "team" = spec_team_keys df ∧
  get_merge_keys df "player" = spec_player_keys df ∧
  ("Team ID" ∈ columns df -> "Squad" ∈ columns df ->
   get_merge_keys df "team" = ["Team ID"]).
Proof.
  unfold get_merge_keys, spec_team_keys, spec_player_keys, present, has_column.
  split; [|split].
  - simpl. repeat case_bool_decide; repeat case_decide; done.
  - simpl. rewrite !filter_cons, filter_nil.
    repeat case_bool_decide; repeat case_decide; done.
  - intros Hid _. simpl. by rewrite bool_decide_eq_true_2.
Qed.

Lemma get_merge_keys_spec_witness :
  get_merge_keys (mkDF ["Squad"; "Team ID"; "Goals"] [[CStr "Arsenal"; CStr "18bb7c10"; CNum 88]])
                 "team" = ["Team ID"].
Proof.
  apply (get_merge_keys_spec
           (mkDF ["Squad"; "Team ID"; "Goals"] [[CStr "Arsenal"; CStr "18bb7c10"; CNum 88]]));
    simpl; set_solver.
Defined.

(** ** Finalization *)

(** C8: after the step of the driver that strips the merge-artifact
    columns, none of the three consolidated tables has a column whose
    name contains the marker "_duplicate". *)
Theorem strip_duplicate_columns_clean (c : Consolidated) :
  let c' := strip_duplicate_columns c in
  Forall (fun n => contains "_duplicate" n = false) (columns (teaminfo_for_df c')) ∧
  Forall (fun n => contains "_duplicate" n = false) (columns (teaminfo_against_df c')) ∧
  Forall (fun n => contains "_duplicate" n = false) (columns (playerinfo_df c')).
Proof.
  simpl. repeat split; apply remove_duplicate_columns_clean.
Qed.

(** ** Safe Merger: degenerate cases *)

Lemma existing_keys_nil left right keys :
  filter (fun k => has_column left k = true ∧ has_column right k = true) keys = []
  <-> no_shared_key left right keys.
Proof.
  unfold no_shared_key. induction keys as [|k keys IH].
  - split; [constructor | done].
  - rewrite filter_cons, Forall_cons, <- IH. clear IH.
    destruct (decide _) as [H|H]; rewrite !has_column_true in H.
    + split; [done | by intros [? _]].
    + split; [by intros -> | by intros [_ ?]].
Qed.

(** C3: the degenerate cases, in the order in which the specification
    lists them.  An empty accumulator gives the new table; otherwise an
    empty new table gives the accumulator, with its rows and columns;
    otherwise an empty key list, or a key list of which no column is
    present in both tables, gives the accumulator, the new table's data
    being dropped without a warning. *)
Theorem safe_merge_degenerate (left right : DataFrame) (keys : list string)
    (suffixes : string * string) :
  (empty left = true ->
   safe_merge left right keys suffixes = Ok (right, [])) ∧
  (empty left = false -> empty right = true ->
   safe_merge left right keys suffixes = Ok (left, [])) ∧
  (empty left = false -> empty right = false -> no_shared_key left right keys ->
   safe_merge left right keys suffixes = Ok (left, [])).
Proof.
  unfold safe_merge. repeat split.
  - by intros ->.
  - by intros -> ->.
  - intros -> -> Hk. destruct keys as [|k keys]; [done|].
    apply existing_keys_nil in Hk. by rewrite Hk.
Qed.

Lemma safe_merge_degenerate_witness :
  safe_merge empty_frame accumulator_small [] default_suffixes
    = Ok (accumulator_small, []) ∧
  safe_merge accumulator_small (mkDF ["Team ID"; "Shots"] []) ["Team ID"] default_suffixes
    = Ok (accumulator_small, []) ∧
  safe_merge accumulator_small (mkDF ["Shots"] [[CNum 10]]) ["Team ID"] default_suffixes
    = Ok (accumulator_small, []).
Proof.
  split; [|split].
  - destruct (safe_merge_degenerate empty_frame accumulator_small []
                default_suffixes) as (H & _ & _).
    apply H. reflexivity.
  - destruct (safe_merge_degenerate accumulator_small (mkDF ["Team ID"; "Shots"] [])
                ["Team ID"] default_suffixes) as (_ & H & _).
    apply H; reflexivity.
  - destruct (safe_merge_degenerate accumulator_small (mkDF ["Shots"] [[CNum 10]])
                ["Team ID"] default_suffixes) as (_ & _ & H).
    apply H; try reflexivity.
    repeat constructor. intros [_ H']. by apply list_elem_of_singleton in H'.
Defined.

(** ** Safe Merger: the fan-out warning *)

Example fanout_crosses_both : fanout 200 350 = true.
Proof. reflexivity. Qed.

Example fanout_below_absolute : fanout 50 80 = false.
Proof. reflexivity. Qed.

Example fanout_warning_text :
  fanout_warning 200 350 = "Warning: Merge increased rows from 200 to 350".
Proof. reflexivity. Qed.


(** C4: after a merge that is not degenerate, the warning is printed
    exactly when the merged row count exceeds both 1.5 times the row count
    of the accumulator and 100; the merged table is returned either way. *)
Theorem safe_merge_fanout_warning (left right : DataFrame) (keys : list string)
    (suffixes : string * string) (merged : DataFrame) :
  let existing_keys :=
    filter (fun k => has_column left k = true ∧ has_column right k = true) keys in
  empty left = false -> empty right = false -> existing_keys ≠ [] ->
  merge_outer left (drop_duplicates right existing_keys) existing_keys suffixes
    = Ok merged ->
  exists out,
    safe_merge left right keys suffixes = Ok (merged, out) ∧
    (out = [] ∨ out = [fanout_warning (len left) (len merged)]) ∧
    (out ≠ [] <-> 3 * len left < 2 * len merged ∧ 100 < len merged).
Proof.
  intros ek Hl Hr Hek Hm. unfold safe_merge. rewrite Hl, Hr.
  destruct keys as [|k keys]; [done|]. fold ek.
  destruct ek as [|k' ek'] eqn:E; [done|]. rewrite Hm. simpl.
  unfold fanout. destruct (Nat.ltb_spec (3 * len left) (2 * len merged)) as [H1|H1];
    destruct (Nat.ltb_spec 100 (len merged)) as [H2|H2]; simpl;
    eexists; (split; [reflexivity|]); (split; [auto|]);
    split; try done; intros [? ?]; lia.
Qed.

Lemma safe_merge_fanout_warning_witness :
  exists out,
    safe_merge accumulator_small hundred_teams ["Team ID"] default_suffixes
      = Ok (merged_hundred, out) ∧
    (out = [] ∨ out = [fanout_warning (len accumulator_small) (len merged_hundred)]) ∧
    (out ≠ [] <-> 3 * len accumulator_small < 2 * len merged_hundred
                  ∧ 100 < len merged_hundred).
Proof.
  apply (safe_merge_fanout_warning accumulator_small hundred_teams ["Team ID"]
           default_suffixes merged_hundred); vm_compute; congruence.
Defined.

(** ** ID Extractor *)

Lemma re_search_empty collection : re_search collection "" = None.
Proof. reflexivity. Qed.

Lemma truthy_false_search collection (o : option string) :
  truthy o = false -> re_search collection (default "" o) = None.
Proof. destruct o as [[|a s]|]; simpl; intros H; try done. Qed.

Lemma record_id_skip collection id_map td :
  cell_link_id collection (Some td) = None ->
  record_id collection id_map td = Ok id_map.
Proof.
  unfold cell_link_id, record_id. destruct (find ["a"] [] td) as [link|]; [|done].
  intros Hs. destruct (truthy (tag_get link "href")) eqn:Ht; [|done].
  unfold tag_getitem. destruct (tag_get link "href") as [href|]; [|done].
  simpl in Hs. unfold mbind, result_bind. by rewrite Hs.
Qed.

Lemma record_id_cases collection id_map td :
  record_id collection id_map td = Ok id_map ∨
  exists link id,
    find ["a"] [] td = Some link ∧
    re_search collection (default "" (tag_get link "href")) = Some id ∧
    record_id collection id_map td = Ok (<[strip (tag_text link) := id]> id_map).
Proof.
  unfold record_id. destruct (find ["a"] [] td) as [link|]; [|by left].
  destruct (truthy (tag_get link "href")) eqn:Ht; [|by left].
  unfold tag_getitem. destruct (tag_get link "href") as [href|] eqn:Hg; [|done].
  unfold mbind, result_bind.
  destruct (re_search collection href) as [id|] eqn:Hs; [|by left].
  right. exists link, id. rewrite Hg. split; [done|]. split; [exact Hs|done].
Qed.

(** The loop never raises, and every entry of the map it returns was
    either there before or comes from a cell with a matching link. *)
Lemma record_ids_fold collection cells : forall id_map,
  exists m, foldM (record_id collection) id_map cells = Ok m ∧
    forall name id, m !! name = Some id ->
      id_map !! name = Some id ∨
      exists cell link, cell ∈ cells ∧ find ["a"] [] cell = Some link ∧
        re_search collection (default "" (tag_get link "href")) = Some id ∧
        name = strip (tag_text link).
Proof.
  induction cells as [|td cells IH]; intros id_map; simpl.
  - exists id_map. split; [done|]. by left.
  - destruct (record_id_cases collection id_map td) as [->|(link & id & Hf & Hs & ->)];
      simpl.
    + destruct (IH id_map) as (m & -> & Hm). exists m. split; [done|].
      intros name id' Hl. destruct (Hm _ _ Hl) as [?|(cell & lk & ? & ? & ? & ?)];
        [by left|right]. exists cell, lk. repeat split; try done. by right.
    + destruct (IH (<[strip (tag_text link) := id]> id_map)) as (m & -> & Hm).
      exists m. split; [done|]. intros name id' Hl.
      destruct (Hm _ _ Hl) as [Hi|(cell & lk & ? & ? & ? & ?)].
      * destruct (decide (strip (tag_text link) = name)) as [<-|Hne].
        -- rewrite lookup_insert_eq in Hi. injection Hi as <-.
           right. exists td, link. repeat split; try done. by left.
        -- rewrite lookup_insert_ne in Hi by done. by left.
      * right. exists cell, lk. repeat split; try done. by right.
Qed.

Lemma extract_ids_from_soup_unfold table id_type :
  extract_ids_from_soup (Some table) id_type
  = foldM (record_id (collection_of id_type)) ∅ (relevant_cells id_type table).
Proof.
  unfold extract_ids_from_soup, collection_of, relevant_cells.
  destruct (decide (id_type = "player")) as [->|]; reflexivity.
Qed.

(** C7: the extractor returns the empty mapping for an absent table and
    for a table none of whose relevant cells has a first link matching the
    href pattern; it never raises, and a cell without a matching link
    leaves no entry. *)
Theorem extract_ids_from_soup_skips (id_type : string) :
  extract_ids_from_soup None id_type = Ok ∅ ∧
  (forall table, exists m,
      extract_ids_from_soup (Some table) id_type = Ok m ∧
      forall name id, m !! name = Some id ->
        exists cell link,
          cell ∈ relevant_cells id_type table ∧ find ["a"] [] cell = Some link ∧
          re_search (collection_of id_type) (default "" (tag_get link "href")) = Some id ∧
          name = strip (tag_text link)) ∧
  (forall table,
      Forall (fun cell => cell_link_id (collection_of id_type) (Some cell) = None)
             (relevant_cells id_type table) ->
      extract_ids_from_soup (Some table) id_type = Ok ∅).
Proof.
  split; [done|]. split.
  - intros table. rewrite extract_ids_from_soup_unfold.
    destruct (record_ids_fold (collection_of id_type)
                (relevant_cells id_type table) ∅) as (m & Hm & Hent).
    exists m. split; [done|]. intros name id Hl.
    destruct (Hent _ _ Hl) as [He|?]; [|done]. by rewrite lookup_empty in He.
  - intros table Hall. rewrite extract_ids_from_soup_unfold.
    induction Hall as [|td cells Hskip _ IH]; [done|].
    simpl. by rewrite (record_id_skip _ _ _ Hskip).
Qed.

Lemma extract_ids_from_soup_skips_witness :
  extract_ids_from_soup (Some table_without_ids) "player" = Ok ∅.
Proof.
  destruct (extract_ids_from_soup_skips "player") as (_ & _ & H).
  apply H. vm_compute. repeat constructor.
Defined.

(** ** Row Enricher with an empty association list *)

Lemma tag_matches_name names d :
  tag_matches names [] d = true <-> exists n, tag_name d = Some n ∧ n ∈ names.
Proof.
  destruct d as [n attrs cs|s]; simpl.
  - rewrite andb_true_r, bool_decide_eq_true. split; [by exists n|].
    by intros (n' & [= <-] & ?).
  - split; [done | by intros (n & ? & _)].
Qed.

Lemma find_None_iff names table :
  find names [] table = None
  <-> Forall (fun d => forall n, tag_name d = Some n -> n ∉ names) (descendants table).
Proof.
  unfold find, find_all. rewrite head_None.
  induction (descendants table) as [|d ds IH]; [by split; [constructor|]|].
  rewrite filter_cons, Forall_cons, <- IH. clear IH.
  destruct (decide (tag_matches names [] d = true)) as [Hd|Hd];
    rewrite tag_matches_name in Hd.
  - split; [done|]. intros [Hn _]. destruct Hd as (n & Hd & Hin). by destruct (Hn n).
  - split; [|by intros [_ ?]]. intros ->. split; [|done].
    intros n Hn Hin. apply Hd. by exists n.
Qed.

(** C10: for an absent table and for a table without a body element the
    association list is empty, and with an empty association list the
    Row Enricher returns the player table as it is: no column is added. *)
Theorem add_team_id_without_associations (df : DataFrame) (soup_table : option Tag) :
  (soup_table = None ∨ exists table, soup_table = Some table ∧ no_tbody table) ->
  extract_player_team_ids_from_soup soup_table = [] ∧
  add_team_id_to_player_df df (extract_player_team_ids_from_soup soup_table) = Ok df ∧
  (forall rows_data, rows_data = [] -> add_team_id_to_player_df df rows_data = Ok df).
Proof.
  intros Hsoup.
  assert (Hnil : extract_player_team_ids_from_soup soup_table = []).
  { destruct Hsoup as [->|(table & -> & Hno)]; [done|].
    unfold extract_player_team_ids_from_soup.
    assert (Hf : find ["tbody"] [] table = None); [|by rewrite Hf].
    apply find_None_iff. eapply Forall_impl; [exact Hno|].
    intros d Hd n Hn Hin. apply list_elem_of_singleton in Hin as ->. done. }
  rewrite Hnil. repeat split. by intros ? ->.
Qed.

Lemma add_team_id_without_associations_witness :
  extract_player_team_ids_from_soup (Some table_without_body) = [] ∧
  add_team_id_to_player_df players_abc
    (extract_player_team_ids_from_soup (Some table_without_body)) = Ok players_abc ∧
  (forall rows_data, rows_data = [] ->
     add_team_id_to_player_df players_abc rows_data = Ok players_abc).
Proof.
  apply (add_team_id_without_associations players_abc (Some table_without_body)).
  right. exists table_without_body. split; [reflexivity|].
  vm_compute. repeat constructor; discriminate.
Defined.

(** ** Column assignment *)

Lemma ensure_valid_index_same df vals :
  length vals = len df -> ensure_valid_index df vals = df.
Proof.
  unfold ensure_valid_index, len. destruct (values df) as [|r rs]; [|done].
  by destruct vals.
Qed.

Lemma set_cells_lookup cols name v r j :
  cols !! j = Some name -> length r = length cols ->
  cell_at (set_cells cols name v r) j = v.
Proof.
  intros Hc Hlen. unfold cell_at, set_cells.
  assert (Hj : j < length r) by (rewrite Hlen; by eapply lookup_lt_Some).
  apply lookup_lt_is_Some_2 in Hj as [x Hx].
  rewrite lookup_zip_with, Hc. simpl. rewrite Hx. simpl.
  by rewrite decide_True.
Qed.

Lemma column_set_cells cols name j : forall vals rows,
  cols !! j = Some name ->
  Forall (fun r => length r = length cols) rows ->
  length vals = length rows ->
  map (fun r => cell_at r j) (zip_with (set_cells cols name) vals rows) = vals.
Proof.
  induction vals as [|v vals IH]; intros [|r rows] Hc Hwf Hlen; try done.
  simpl in *. apply Forall_cons in Hwf as [Hr Hwf].
  rewrite set_cells_lookup by done. f_equal. apply IH; auto.
Qed.

Lemma column_append n : forall (vals : list cell) (rows : list row),
  Forall (fun r => length r = n) rows ->
  length vals = length rows ->
  map (fun r => cell_at r n) (zip_with (fun v r => r ++ [v]) vals rows) = vals.
Proof.
  induction vals as [|v vals IH]; intros [|r rows] Hwf Hlen; try done.
  simpl in *. apply Forall_cons in Hwf as [Hr Hwf].
  unfold cell_at at 1. rewrite lookup_app_r by lia.
  replace (n - length r) with 0 by lia. simpl. f_equal. apply IH; auto.
Qed.

Lemma lookup_snoc_fresh (cols : list string) name j :
  name ∉ cols -> (cols ++ [name]) !! j = Some name -> j = length cols.
Proof.
  intros Hnot Hj. destruct (decide (j < length cols)) as [Hlt|Hge].
  - rewrite lookup_app_l in Hj by done. exfalso. apply Hnot.
    by eapply list_elem_of_lookup_2.
  - apply lookup_lt_Some in Hj. rewrite length_app in Hj. simpl in Hj. lia.
Qed.

(** *** Several columns with the assigned label *)

Lemma set_cells_across_length cols name : forall vals (r : list cell),
  length r = length cols -> length (set_cells_across cols name vals r) = length cols.
Proof.
  induction cols as [|c cols IH]; intros vals [|x r] Hlen; simpl in *; try done.
  destruct (decide (c = name)); [destruct vals|]; simpl; rewrite IH; lia.
Qed.

Lemma set_cells_across_other cols name : forall vals (r : list cell) j c,
  cols !! j = Some c -> c ≠ name ->
  cell_at (set_cells_across cols name vals r) j = cell_at r j.
Proof.
  induction cols as [|c0 cols IH]; intros vals [|x r] j c Hj Hne; simpl in *; try done.
  destruct j as [|j]; simpl in Hj.
  - injection Hj as ->. rewrite decide_False by done. done.
  - destruct (decide (c0 = name)); [destruct vals|]; apply (IH _ _ _ _ Hj Hne).
Qed.

Lemma set_cells_across_lookup cols name : forall vals (r : list cell) b i j v,
  length r = length cols ->
  positions_from b name cols !! i = Some (b + j) -> vals !! i = Some v ->
  cell_at (set_cells_across cols name vals r) j = v.
Proof.
  induction cols as [|c cols IH]; intros vals [|x r] b i j v Hlen Hpos Hv;
    simpl in *; try done.
  assert (Hnext : forall i', positions_from (S b) name cols !! i' = Some (b + j) ->
                             exists j', j = S j').
  { intros i' Hi'. apply list_elem_of_lookup_2, positions_from_spec in Hi' as [Hle _].
    exists (j - 1). lia. }
  destruct (decide (c = name)) as [->|Hne].
  - destruct i as [|i]; simpl in Hpos.
    + assert (j = 0) as -> by (injection Hpos; lia).
      destruct vals as [|v0 vals]; [done|]. simpl in Hv. by injection Hv as ->.
    + destruct (Hnext i Hpos) as [j' ->].
      destruct vals as [|v0 vals]; [done|]. simpl in Hv.
      change (cell_at (set_cells_across cols name vals r) j' = v).
      apply (IH vals r (S b) i j' v); [lia| |done].
      by replace (S b + j') with (b + S j') by lia.
  - destruct (Hnext i Hpos) as [j' ->].
    change (cell_at (set_cells_across cols name vals r) j' = v).
    apply (IH vals r (S b) i j' v); [lia| |done].
    by replace (S b + j') with (b + S j') by lia.
Qed.

Lemma map_const_replicate {A B} (v : B) (l : list A) :
  map (fun _ => v) l = replicate (length l) v.
Proof. induction l as [|a l IH]; simpl; [done|by rewrite IH]. Qed.

Lemma setitem_across df name vals :
  across df name vals ->
  setitem df name vals
  = Ok (mkDF (columns df) (map (set_cells_across (columns df) name vals) (values df))).
Proof. intros H. unfold setitem. by rewrite decide_True. Qed.

Lemma setitem_plain df name vals :
  ¬ across df name vals -> length vals = len df ->
  setitem df name vals
  = if has_column df name then
      Ok (mkDF (columns df) (zip_with (set_cells (columns df) name) vals (values df)))
    else
      Ok (mkDF (columns df ++ [name]) (zip_with (fun v r => r ++ [v]) vals (values df))).
Proof.
  intros H Hlen. unfold setitem. rewrite decide_False by done.
  rewrite ensure_valid_index_same by done. by rewrite decide_True.
Qed.

(** Assigning a list of the right length never fails. *)
Lemma setitem_returns df name vals :
  length vals = len df -> exists df', setitem df name vals = Ok df'.
Proof.
  intros Hlen. destruct (decide (across df name vals)) as [Ha|Ha].
  - rewrite setitem_across by done. by eexists.
  - rewrite setitem_plain by done. destruct (has_column df name); by eexists.
Qed.

(** Outside the one-column-at-a-time branch, every column with the
    assigned label holds the list afterwards, and the row count is
    unchanged. *)
Lemma setitem_spec df name vals :
  wf df -> length vals = len df -> ¬ across df name vals ->
  exists df',
    setitem df name vals = Ok df' ∧ len df' = len df ∧ name ∈ columns df' ∧
    forall j, columns df' !! j = Some name -> column_at df' j = vals.
Proof.
  intros Hwf Hlen Ha. rewrite setitem_plain by done.
  destruct (has_column df name) eqn:Hc.
  - apply has_column_true in Hc. eexists. split; [reflexivity|].
    unfold len, column_at; simpl. split; [|split; [done|]].
    + rewrite length_zip_with. unfold len in Hlen. lia.
    + intros j Hj. by apply column_set_cells.
  - apply has_column_false in Hc. eexists. split; [reflexivity|].
    unfold len, column_at; simpl. split; [|split].
    + rewrite length_zip_with. unfold len in Hlen. lia.
    + apply elem_of_app. right. by left.
    + intros j Hj. apply lookup_snoc_fresh in Hj as ->; [|done].
      by apply column_append.
Qed.

(** What an assignment of one value per row does to the table. *)
Lemma setitem_assigned df name vals :
  wf df -> length vals = len df ->
  exists df', setitem df name vals = Ok df' ∧ column_assigned df name vals df'.
Proof.
  intros Hwf Hlen. destruct (decide (across df name vals)) as [Ha|Ha].
  - rewrite setitem_across by done. eexists. split; [reflexivity|].
    destruct Ha as [Hk Hkv]. unfold column_assigned. cbn [columns values].
    split; [|split; [|split]].
    + unfold len. simpl. by rewrite length_map.
    + destruct (positions name (columns df)) as [|j0 l] eqn:Hpos; [simpl in Hk; lia|].
      apply list_elem_of_lookup. exists j0. apply positions_spec. rewrite Hpos. by left.
    + intros Hno. destruct Hno. by split.
    + intros _ _ i j v Hi Hv. unfold column_at, len; simpl.
      rewrite map_map, <- map_const_replicate.
      apply map_ext_in. intros r Hr%list_elem_of_In.
      apply (set_cells_across_lookup _ _ vals r 0 i j v); [|done|done].
      unfold wf in Hwf. rewrite Forall_forall in Hwf. by apply Hwf.
  - destruct (setitem_spec df name vals Hwf Hlen Ha) as (df' & Hset & Hl & Hin & Hcol).
    exists df'. split; [done|]. unfold column_assigned.
    split; [done|]. split; [done|]. split; [intros _; exact Hcol|].
    intros H1 H2. destruct Ha. by split.
Qed.

(** ** The identifier-keyed map *)

Lemma str_truthy_true s : str_truthy s = true <-> s ≠ "".
Proof. destruct s; simpl; split; done. Qed.

Lemma id_map_step_valid m pid tid :
  pid ≠ "" -> tid ≠ "" -> id_map_step m (Some pid, Some tid) = <[pid := tid]> m.
Proof.
  intros Hp Ht. apply str_truthy_true in Hp, Ht. simpl. by rewrite Hp, Ht.
Qed.

Lemma id_map_step_cases m r :
  id_map_step m r = m ∨
  exists pid tid, r = (Some pid, Some tid) ∧ pid ≠ "" ∧ tid ≠ "" ∧
                  id_map_step m r = <[pid := tid]> m.
Proof.
  destruct r as [[pid|] [tid|]]; simpl; rewrite ?andb_false_r; auto.
  destruct (str_truthy pid) eqn:Hp; destruct (str_truthy tid) eqn:Ht; simpl; auto.
  right. exists pid, tid. by rewrite <- !str_truthy_true.
Qed.

Lemma id_map_step_invalid m r pid :
  (forall tid, ¬ valid_pair [r] pid tid) -> id_map_step m r !! pid = m !! pid.
Proof.
  intros Hno. destruct (id_map_step_cases m r) as [->|(p & t & -> & Hp & Ht & ->)];
    [done|].
  destruct (decide (p = pid)) as [->|Hne]; [|by rewrite lookup_insert_ne].
  destruct (Hno t). split; [by left|done].
Qed.

Lemma valid_pair_cons r l pid tid :
  valid_pair (r :: l) pid tid <-> valid_pair [r] pid tid ∨ valid_pair l pid tid.
Proof.
  unfold valid_pair. rewrite elem_of_cons, list_elem_of_singleton. tauto.
Qed.

(** An entry of the dict is the entry of a valid pair of the list. *)
Lemma id_map_fold_sound l : forall m pid tid,
  foldl id_map_step m l !! pid = Some tid ->
  m !! pid = Some tid ∨ valid_pair l pid tid.
Proof.
  induction l as [|r l IH]; intros m pid tid; simpl; [by left|].
  intros H. apply IH in H as [H|H]; [|right; apply valid_pair_cons; by right].
  destruct (id_map_step_cases m r) as [Hs|(p & t & -> & Hp & Ht & Hs)];
    rewrite Hs in H; [by left|].
  destruct (decide (p = pid)) as [->|Hne].
  - rewrite lookup_insert_eq in H. injection H as <-.
    right. split; [by left|done].
  - rewrite lookup_insert_ne in H by done. by left.
Qed.

(** Pairs that are not valid for [pid] leave its entry alone. *)
Lemma id_map_fold_other l : forall m pid,
  (forall tid, ¬ valid_pair l pid tid) ->
  foldl id_map_step m l !! pid = m !! pid.
Proof.
  induction l as [|r l IH]; intros m pid Hno; simpl; [done|].
  rewrite IH.
  - apply id_map_step_invalid. intros tid Hv. apply (Hno tid).
    apply valid_pair_cons. by left.
  - intros tid Hv. apply (Hno tid). apply valid_pair_cons. by right.
Qed.

(** The last valid pair for an identifier decides its entry. *)
Lemma id_map_fold_last pre post pid tid m :
  pid ≠ "" -> tid ≠ "" -> (forall t, ¬ valid_pair post pid t) ->
  foldl id_map_step m (pre ++ (Some pid, Some tid) :: post) !! pid = Some tid.
Proof.
  intros Hp Ht Hno. rewrite foldl_app. cbn [foldl].
  rewrite id_map_fold_other by done.
  rewrite id_map_step_valid by done. apply lookup_insert_eq.
Qed.

Lemma id_map_fold_keeps l : forall m pid,
  is_Some (m !! pid) -> is_Some (foldl id_map_step m l !! pid).
Proof.
  induction l as [|r l IH]; intros m pid Hm; simpl; [done|].
  apply IH. destruct (id_map_step_cases m r) as [->|(p & t & _ & _ & _ & ->)]; [done|].
  rewrite lookup_insert. case_decide; [by eexists | done].
Qed.

Lemma id_map_fold_complete l : forall m pid tid,
  valid_pair l pid tid -> is_Some (foldl id_map_step m l !! pid).
Proof.
  induction l as [|r l IH]; intros m pid tid Hv.
  - destruct Hv as [Hin _]. inversion Hin.
  - apply valid_pair_cons in Hv as [(Hin & Hp & Ht)|Hv]; simpl; [|by eapply IH].
    apply list_elem_of_singleton in Hin as <-.
    apply id_map_fold_keeps. rewrite id_map_step_valid by done.
    rewrite lookup_insert_eq. by eexists.
Qed.

Lemma id_map_of_None l pid :
  id_map_of l !! pid = None <-> forall tid, ¬ valid_pair l pid tid.
Proof.
  unfold id_map_of. split.
  - intros Hnone tid Hv. eapply id_map_fold_complete in Hv as [t Ht].
    rewrite Hnone in Ht. discriminate Ht.
  - intros Hno. rewrite id_map_fold_other by done. apply lookup_empty.
Qed.

Lemma id_map_of_Some l pid tid :
  id_map_of l !! pid = Some tid -> valid_pair l pid tid.
Proof.
  intros H. apply id_map_fold_sound in H as [H|H]; [|done].
  by rewrite lookup_empty in H.
Qed.

(** Entries without a player identifier do not contribute to the dict. *)
Lemma id_map_of_valid_rows l : id_map_of (valid_rows_of l) = id_map_of l.
Proof.
  unfold id_map_of, valid_rows_of. generalize (∅ : gmap string string).
  induction l as [|[pid tid] l IH]; intros m; [done|].
  rewrite filter_cons. destruct (decide (is_Some (fst (pid, tid)))) as [Hs|Hn]; simpl.
  - apply IH.
  - destruct pid as [p|]; [destruct Hn; by eexists|]. simpl. apply IH.
Qed.

(** ** Row Enricher *)

Lemma add_team_id_positional df rows_data :
  wf df -> rows_data ≠ [] -> length (valid_rows_of rows_data) = len df ->
  exists df',
    add_team_id_to_player_df df rows_data = Ok df' ∧
    column_assigned df "Team ID"
      (map (fun r => opt_cell (snd r)) (valid_rows_of rows_data)) df'.
Proof.
  intros Hwf Hne Hlen. unfold add_team_id_to_player_df.
  destruct rows_data as [|r0 rows]; [done|].
  rewrite decide_False by (intros H; by apply H).
  apply setitem_assigned; [done|]. by rewrite length_map.
Qed.

Lemma add_team_id_fallback df rows_data p :
  wf df -> rows_data ≠ [] -> length (valid_rows_of rows_data) ≠ len df ->
  positions "Player ID" (columns df) = [p] ->
  exists df',
    add_team_id_to_player_df df rows_data = Ok df' ∧
    column_assigned df "Team ID"
      (map (map_cell (id_map_of rows_data)) (column_at df p)) df'.
Proof.
  intros Hwf Hne Hlen Hp. unfold add_team_id_to_player_df.
  destruct rows_data as [|r0 rows]; [done|].
  rewrite decide_True by done.
  assert (Hin : has_column df "Player ID" = true).
  { apply has_column_true. apply list_elem_of_lookup. exists p.
    apply positions_spec. rewrite Hp. by left. }
  rewrite Hin. unfold getitem. rewrite Hp. unfold mbind, result_bind.
  rewrite id_map_of_valid_rows.
  apply setitem_assigned; [done|]. unfold column_at, len. by rewrite !length_map.
Qed.

Lemma add_team_id_no_player_id df rows_data :
  length (valid_rows_of rows_data) ≠ len df -> "Player ID" ∉ columns df ->
  add_team_id_to_player_df df rows_data = Ok df.
Proof.
  intros Hlen Hno. unfold add_team_id_to_player_df.
  destruct rows_data as [|r0 rows]; [done|].
  rewrite decide_True by done.
  apply has_column_false in Hno. by rewrite Hno.
Qed.


Lemma players_abc_wf : wf players_abc.
Proof. repeat constructor. Qed.

Lemma two_team_columns_wf : wf two_team_columns.
Proof. repeat constructor. Qed.

(** The first enrichment step produces the Player ID column of the
    example table from the names. *)
Example add_ids_players_abc :
  add_ids_to_dataframe (mkDF ["Player"] [[CStr "A"]; [CStr "B"]; [CStr "C"]])
    {["A" := "a1"; "B" := "b2"; "C" := "c3"]} "Player" "Player ID"
  = Ok players_abc.
Proof. vm_compute. reflexivity. Qed.



(** C9, as amended: on the identifier-keyed path, an identifier that
    occurs in several valid pairs keeps the team identifier of the last of
    them.  For a table with one Player ID column, and not with several
    columns labelled Team ID that are as many as its rows, every row with
    that player identifier then holds this team identifier under
    Team ID. *)
Theorem add_team_id_fallback_last_wins (df : DataFrame) (pre post : list assoc)
    (pid tid : string) (p : nat) :
  let rows_data := pre ++ (Some pid, Some tid) :: post in
  let team_columns := length (positions "Team ID" (columns df)) in
  wf df -> pid ≠ "" -> tid ≠ "" ->
  (forall t, ¬ valid_pair post pid t) ->
  length (valid_rows_of rows_data) ≠ len df ->
  positions "Player ID" (columns df) = [p] ->
  ¬ (1 < team_columns ∧ team_columns = len df) ->
  id_map_of (valid_rows_of rows_data) !! pid = Some tid ∧
  exists df',
    add_team_id_to_player_df df rows_data = Ok df' ∧ len df' = len df ∧
    "Team ID" ∈ columns df' ∧
    forall i j r r',
      values df !! i = Some r -> cell_at r p = CStr pid ->
      values df' !! i = Some r' -> columns df' !! j = Some "Team ID" ->
      cell_at r' j = CStr tid.
Proof.
  intros rows_data team_columns Hwf Hp Ht Hpost Hlen Hpos Hteam.
  assert (Hm : id_map_of rows_data !! pid = Some tid)
    by (by apply id_map_fold_last).
  split; [by rewrite id_map_of_valid_rows|].
  destruct (add_team_id_fallback df rows_data p)
    as (df' & Hadd & Hl & Hin & Hcol & _); try done.
  { subst rows_data. by destruct pre. }
  exists df'. repeat split; try done.
  intros i j r r' Hr Hcell Hr' Hj.
  assert (Hplain : ¬ (1 < length (positions "Team ID" (columns df)) ∧
                      length (positions "Team ID" (columns df))
                      = length (map (map_cell (id_map_of rows_data)) (column_at df p)))).
  { unfold column_at. rewrite !length_map. exact Hteam. }
  specialize (Hcol Hplain j Hj). unfold column_at in Hcol.
  apply (f_equal (fun l => l !! i)) in Hcol.
  rewrite !list_lookup_fmap, Hr, Hr' in Hcol. simpl in Hcol.
  injection Hcol as ->. rewrite Hcell. simpl. by rewrite Hm.
Qed.

Lemma add_team_id_fallback_last_wins_witness :
  id_map_of (valid_rows_of assoc_transfer) !! "a1" = Some "y" ∧
  exists df',
    add_team_id_to_player_df players_abc assoc_transfer = Ok df' ∧
    len df' = len players_abc ∧ "Team ID" ∈ columns df' ∧
    forall i j r r',
      values players_abc !! i = Some r -> cell_at r 1 = CStr "a1" ->
      values df' !! i = Some r' -> columns df' !! j = Some "Team ID" ->
      cell_at r' j = CStr "y".
Proof.
  apply (add_team_id_fallback_last_wins players_abc
           [(Some "a1", Some "x")] [(Some "b2", Some "z"); (Some "d4", Some "w")]
           "a1" "y" 1).
  - exact players_abc_wf.
  - discriminate.
  - discriminate.
  - intros t (Hin & _). 
    repeat (apply elem_of_cons in Hin as [Hin|Hin]; [discriminate Hin|]).
    inversion Hin.
  - vm_compute. lia.
  - reflexivity.
  - vm_compute. lia.
Defined.

(** C9 as stated fails for a table with two columns labelled Team ID and
    two rows.  Player [a1] occurs for the teams [x] and [y], in this
    order, and the map keeps [y]; the list assigned is [y] for the first
    row and [z] for the second, and the row of [a1] receives both values
    side by side: its second Team ID cell holds [z]. *)
Lemma add_team_id_fallback_last_wins_counterexample :
  ¬ spec_last_seen two_team_columns assoc_transfer "a1" "y".
Proof.
  intros (df' & p & Hadd & Hp & Hall).
  vm_compute in Hadd. injection Hadd as <-.
  vm_compute in Hp. injection Hp as <-.
  specialize (Hall 0 2 [CStr "a1"; CNA; CNA] [CStr "a1"; CStr "y"; CStr "z"]
                   eq_refl eq_refl eq_refl eq_refl).
  discriminate Hall.
Qed.
(** ** Column Normalizer *)

Lemma new_col_name_levels col :
  2 <= length col ->
  new_col_name col = Ok (strip (spec_flat_name (group_label col) (sub_label col))).
Proof.
  destruct col as [|g [|s col]]; simpl; try lia. intros _.
  unfold new_col_name, spec_flat_name, group_label, sub_label. simpl.
  by destruct (contains "Unnamed" g).
Qed.

Lemma new_col_names_levels tuples :
  two_or_more_levels tuples ->
  mapM new_col_name tuples
  = Ok (map (fun col => strip (spec_flat_name (group_label col) (sub_label col))) tuples).
Proof.
  induction 1 as [|col tuples Hcol _ IH]; [done|].
  simpl. rewrite new_col_name_levels by done. simpl. by rewrite IH.
Qed.

Lemma two_level_two_or_more tuples : two_level tuples -> two_or_more_levels tuples.
Proof.
  unfold two_level, two_or_more_levels. intros H.
  eapply Forall_impl; [exact H|]. simpl. intros col Hc. lia.
Qed.

Lemma select_rows_columns df mask : columns (select_rows df mask) = columns df.
Proof. done. Qed.

(** The labels of whatever the function returns under a multi-level
    header are the new names. *)
Lemma flatten_columns where_rk tuples rows names df' :
  mapM new_col_name tuples = Ok names ->
  flatten_multiindex_columns where_rk (mkPF (MultiIndex tuples) rows) = Ok df' ->
  columns df' = names.
Proof.
  intros Hnames. unfold flatten_multiindex_columns. simpl. rewrite Hnames. simpl.
  destruct (has_column _ _); [|by intros [= <-]].
  destruct (positions "Rk" names) as [|i [|i' l]].
  - destruct (where_rk _); simpl; [by intros [= <-]|done].
  - by intros [= <-].
  - destruct (where_rk _); simpl; [by intros [= <-]|done].
Qed.




(** A plain header is left alone, repeated header row included; under a
    two-level header the repeated header row is dropped. *)
Example flatten_plain_keeps_header_row where_rk :
  flatten_multiindex_columns where_rk (of_frame plain_with_header_row)
  = Ok plain_with_header_row.
Proof. reflexivity. Qed.

Example flatten_shooting where_rk :
  flatten_multiindex_columns where_rk parsed_shooting
  = Ok (mkDF ["Rk"; "Player"; "Performance Gls"; "Per 90 Minutes Gls"]
             [[CStr "1"; CStr "A"; CNum 3; CNum 1];
              [CStr "2"; CStr "B"; CNum 0; CNum 0]]).
Proof. reflexivity. Qed.

(** A header of three levels is renamed from its first two levels. *)
Example flatten_three_levels where_rk :
  flatten_multiindex_columns where_rk
    (mkPF (MultiIndex [["Unnamed: 0_level_0"; "Squad"; "a"]; ["Performance"; "Gls"; "b"]])
          [[CStr "Arsenal"; CNum 88]])
  = Ok (mkDF ["Squad"; "Performance Gls"] [[CStr "Arsenal"; CNum 88]]).
Proof. reflexivity. Qed.

(** ** Safe Merger: removing duplicate keys *)

Section Dedup.
Variable key : list cell -> list cell.

Lemma dedup_rows_sublist rows : forall seen,
  sublist (dedup_rows key seen rows) rows.
Proof.
  induction rows as [|r rows IH]; intros seen; simpl; [constructor|].
  case_decide; [apply sublist_cons | apply sublist_skip]; apply IH.
Qed.

Lemma dedup_rows_elem rows : forall seen r,
  r ∈ dedup_rows key seen rows <->
  exists i, rows !! i = Some r ∧ (key r ∉ seen) ∧
            forall j r', j < i -> rows !! j = Some r' -> key r' ≠ key r.
Proof.
  induction rows as [|r0 rows IH]; intros seen r; simpl.
  - split; [intros H; inversion H | by intros (i & H & _)].
  - destruct (decide (key r0 ∈ seen)) as [Hin|Hnot].
    + rewrite IH. split.
      * intros (i & Hi & Hs & Hfirst). exists (S i). repeat split; try done.
        intros [|j] r' Hj Hr'; simpl in Hr'.
        -- injection Hr' as <-. congruence.
        -- apply (Hfirst j); [lia|done].
      * intros ([|i] & Hi & Hs & Hfirst); simpl in Hi.
        -- injection Hi as <-. done.
        -- exists i. repeat split; try done.
           intros j r' Hj Hr'. apply (Hfirst (S j)); [lia|done].
    + rewrite elem_of_cons, IH. split.
      * intros [->|(i & Hi & Hs & Hfirst)].
        -- exists 0. repeat split; try done. intros j r' Hj. lia.
        -- exists (S i). rewrite not_elem_of_cons in Hs. destruct Hs as [Hne Hs].
           repeat split; try done.
           intros [|j] r' Hj Hr'; simpl in Hr'.
           ++ injection Hr' as <-. congruence.
           ++ apply (Hfirst j); [lia|done].
      * intros ([|i] & Hi & Hs & Hfirst); simpl in Hi.
        -- injection Hi as <-. by left.
        -- right. exists i. repeat split; try done.
           ++ rewrite not_elem_of_cons. split; [|done].
              intros Heq. by apply (Hfirst 0 r0); [lia| |].
           ++ intros j r' Hj Hr'. apply (Hfirst (S j)); [lia|done].
Qed.

Lemma dedup_rows_NoDup rows : forall seen,
  NoDup (map key (dedup_rows key seen rows)).
Proof.
  induction rows as [|r rows IH]; intros seen; simpl; [constructor|].
  case_decide; [apply IH|]. simpl. constructor; [|apply IH].
  intros Hin. apply list_elem_of_fmap in Hin as (r' & Heq & Hin).
  apply dedup_rows_elem in Hin as (_ & _ & Hs & _).
  apply Hs. rewrite <- Heq. by left.
Qed.

(** Row by row: a row stays exactly when its key has not been seen and
    no earlier row has it. *)
Lemma dedup_rows_keep rows : forall seen,
  exists keep : list bool,
    length keep = length rows ∧
    dedup_rows key seen rows
    = map snd (filter (fun br => fst br = true) (zip keep rows)) ∧
    forall i r, rows !! i = Some r ->
      (keep !! i = Some true <->
       (key r ∉ seen) ∧
       forall j r', j < i -> rows !! j = Some r' -> key r' ≠ key r).
Proof.
  induction rows as [|r0 rows IH]; intros seen.
  - exists []. repeat split; try done.
  - simpl. destruct (decide (key r0 ∈ seen)) as [Hin|Hnot].
    + destruct (IH seen) as (keep & Hlen & Hk & Hspec).
      exists (false :: keep). split; [simpl; by rewrite Hlen|]. split.
      * change (zip (false :: keep) (r0 :: rows)) with ((false, r0) :: zip keep rows).
        by rewrite filter_cons_False by (simpl; discriminate).
      * intros [|i] r Hr; simpl in Hr.
        -- injection Hr as <-. simpl. split; [done|by intros [? _]].
        -- simpl. rewrite (Hspec i r Hr). split.
           ++ intros [Hs Hfirst]. split; [done|].
              intros [|j] r' Hj Hr'; simpl in Hr'.
              ** injection Hr' as <-. congruence.
              ** apply (Hfirst j); [lia|done].
           ++ intros [Hs Hfirst]. split; [done|].
              intros j r' Hj Hr'. apply (Hfirst (S j)); [lia|done].
    + destruct (IH (key r0 :: seen)) as (keep & Hlen & Hk & Hspec).
      exists (true :: keep). split; [simpl; by rewrite Hlen|]. split.
      * change (zip (true :: keep) (r0 :: rows)) with ((true, r0) :: zip keep rows).
        rewrite filter_cons_True by done. simpl. by rewrite Hk.
      * intros [|i] r Hr; simpl in Hr.
        -- injection Hr as <-. simpl. split; [|done].
           intros _. split; [done|]. intros j r' Hj. lia.
        -- simpl. rewrite (Hspec i r Hr), not_elem_of_cons. split.
           ++ intros [[Hne Hs] Hfirst]. split; [done|].
              intros [|j] r' Hj Hr'; simpl in Hr'.
              ** injection Hr' as <-. congruence.
              ** apply (Hfirst j); [lia|done].
           ++ intros [Hs Hfirst]. split; [split; [|done]|].
              ** intros Heq. by apply (Hfirst 0 r0); [lia| |].
              ** intros j r' Hj Hr'. apply (Hfirst (S j)); [lia|done].
Qed.

(** Every row has a kept row with its key, unless its key has been
    seen. *)
Lemma dedup_rows_covers rows : forall seen r,
  r ∈ rows ->
  (key r ∈ seen) ∨ exists r0, r0 ∈ dedup_rows key seen rows ∧ key r0 = key r.
Proof.
  induction rows as [|r0 rows IH]; intros seen r Hr; [inversion Hr|].
  simpl. apply elem_of_cons in Hr as [->|Hr].
  - destruct (decide (key r0 ∈ seen)) as [Hin|Hnot]; [by left|].
    right. exists r0. split; [by left|done].
  - destruct (decide (key r0 ∈ seen)) as [Hin|Hnot]; [by apply IH|].
    destruct (IH (key r0 :: seen) r Hr) as [Hs|(r1 & Hr1 & Heq)].
    + apply elem_of_cons in Hs as [Heq|Hs]; [|by left].
      right. exists r0. split; [by left|done].
    + right. exists r1. split; [by right|done].
Qed.

(** A row whose key occurs earlier, or has been seen, can be removed
    beforehand without changing the outcome. *)
Lemma dedup_rows_delete rows : forall seen j rj,
  rows !! j = Some rj ->
  (key rj ∈ seen ∨ exists i ri, i < j ∧ rows !! i = Some ri ∧ key ri = key rj) ->
  dedup_rows key seen (delete j rows) = dedup_rows key seen rows.
Proof.
  induction rows as [|r rows IH]; intros seen j rj Hj Hdup; [done|].
  destruct j as [|j]; simpl in Hj.
  - injection Hj as Hr. subst r. simpl.
    destruct Hdup as [Hs|(i & ? & ? & _)]; [|lia].
    by rewrite decide_True.
  - simpl.
    assert (Hdup' :
        key rj ∈ (if decide (key r ∈ seen) then seen else key r :: seen) ∨
        exists i ri, i < j ∧ rows !! i = Some ri ∧ key ri = key rj).
    { destruct Hdup as [Hs|([|i] & ri & Hlt & Hi & Heq)].
      - left. case_decide; [done | by right].
      - simpl in Hi. injection Hi as <-. left. rewrite <- Heq.
        case_decide; [done | by left].
      - right. exists i, ri. repeat split; try done. lia. }
    case_decide; [by eapply IH | f_equal; by eapply IH].
Qed.
End Dedup.

(** ** Safe Merger: the outer join *)

Lemma append_empty_r (s : string) : s +:+ "" = s.
Proof.
  induction s as [|a s IH]; [reflexivity|].
  change (String a (s +:+ "") = String a s). by rewrite IH.
Qed.

Lemma joined_rows_elem lcols rcols on lrows rrows x :
  x ∈ joined_rows lcols rcols on lrows rrows <->
  (exists l r, l ∈ lrows ∧ r ∈ rrows ∧
               key_of lcols on l = key_of rcols on r ∧
               x = l ++ rest_of on rcols r) ∨
  (exists l, l ∈ lrows ∧
             (forall r, r ∈ rrows -> key_of rcols on r ≠ key_of lcols on l) ∧
             x = l ++ replicate (length (rest_labels on rcols)) CNA).
Proof.
  unfold joined_rows. rewrite list_elem_of_bind. split.
  - intros (l & Hx & Hl).
    destruct (filter _ rrows) as [|m ms] eqn:Hf.
    + right. exists l. split; [done|]. split.
      * intros r Hr Heq.
        assert (Hin : r ∈ filter (fun r => key_of rcols on r = key_of lcols on l) rrows)
          by (by apply list_elem_of_filter).
        rewrite Hf in Hin. inversion Hin.
      * by apply list_elem_of_singleton in Hx.
    + left. apply list_elem_of_fmap in Hx as (r & -> & Hr).
      rewrite <- Hf in Hr. apply list_elem_of_filter in Hr as [Heq Hr].
      by exists l, r.
  - intros [(l & r & Hl & Hr & Heq & ->)|(l & Hl & Hno & ->)]; exists l; (split; [|done]).
    + assert (Hin : r ∈ filter (fun r => key_of rcols on r = key_of lcols on l) rrows)
        by (by apply list_elem_of_filter).
      destruct (filter _ rrows) as [|m ms]; [inversion Hin|].
      apply list_elem_of_fmap. by exists r.
    + destruct (filter _ rrows) as [|m ms] eqn:Hf; [by left|].
      assert (Hin : m ∈ filter (fun r => key_of rcols on r = key_of lcols on l) rrows)
        by (rewrite Hf; by left).
      apply list_elem_of_filter in Hin as [Heq Hin]. by destruct (Hno m).
Qed.

Lemma right_only_rows_elem lcols rcols on lrows rrows x :
  x ∈ right_only_rows lcols rcols on lrows rrows <->
  exists r, r ∈ rrows ∧
            (forall l, l ∈ lrows -> key_of lcols on l ≠ key_of rcols on r) ∧
            x = right_only_row lcols rcols on r.
Proof.
  unfold right_only_rows. rewrite list_elem_of_fmap. split.
  - intros (r & -> & Hr). apply list_elem_of_filter in Hr as [Hall Hr].
    exists r. split; [done|]. split; [|done]. by apply Forall_forall.
  - intros (r & Hr & Hall & ->). exists r. split; [done|].
    apply list_elem_of_filter. split; [|done]. by apply Forall_forall.
Qed.

Lemma rename_overlap_left overlap lcols :
  map (rename_overlap overlap "") lcols = lcols.
Proof.
  induction lcols as [|c lcols IH]; [done|]. simpl. rewrite IH.
  unfold rename_overlap. case_decide; [by rewrite append_empty_r | done].
Qed.

Lemma rename_overlap_right (lcols rrest : list string) :
  map (rename_overlap (filter (fun c => c ∈ rrest) lcols) "_duplicate") rrest
  = map (fun c => if decide (c ∈ lcols) then c +:+ "_duplicate" else c) rrest.
Proof.
  apply map_ext_in. intros c Hc%list_elem_of_In. unfold rename_overlap.
  destruct (decide (c ∈ lcols)) as [Hl|Hl].
  - rewrite decide_True; [done|]. by apply list_elem_of_filter.
  - rewrite decide_False; [done|]. by intros [_ ?]%list_elem_of_filter.
Qed.

(** What [merge_outer] returns under the default suffixes is the full
    outer join. *)
Lemma merge_outer_spec left right on merged :
  merge_outer left right on default_suffixes = Ok merged ->
  outer_join_of left right on merged.
Proof.
  unfold merge_outer, default_suffixes.
  destruct (forallb _ on && forallb _ on); [|done].
  cbn [negb str_truthy]. rewrite andb_false_r.
  destruct (_ || _); [done|]. intros [= <-].
  unfold outer_join_of; simpl. split.
  - by rewrite rename_overlap_left, rename_overlap_right.
  - intros x. rewrite elem_of_app, joined_rows_elem, right_only_rows_elem. tauto.
Qed.

Lemma suffix_dups_same (l : list string) : suffix_dups l l = false.
Proof.
  unfold suffix_dups. apply not_true_is_false. intros H.
  apply existsb_exists in H as ([a b] & Hin & Hab).
  assert (a = b); [|subst; by destruct b].
  clear Hab. revert Hin. generalize (@nil string).
  induction l as [|c cs IH]; intros seen; simpl; [done|].
  intros [Heq|Hin]; [|exact (IH _ Hin)]. by injection Heq as <- <-.
Qed.

(** With key labels that are unique on both sides, key columns that pass
    the dtype check and no label clash caused by the marker, the merge
    returns. *)
Lemma merge_outer_returns left right on :
  Forall (fun k => length (positions k (columns left)) = 1 ∧
                   length (positions k (columns right)) = 1) on ->
  Forall (fun k => keys_clash (column_at left (key_pos (columns left) k))
                              (column_at right (key_pos (columns right) k)) = false) on ->
  suffix_dups (rest_labels on (columns right))
    (map (fun c => if decide (c ∈ columns left) then c +:+ "_duplicate" else c)
         (rest_labels on (columns right))) = false ->
  returns (merge_outer left right on default_suffixes).
Proof.
  intros Huniq Hclash Hdups. unfold merge_outer, default_suffixes.
  assert (Hall : forallb (fun k => unique_label (columns left) k
                                   && unique_label (columns right) k) on = true).
  { apply forallb_forall. intros k Hk%list_elem_of_In.
    rewrite Forall_forall in Huniq. destruct (Huniq k Hk) as [H1 H2].
    unfold unique_label. by rewrite !bool_decide_eq_true_2. }
  assert (Hdt : forallb (fun k => negb (keys_clash
                                          (column_at left (key_pos (columns left) k))
                                          (column_at right (key_pos (columns right) k))))
                        on = true).
  { apply forallb_forall. intros k Hk%list_elem_of_In.
    rewrite Forall_forall in Hclash. by rewrite (Hclash k Hk). }
  rewrite Hall, Hdt.
  cbn [negb str_truthy andb]. rewrite andb_false_r.
  rewrite rename_overlap_left, rename_overlap_right, Hdups, orb_false_r.
  rewrite suffix_dups_same. by eexists.
Qed.

(** *** The two readings of a key agree

    [drop_duplicates] compares the cells under every column whose label is
    a key; the join compares the cell under each key label.  For rows of
    the right length and key labels carried by one column each, two rows
    agree in one sense exactly when they agree in the other. *)

Lemma subset_key_eq_iff (cols on : list string) : forall (r r' : list cell),
  length r = length cols -> length r' = length cols ->
  subset_key cols on r = subset_key cols on r' <->
  forall j c, cols !! j = Some c -> c ∈ on -> r !! j = r' !! j.
Proof.
  unfold subset_key.
  induction cols as [|c0 cols IH]; intros r r' Hr Hr'.
  - split; [intros _ j c Hj; discriminate Hj | done].
  - destruct r as [|x r]; [done|]. destruct r' as [|x' r']; [done|].
    simpl in Hr, Hr'. injection Hr as Hr. injection Hr' as Hr'.
    simpl. rewrite !filter_cons. simpl.
    destruct (decide (bool_decide (c0 ∈ on))) as [Hc|Hc].
    + simpl. split.
      * intros [= -> Heq] [|j] c Hj Hin; simpl in *; [done|].
        by apply (IH r r' Hr Hr') with (c := c).
      * intros Hall. f_equal.
        -- specialize (Hall 0 c0 eq_refl). simpl in Hall.
           apply Is_true_true, bool_decide_eq_true in Hc.
           by injection (Hall Hc).
        -- apply IH; try done. intros j c Hj Hin. by apply (Hall (S j) c).
    + rewrite IH by done. split.
      * intros Hall [|j] c Hj Hin; simpl in *; [|by apply (Hall j c)].
        injection Hj as <-. destruct Hc. by apply Is_true_true, bool_decide_eq_true.
      * intros Hall j c Hj Hin. by apply (Hall (S j) c).
Qed.

Lemma unique_position cols k :
  length (positions k cols) = 1 ->
  cols !! key_pos cols k = Some k ∧
  forall j, cols !! j = Some k -> j = key_pos cols k.
Proof.
  unfold key_pos. intros Hlen.
  destruct (positions k cols) as [|j0 [|j1 l]] eqn:Hpos; try done. simpl.
  split.
  - apply positions_spec. rewrite Hpos. by left.
  - intros j Hj. apply positions_spec in Hj. rewrite Hpos in Hj.
    by apply list_elem_of_singleton in Hj.
Qed.

Lemma key_readings_agree (cols on : list string) (r r' : list cell) :
  Forall (fun k => length (positions k cols) = 1) on ->
  length r = length cols -> length r' = length cols ->
  subset_key cols on r = subset_key cols on r' <->
  key_of cols on r = key_of cols on r'.
Proof.
  intros Huniq Hr Hr'. rewrite subset_key_eq_iff by done.
  rewrite Forall_forall in Huniq. unfold key_of, cell_at. split.
  - intros Hall. apply map_ext_in. intros k Hk%list_elem_of_In.
    destruct (unique_position cols k (Huniq k Hk)) as [Hpos _].
    by rewrite (Hall _ k Hpos Hk).
  - intros Heq j c Hj Hin.
    destruct (unique_position cols c (Huniq c Hin)) as [_ Hone].
    rewrite (Hone j Hj).
    assert (Hlt : key_pos cols c < length cols)
      by (rewrite <- (Hone j Hj); by eapply lookup_lt_Some).
    assert (Hk : default CNA (r !! key_pos cols c) = default CNA (r' !! key_pos cols c)).
    { apply list_elem_of_In in Hin.
      exact (proj1 map_ext_in_iff Heq c Hin). }
    destruct (lookup_lt_is_Some_2 r (key_pos cols c)) as [x Hx]; [lia|].
    destruct (lookup_lt_is_Some_2 r' (key_pos cols c)) as [x' Hx']; [lia|].
    rewrite Hx, Hx' in *. simpl in Hk. by subst.
Qed.

Lemma NoDup_map_transfer {A B C} (f : A -> B) (g : A -> C) (l : list A) :
  (forall x y, x ∈ l -> y ∈ l -> g x = g y -> f x = f y) ->
  NoDup (map f l) -> NoDup (map g l).
Proof.
  induction l as [|a l IH]; intros Hfg Hnd; simpl; [constructor|].
  simpl in Hnd. apply NoDup_cons in Hnd as [Hnot Hnd]. constructor.
  - intros Hin. apply list_elem_of_fmap in Hin as (b & Heq & Hb).
    apply Hnot. apply list_elem_of_fmap. exists b. split; [|done].
    apply Hfg; [by left | by right | done].
  - apply IH; [|done]. intros x y Hx Hy. apply Hfg; by right.
Qed.

(** After [drop_duplicates] no two rows of the new table have the same
    join key: a row of the accumulator finds at most one partner. *)
Lemma drop_duplicates_join_keys right on :
  wf right -> Forall (fun k => length (positions k (columns right)) = 1) on ->
  NoDup (map (key_of (columns right) on) (values (drop_duplicates right on))).
Proof.
  intros Hwf Huniq. simpl.
  apply NoDup_map_transfer with (f := subset_key (columns right) on);
    [|apply dedup_rows_NoDup].
  intros x y Hx Hy Heq.
  assert (Hsub := sublist_subseteq _ _
            (dedup_rows_sublist (subset_key (columns right) on) (values right) [])).
  unfold wf in Hwf. rewrite Forall_forall in Hwf.
  apply key_readings_agree; try done; apply Hwf; by apply Hsub.
Qed.

(** What a merge that returns has checked and produced. *)
Lemma merge_outer_inv left right on merged :
  merge_outer left right on default_suffixes = Ok merged ->
  Forall (fun k => length (positions k (columns left)) = 1 ∧
                   length (positions k (columns right)) = 1) on ∧
  values merged
  = joined_rows (columns left) (columns right) on (values left) (values right)
    ++ right_only_rows (columns left) (columns right) on (values left) (values right).
Proof.
  unfold merge_outer, default_suffixes.
  destruct (forallb _ on) eqn:Hall; [|done]. rewrite andb_true_l.
  destruct (forallb (fun k => negb _) on); [|done].
  cbn [negb str_truthy]. rewrite andb_false_r.
  destruct (_ || _); [done|]. intros [= <-]. split; [|done].
  apply Forall_forall. intros k Hk%list_elem_of_In.
  rewrite forallb_forall in Hall. specialize (Hall k Hk).
  apply andb_true_iff in Hall as [H1 H2].
  unfold unique_label in *. by rewrite !bool_decide_eq_true in H1, H2.
Qed.

Lemma drop_duplicates_wf right on : wf right -> wf (drop_duplicates right on).
Proof.
  unfold wf. simpl. intros Hwf. rewrite Forall_forall in *. intros r Hr.
  apply Hwf.
  by apply (sublist_subseteq _ _
              (dedup_rows_sublist (subset_key (columns right) on) (values right) [])).
Qed.


(** *** The join in terms of labels and cells

    The lemmas below relate the positions that [merge_outer] computes
    with to the description of the join by labels. *)

Lemma positions_from_lt name cols : forall i a l,
  positions_from i name cols = a :: l -> i <= a ∧ Forall (fun b => a < b) l.
Proof.
  induction cols as [|c cols IH]; intros i a l; simpl; [done|].
  destruct (decide (c = name)) as [->|Hne].
  - intros [= <- <-]. split; [lia|]. apply Forall_forall. intros b Hb.
    apply positions_from_spec in Hb as [Hb _]. lia.
  - intros H. apply IH in H as [Hle Hall]. split; [lia|done].
Qed.

Lemma labelled_once_positions cols k :
  labelled_once cols k <-> length (positions k cols) = 1.
Proof.
  split.
  - intros (i & Hi & Hone).
    destruct (positions k cols) as [|a [|b l]] eqn:Hpos; [|done|].
    + apply positions_spec in Hi. rewrite Hpos in Hi. inversion Hi.
    + assert (Ha : a ∈ positions k cols) by (rewrite Hpos; by left).
      assert (Hb : b ∈ positions k cols) by (rewrite Hpos; right; by left).
      apply positions_spec, Hone in Ha. apply positions_spec, Hone in Hb.
      apply positions_from_lt in Hpos as [_ Hlt].
      apply Forall_cons in Hlt as [Hlt _]. lia.
  - intros Hlen. destruct (unique_position cols k Hlen) as [Hpos Hone].
    by exists (key_pos cols k).
Qed.

Lemma rest_of_from on cols : forall (pre r : list cell),
  length r = length cols ->
  map (cell_at (pre ++ r)) (rest_positions_from (length pre) on cols)
  = map snd (filter (fun cx => fst cx ∉ on) (zip cols r)).
Proof.
  induction cols as [|c cols IH]; intros pre [|x r] Hlen; simpl in *; try done.
  injection Hlen as Hlen.
  assert (Hstep : map (cell_at (pre ++ x :: r)) (rest_positions_from (S (length pre)) on cols)
                  = map snd (filter (fun cx => fst cx ∉ on) (zip cols r))).
  { rewrite <- (IH (pre ++ [x]) r Hlen). rewrite <- app_assoc. simpl.
    rewrite length_app. simpl. by replace (length pre + 1) with (S (length pre)) by lia. }
  destruct (decide (c ∈ on)) as [Hc|Hc].
  - rewrite filter_cons_False by (simpl; tauto). exact Hstep.
  - rewrite filter_cons_True by done. simpl. f_equal; [|exact Hstep].
    unfold cell_at. rewrite lookup_app_r by lia.
    by replace (length pre - length pre) with 0 by lia.
Qed.

Lemma rest_of_non_key on cols (r : list cell) :
  length r = length cols -> rest_of on cols r = non_key_cells cols on r.
Proof. intros Hlen. unfold rest_of, non_key_cells. by apply (rest_of_from on cols []). Qed.

Lemma cell_at_lookup (r : list cell) i :
  i < length r -> r !! i = Some (cell_at r i).
Proof.
  intros Hi. unfold cell_at. by destruct (lookup_lt_is_Some_2 r i Hi) as [x ->].
Qed.

Lemma key_pos_lt cols k : length (positions k cols) = 1 -> key_pos cols k < length cols.
Proof.
  intros H. destruct (unique_position cols k H) as [Hpos _]. by eapply lookup_lt_Some.
Qed.

Lemma key_of_agree lcols rcols on (l r : list cell) :
  Forall (fun k => length (positions k lcols) = 1 ∧ length (positions k rcols) = 1) on ->
  length l = length lcols -> length r = length rcols ->
  key_of lcols on l = key_of rcols on r <-> keys_agree lcols rcols on l r.
Proof.
  intros Huniq Hl Hr. rewrite Forall_forall in Huniq. unfold key_of, keys_agree.
  rewrite map_ext_in_iff. split.
  - intros Heq k i j Hk Hi Hj. destruct (Huniq k Hk) as [Hul Hur].
    destruct (unique_position lcols k Hul) as [_ Hli].
    destruct (unique_position rcols k Hur) as [_ Hrj].
    rewrite (Hli i Hi), (Hrj j Hj).
    rewrite !cell_at_lookup by (rewrite ?Hl, ?Hr; by apply key_pos_lt).
    f_equal. apply Heq. by apply list_elem_of_In.
  - intros Hag k Hk%list_elem_of_In. destruct (Huniq k Hk) as [Hul Hur].
    destruct (unique_position lcols k Hul) as [Hli _].
    destruct (unique_position rcols k Hur) as [Hrj _].
    specialize (Hag k _ _ Hk Hli Hrj).
    rewrite !cell_at_lookup in Hag by (rewrite ?Hl, ?Hr; by apply key_pos_lt).
    by injection Hag.
Qed.

Lemma right_only_keys_under lcols rcols on (r k : list cell) :
  Forall (fun c => length (positions c rcols) = 1) on ->
  length r = length rcols ->
  keys_under lcols rcols on r k <->
  k = map (fun c => if decide (c ∈ on) then cell_at r (key_pos rcols c) else CNA) lcols.
Proof.
  intros Huniq Hr. rewrite Forall_forall in Huniq. split.
  - intros [Hlen Hk]. apply list_eq. intros i. rewrite list_lookup_fmap.
    destruct (lcols !! i) as [c|] eqn:Hc; simpl.
    + destruct (Hk i c Hc) as [Hno Hyes]. destruct (decide (c ∈ on)) as [Hin|Hin].
      * destruct (unique_position rcols c (Huniq c Hin)) as [Hpos _].
        rewrite (Hyes Hin _ Hpos). apply cell_at_lookup. rewrite Hr.
        by apply key_pos_lt, Huniq.
      * by apply Hno.
    + apply lookup_ge_None. rewrite Hlen. by apply lookup_ge_None.
  - intros ->. split; [by rewrite length_map|].
    intros i c Hc. rewrite list_lookup_fmap, Hc. simpl. split.
    + intros Hno. by rewrite decide_False.
    + intros Hin j Hj. rewrite decide_True by done.
      destruct (unique_position rcols c (Huniq c Hin)) as [_ Hone].
      rewrite (Hone j Hj). symmetry. apply cell_at_lookup. rewrite Hr.
      by apply key_pos_lt, Huniq.
Qed.

(** From the terms of [merge_outer] to the description by labels. *)
Lemma outer_join_of_spec left right on merged :
  wf left -> wf right ->
  Forall (fun k => length (positions k (columns left)) = 1 ∧
                   length (positions k (columns right)) = 1) on ->
  outer_join_of left right on merged ->
  spec_outer_join left (columns right) (values right) on merged.
Proof.
  intros Hwfl Hwfr Huniq [Hcols Hrows]. unfold wf in *.
  rewrite Forall_forall in Hwfl, Hwfr.
  assert (Hur : Forall (fun c => length (positions c (columns right)) = 1) on).
  { eapply Forall_impl; [exact Huniq|]. by intros k [_ ?]. }
  split; [exact Hcols|]. intros x. rewrite Hrows. clear Hrows.
  split.
  - intros [(l & r & Hl & Hr & Hkey & ->)|[(l & Hl & Hno & ->)|(r & Hr & Hno & ->)]].
    + left. exists l, r. split; [done|]. split; [done|]. split.
      * apply key_of_agree; auto.
      * by rewrite rest_of_non_key by auto.
    + right; left. exists l. split; [done|]. split; [|done].
      intros r Hr Hag. apply (Hno r Hr). symmetry. apply key_of_agree; auto.
    + right; right.
      exists r, (map (fun c => if decide (c ∈ on)
                               then cell_at r (key_pos (columns right) c) else CNA)
                     (columns left)).
      split; [done|]. split; [|split].
      * intros l Hl Hag. apply (Hno l Hl). apply key_of_agree; auto.
      * apply right_only_keys_under; [done|auto|reflexivity].
      * unfold right_only_row. by rewrite rest_of_non_key by auto.
  - intros [(l & r & Hl & Hr & Hkey & ->)|[(l & Hl & Hno & ->)|(r & k & Hr & Hno & Hk & ->)]].
    + left. exists l, r. split; [done|]. split; [done|]. split.
      * apply key_of_agree; auto.
      * by rewrite rest_of_non_key by auto.
    + right; left. exists l. split; [done|]. split; [|done].
      intros r Hr Heq. apply (Hno r Hr). symmetry in Heq. apply key_of_agree in Heq; auto.
    + right; right. exists r. split; [done|]. split.
      * intros l Hl Heq. apply (Hno l Hl). apply key_of_agree in Heq; auto.
      * apply right_only_keys_under in Hk; [|done|auto]. subst k.
        unfold right_only_row. by rewrite rest_of_non_key by auto.
Qed.

(** *** The reduced table *)

Lemma subset_key_same_on cols on (r r' : list cell) :
  length r = length cols -> length r' = length cols ->
  subset_key cols on r = subset_key cols on r' <-> same_on cols on r r'.
Proof. apply subset_key_eq_iff. Qed.

Lemma drop_duplicates_kept_first right on :
  wf right ->
  kept_first (columns right) on (values right) (values (drop_duplicates right on)).
Proof.
  intros Hwf. unfold wf in Hwf. rewrite Forall_forall in Hwf.
  destruct (dedup_rows_keep (subset_key (columns right) on) (values right) [])
    as (keep & Hlen & Hk & Hspec).
  exists keep. split; [done|]. split; [exact Hk|].
  intros i r Hr. rewrite (Hspec i r Hr). split.
  - intros [_ Hfirst] j r' Hj Hr' Hsame. apply (Hfirst j r' Hj Hr').
    apply subset_key_same_on; [| |done]; apply Hwf; by eapply list_elem_of_lookup_2.
  - intros Hfirst. split; [intros H; inversion H|].
    intros j r' Hj Hr' Heq. apply (Hfirst j r' Hj Hr').
    apply subset_key_same_on; [| |done]; apply Hwf; by eapply list_elem_of_lookup_2.
Qed.

(** *** When the merge returns *)

Lemma string_length_app (s1 s2 : string) :
  String.length (s1 +:+ s2) = String.length s1 + String.length s2.
Proof.
  induction s1 as [|a s1 IH]; [done|].
  change (S (String.length (s1 +:+ s2)) = S (String.length s1 + String.length s2)).
  by rewrite IH.
Qed.

Lemma append_inj_l (m : string) : forall s1 s2, s1 +:+ m = s2 +:+ m -> s1 = s2.
Proof.
  induction s1 as [|a s1 IH]; intros [|b s2] H.
  - done.
  - apply (f_equal String.length) in H. rewrite !string_length_app in H.
    simpl in H. lia.
  - apply (f_equal String.length) in H. rewrite !string_length_app in H.
    simpl in H. lia.
  - change (String a (s1 +:+ m) = String b (s2 +:+ m)) in H.
    injection H as -> H. f_equal. by apply IH.
Qed.

Lemma duplicated_from_map (f : string -> string) : forall l seen,
  (forall x y, x ∈ seen ++ l -> y ∈ seen ++ l -> f x = f y -> x = y) ->
  duplicated_from (map f seen) (map f l) = duplicated_from seen l.
Proof.
  induction l as [|c l IH]; intros seen Hinj; simpl; [done|]. f_equal.
  - apply bool_decide_ext. split.
    + intros (y & Heq & Hy)%list_elem_of_fmap.
      assert (c = y) as ->; [|done].
      apply Hinj; [apply elem_of_app; right; by left|apply elem_of_app; by left|done].
    + intros Hin. apply list_elem_of_fmap. by exists c.
  - apply (IH (c :: seen)). intros x y Hx Hy.
    apply Hinj; rewrite elem_of_app, elem_of_cons in *; simpl in *;
      rewrite ?elem_of_cons in *; tauto.
Qed.

Lemma suffix_dups_injective (f : string -> string) (l : list string) :
  (forall x y, x ∈ l -> y ∈ l -> f x = f y -> x = y) ->
  suffix_dups l (map f l) = false.
Proof.
  intros Hinj. unfold suffix_dups.
  pose proof (duplicated_from_map f l [] Hinj) as Hd. simpl in Hd. rewrite Hd.
  apply not_true_is_false. intros H.
  apply existsb_exists in H as ([a b] & Hin & Hab).
  assert (a = b); [|subst; by destruct b].
  clear Hab. revert Hin. generalize (duplicated_from [] l).
  induction l0 as [|c cs IH]; simpl; [done|].
  intros [Heq|Hin]; [|exact (IH Hin)]. by injection Heq as <- <-.
Qed.

Lemma marker_free_no_dups left right on :
  marker_free left right on ->
  suffix_dups (rest_labels on (columns right))
    (map (fun c => if decide (c ∈ columns left) then c +:+ "_duplicate" else c)
         (rest_labels on (columns right))) = false.
Proof.
  intros Hfree. apply suffix_dups_injective. unfold rest_labels.
  intros x y [Hx Hxr]%list_elem_of_filter [Hy Hyr]%list_elem_of_filter.
  destruct (decide (x ∈ columns left)) as [Hxl|Hxl],
           (decide (y ∈ columns left)) as [Hyl|Hyl]; intros Heq.
  - by apply append_inj_l in Heq.
  - destruct (Hfree x y Hxr Hx Hxl Hyr). by symmetry.
  - by destruct (Hfree y x Hyr Hy Hyl Hxr).
  - done.
Qed.

Lemma holds_text_column df k :
  length (positions k (columns df)) = 1 -> holds_text df k ->
  existsb is_str (column_at df (key_pos (columns df) k)) = true.
Proof.
  intros Huniq (r & i & s & Hr & Hi & Hs).
  destruct (unique_position _ _ Huniq) as [_ Hone]. rewrite <- (Hone i Hi).
  apply existsb_exists. exists (CStr s). split; [|done].
  apply list_elem_of_In, list_elem_of_fmap. exists r. split; [|done].
  unfold cell_at. by rewrite Hs.
Qed.

Lemma text_columns_no_clash (lk rk : list cell) :
  existsb is_str lk = true -> existsb is_str rk = true -> keys_clash lk rk = false.
Proof.
  intros Hl Hr. unfold keys_clash, numeric_column. rewrite Hl, Hr. simpl.
  by rewrite andb_false_r.
Qed.

Lemma drop_duplicates_holds_text right on k :
  wf right -> k ∈ on -> holds_text right k -> holds_text (drop_duplicates right on) k.
Proof.
  intros Hwf Hk (r & i & s & Hr & Hi & Hs).
  unfold wf in Hwf. rewrite Forall_forall in Hwf.
  destruct (dedup_rows_covers (subset_key (columns right) on) (values right) [] r Hr)
    as [Hin|(r0 & Hr0 & Heq)]; [inversion Hin|].
  exists r0, i, s. split; [exact Hr0|]. split; [exact Hi|].
  assert (Hr0' : r0 ∈ values right).
  { by apply (sublist_subseteq _ _
                (dedup_rows_sublist (subset_key (columns right) on) (values right) [])). }
  apply subset_key_same_on in Heq; [|by apply Hwf..].
  by rewrite (Heq i k Hi Hk).
Qed.

(** *** When the merge is refused *)

Lemma holds_number_column df k :
  length (positions k (columns df)) = 1 -> holds_number df k ->
  existsb is_num (column_at df (key_pos (columns df) k)) = true.
Proof.
  intros Huniq (r & i & z & Hr & Hi & Hz).
  destruct (unique_position _ _ Huniq) as [_ Hone]. rewrite <- (Hone i Hi).
  apply existsb_exists. exists (CNum z). split; [|done].
  apply list_elem_of_In, list_elem_of_fmap. exists r. split; [|done].
  unfold cell_at. by rewrite Hz.
Qed.

Lemma no_text_column df k :
  length (positions k (columns df)) = 1 -> ¬ holds_text df k ->
  existsb is_str (column_at df (key_pos (columns df) k)) = false.
Proof.
  intros Huniq Hno. apply not_true_is_false. intros Hex. apply Hno.
  apply existsb_exists in Hex as (c & Hc & Hstr).
  apply list_elem_of_In, list_elem_of_fmap in Hc as (r & -> & Hr).
  destruct (unique_position _ _ Huniq) as [Hpos _].
  unfold cell_at in Hstr.
  destruct (r !! key_pos (columns df) k) as [[s| |]|] eqn:Hcell; try done.
  by exists r, (key_pos (columns df) k), s.
Qed.

Lemma no_number_column df k :
  length (positions k (columns df)) = 1 -> ¬ holds_number df k ->
  existsb is_num (column_at df (key_pos (columns df) k)) = false.
Proof.
  intros Huniq Hno. apply not_true_is_false. intros Hex. apply Hno.
  apply existsb_exists in Hex as (c & Hc & Hnum).
  apply list_elem_of_In, list_elem_of_fmap in Hc as (r & -> & Hr).
  destruct (unique_position _ _ Huniq) as [Hpos _].
  unfold cell_at in Hnum.
  destruct (r !! key_pos (columns df) k) as [[|z|]|] eqn:Hcell; try done.
  by exists r, (key_pos (columns df) k), z.
Qed.

Lemma text_against_numbers_clash df1 df2 k :
  length (positions k (columns df1)) = 1 -> length (positions k (columns df2)) = 1 ->
  text_against_numbers df1 df2 k ->
  text_column (column_at df1 (key_pos (columns df1) k)) = true ∧
  numeric_column (column_at df2 (key_pos (columns df2) k)) = true.
Proof.
  intros H1 H2 (Ht1 & Hn1 & Hn2 & Ht2). unfold text_column, numeric_column.
  rewrite (holds_text_column df1 k H1 Ht1), (no_number_column df1 k H1 Hn1).
  rewrite (no_text_column df2 k H2 Ht2). split; [done|]. simpl.
  apply negb_true_iff, bool_decide_eq_false. intros Hnil.
  pose proof (holds_number_column df2 k H2 Hn2) as Hex. by rewrite Hnil in Hex.
Qed.

Lemma merge_outer_clash left right on suffixes k :
  k ∈ on ->
  (length (positions k (columns left)) = 1 -> length (positions k (columns right)) = 1 ->
   keys_clash (column_at left (key_pos (columns left) k))
              (column_at right (key_pos (columns right) k)) = true) ->
  merge_outer left right on suffixes = Raise ValueError.
Proof.
  intros Hk Hclash. unfold merge_outer.
  destruct (forallb (fun k => unique_label _ k && unique_label _ k) on) eqn:Hall; [|done].
  rewrite andb_true_l.
  destruct (forallb (fun k => negb _) on) eqn:Hdt; [|done].
  rewrite forallb_forall in Hall, Hdt. apply list_elem_of_In in Hk.
  specialize (Hall k Hk). specialize (Hdt k Hk).
  apply andb_true_iff in Hall as [H1 H2]. unfold unique_label in *.
  rewrite bool_decide_eq_true in H1, H2. rewrite (Hclash H1 H2) in Hdt. done.
Qed.

Lemma drop_duplicates_holds_number right on k :
  wf right -> k ∈ on -> holds_number right k -> holds_number (drop_duplicates right on) k.
Proof.
  intros Hwf Hk (r & i & z & Hr & Hi & Hz).
  unfold wf in Hwf. rewrite Forall_forall in Hwf.
  destruct (dedup_rows_covers (subset_key (columns right) on) (values right) [] r Hr)
    as [Hin|(r0 & Hr0 & Heq)]; [inversion Hin|].
  exists r0, i, z. split; [exact Hr0|]. split; [exact Hi|].
  assert (Hr0' : r0 ∈ values right).
  { by apply (sublist_subseteq _ _
                (dedup_rows_sublist (subset_key (columns right) on) (values right) [])). }
  apply subset_key_same_on in Heq; [|by apply Hwf..].
  by rewrite (Heq i k Hi Hk).
Qed.

Lemma drop_duplicates_rows right on r :
  r ∈ values (drop_duplicates right on) -> r ∈ values right.
Proof.
  apply (sublist_subseteq _ _
           (dedup_rows_sublist (subset_key (columns right) on) (values right) [])).
Qed.

Lemma drop_duplicates_text_against_numbers left right on k :
  wf right -> k ∈ on ->
  (text_against_numbers left right k ->
   text_against_numbers left (drop_duplicates right on) k) ∧
  (text_against_numbers right left k ->
   text_against_numbers (drop_duplicates right on) left k).
Proof.
  intros Hwf Hk. split.
  - intros (Ht1 & Hn1 & Hn2 & Ht2). split; [done|]. split; [done|]. split.
    + by apply drop_duplicates_holds_number.
    + intros (r & i & s & Hr & Hi & Hs). apply Ht2. exists r, i, s.
      split; [by eapply drop_duplicates_rows|done].
  - intros (Ht1 & Hn1 & Hn2 & Ht2). split; [|split; [|done]].
    + by apply drop_duplicates_holds_text.
    + intros (r & i & z & Hr & Hi & Hz). apply Hn1. exists r, i, z.
      split; [by eapply drop_duplicates_rows|done].
Qed.

Lemma safe_merge_unfold left right keys suffixes :
  empty left = false -> empty right = false ->
  let existing_keys :=
    filter (fun k => has_column left k = true ∧ has_column right k = true) keys in
  existing_keys ≠ [] ->
  safe_merge left right keys suffixes =
    (merged ← merge_outer left (drop_duplicates right existing_keys) existing_keys
                          suffixes;
     if fanout (len left) (len merged)
     then Ok (merged, [fanout_warning (len left) (len merged)])
     else Ok (merged, [])).
Proof.
  intros Hl Hr ek Hek. unfold safe_merge. rewrite Hl, Hr.
  destruct keys as [|k keys]; [done|]. fold ek. by destruct ek.
Qed.

Lemma existing_keys_filter left right (keys : list string) :
  filter (fun k => k ∈ columns left ∧ k ∈ columns right) keys
  = filter (fun k => has_column left k = true ∧ has_column right k = true) keys.
Proof. apply list_filter_iff. intros k. by rewrite !has_column_true. Qed.


Lemma goals_table_wf : wf goals_table.
Proof. repeat constructor. Qed.

Lemma shots_table_wf : wf shots_table.
Proof. repeat constructor. Qed.


(** The merged table of the example: the second row for team [t1] of
    [shots_table] ("Arsenal FC", 99 shots) leaves no trace. *)
Example safe_merge_goals_shots :
  safe_merge goals_table shots_table ["Team ID"] default_suffixes
  = Ok (mkDF ["Team ID"; "Squad"; "Goals"; "Squad_duplicate"; "Shots"]
             [[CStr "t1"; CStr "Arsenal"; CNum 2; CStr "Arsenal"; CNum 10];
              [CStr "t2"; CStr "Chelsea"; CNum 3; CNA; CNA];
              [CStr "t3"; CNA; CNA; CStr "Everton"; CNum 7]],
        []).
Proof. reflexivity. Qed.

(** Two categories for one team end up in one row. *)
Example safe_merge_two_categories :
  let goals := mkDF ["Team ID"; "Goals"] [[CStr "t1"; CNum 2]] in
  let shots := mkDF ["Team ID"; "Shots"] [[CStr "t1"; CNum 10]] in
  (acc ← safe_merge empty_frame goals (get_merge_keys goals "team") default_suffixes;
   safe_merge (fst acc) shots (get_merge_keys shots "team") default_suffixes)
  = Ok (mkDF ["Team ID"; "Goals"; "Shots"] [[CStr "t1"; CNum 2; CNum 10]], []).
Proof. reflexivity. Qed.

(** Team identifiers against team numbers: the merge is refused. *)
Example safe_merge_text_against_numbers :
  safe_merge goals_table (mkDF ["Team ID"; "Shots"] [[CNum 1; CNum 10]]) ["Team ID"]
             default_suffixes
  = Raise ValueError.
Proof. reflexivity. Qed.

(** * Further properties of the script *)

(** ** The href pattern *)

Lemma app_cons a (s t : string) : String a s +:+ t = String a (s +:+ t).
Proof. reflexivity. Qed.

Lemma app_nil_l (s : string) : "" +:+ s = s.
Proof. reflexivity. Qed.

Lemma app_assoc_str (s t u : string) : (s +:+ t) +:+ u = s +:+ (t +:+ u).
Proof.
  induction s as [|a s IH]; [reflexivity|]. rewrite !app_cons. by rewrite IH.
Qed.

Lemma strip_prefix_spec p : forall s rest,
  strip_prefix p s = Some rest <-> s = p +:+ rest.
Proof.
  induction p as [|a p IH]; intros s rest; simpl.
  - rewrite app_nil_l. split; [by intros [= ->] | by intros ->].
  - destruct s as [|b s]; [split; [done | intros H; discriminate H]|].
    rewrite app_cons. destruct (Ascii.eqb_spec a b) as [->|Hne].
    + rewrite IH. split; [by intros -> | by intros [= ->]].
    + split; [done | intros [= ? ?]; congruence].
Qed.

Lemma span_spec p : forall s h t,
  span p s = (h, t) ->
  s = h +:+ t ∧ string_forall p h = true ∧
  match t with String a _ => p a = false | EmptyString => True end.
Proof.
  induction s as [|a s IH]; intros h t; simpl.
  - by intros [= <- <-].
  - destruct (p a) eqn:Hp.
    + destruct (span p s) as [h' t'] eqn:Hs. intros [= <- <-].
      destruct (IH h' t' eq_refl) as (-> & Hall & Ht).
      rewrite app_cons. simpl. by rewrite Hp, Hall.
    + intros [= <- <-]. by rewrite app_nil_l.
Qed.

Lemma span_app p : forall h t,
  string_forall p h = true ->
  match t with String a _ => p a = false | EmptyString => True end ->
  span p (h +:+ t) = (h, t).
Proof.
  induction h as [|a h IH]; intros t Hall Ht.
  - rewrite app_nil_l. destruct t as [|b t]; [done|]. simpl. by rewrite Ht.
  - simpl in Hall. apply andb_true_iff in Hall as [Ha Hall].
    rewrite app_cons. simpl. rewrite Ha. by rewrite (IH t Hall Ht).
Qed.

Lemma match_here_spec collection s id :
  match_here collection s = Some id <->
  hex_id id ∧ exists post, s = ("/en/" +:+ collection +:+ "/") +:+ id +:+ "/" +:+ post.
Proof.
  unfold match_here, hex_id. split.
  - destruct (strip_prefix _ s) as [rest|] eqn:Hp; [|done].
    apply strip_prefix_spec in Hp as ->.
    destruct (span is_hex rest) as [h t] eqn:Hs.
    destruct (span_spec _ _ _ _ Hs) as (-> & Hall & Ht).
    destruct h as [|a h]; [done|]. destruct t as [|b t]; [done|].
    destruct (Ascii.eqb_spec b "/") as [->|Hne].
    + intros [= <-]. split; [done|]. by exists t.
    + intros H. exfalso. revert H.
      destruct b as [[] [] [] [] [] [] [] []]; done.
  - intros ((Hne & Hall) & post & ->).
    assert (Hp : strip_prefix ("/en/" +:+ collection +:+ "/")
                   (("/en/" +:+ collection +:+ "/") +:+ (id +:+ "/" +:+ post))
                 = Some (id +:+ "/" +:+ post)) by (by apply strip_prefix_spec).
    rewrite Hp.
    rewrite (span_app is_hex id ("/" +:+ post) Hall) by done.
    destruct id as [|a id]; [done|]. reflexivity.
Qed.

(** X1: an identifier found by the pattern search is never empty,
    consists of the characters 0-9 and a-f only, and stands in the searched
    text between "/en/<collection>/" and a slash. *)
Theorem re_search_sound (collection s id : string) :
  re_search collection s = Some id ->
  hex_id id ∧ href_occurrence collection s id.
Proof.
  revert id. induction s as [|a s IH]; intros id; simpl.
  - done.
  - destruct (match_here collection (String a s)) as [id'|] eqn:Hm.
    + intros [= <-]. apply match_here_spec in Hm as [Hhex [post Hs]].
      split; [done|]. exists "", post. by rewrite app_nil_l.
    + intros Hr. destruct (IH id Hr) as [Hhex (pre & post & ->)].
      split; [done|]. exists (String a pre), post. by rewrite !app_cons.
Qed.

Lemma re_search_sound_witness :
  hex_id "e46012d4" ∧
  href_occurrence "players" "https://fbref.com/en/players/e46012d4/Kevin" "e46012d4".
Proof.
  apply (re_search_sound "players" "https://fbref.com/en/players/e46012d4/Kevin").
  reflexivity.
Defined.

Lemma re_search_None_here collection s :
  re_search collection s = None -> match_here collection s = None.
Proof.
  destruct (match_here collection s) as [id|] eqn:Hm; [|done].
  destruct s as [|a s]; [|simpl; by rewrite Hm].
  unfold match_here in Hm. rewrite app_cons in Hm. discriminate Hm.
Qed.

Lemma re_search_None_suffix collection pre : forall t,
  re_search collection (pre +:+ t) = None -> re_search collection t = None.
Proof.
  induction pre as [|a pre IH]; intros t; [by rewrite app_nil_l|].
  rewrite app_cons. simpl.
  destruct (match_here collection (String a (pre +:+ t))); [done|]. apply IH.
Qed.

(** X2: the search fails exactly when the text contains no occurrence of
    "/en/<collection>/", a non-empty run of hex digits and a slash. *)
Theorem re_search_complete (collection s : string) :
  re_search collection s = None <->
  forall id, hex_id id -> ¬ href_occurrence collection s id.
Proof.
  split.
  - intros Hnone id Hhex (pre & post & ->).
    apply re_search_None_suffix, re_search_None_here in Hnone.
    assert (Hm : match_here collection
                   (("/en/" +:+ collection +:+ "/") +:+ id +:+ "/" +:+ post)
                 = Some id).
    { apply match_here_spec. split; [done|]. by exists post. }
    rewrite Hm in Hnone. discriminate Hnone.
  - intros Hno. destruct (re_search collection s) as [id|] eqn:Hr; [|done].
    apply re_search_sound in Hr as [Hhex Hocc]. by destruct (Hno id).
Qed.

(** ** Identifier extraction *)

Lemma cell_link_id_hex collection cell id :
  cell_link_id collection cell = Some id -> hex_id id.
Proof.
  unfold cell_link_id. destruct cell as [c|]; [|done].
  destruct (find ["a"] [] c) as [link|]; [|done].
  intros H. by apply re_search_sound in H as [? _].
Qed.

Lemma hex_id_truthy id : hex_id id -> truthy (Some id) = true.
Proof. intros [Hne _]. by apply str_truthy_true. Qed.

Lemma id_map_of_hex (l : list assoc) :
  Forall (fun r => (forall pid, fst r = Some pid -> hex_id pid) ∧
                   (forall tid, snd r = Some tid -> hex_id tid)) l ->
  id_map_of l = spec_id_map l.
Proof.
  unfold id_map_of, spec_id_map. intros Hall.
  generalize (∅ : gmap string string).
  induction Hall as [|[pid tid] l [Hp Ht] _ IH]; intros m; [done|].
  simpl. rewrite <- IH. f_equal.
  destruct pid as [p|], tid as [t|]; simpl; try done; [|by rewrite andb_false_r].
  pose proof (hex_id_truthy p (Hp p eq_refl)) as H1.
  pose proof (hex_id_truthy t (Ht t eq_refl)) as H2.
  simpl in H1, H2. by rewrite H1, H2.
Qed.

(** X3: every identifier that [extract_player_team_ids_from_soup] returns
    is a non-empty string of hex digits, so on its output the truthiness
    test of the fallback map of [add_team_id_to_player_df] drops nothing:
    the map holds every pair with both identifiers present. *)
Theorem extracted_pairs_are_hex (soup_table : option Tag) :
  let rows_data := extract_player_team_ids_from_soup soup_table in
  Forall (fun r => (forall pid, fst r = Some pid -> hex_id pid) ∧
                   (forall tid, snd r = Some tid -> hex_id tid)) rows_data ∧
  id_map_of (valid_rows_of rows_data) = spec_id_map rows_data ∧
  (forall pid tid, (Some pid, Some tid) ∈ rows_data -> valid_pair rows_data pid tid).
Proof.
  intros rows_data.
  assert (Hhex : Forall (fun r => (forall pid, fst r = Some pid -> hex_id pid) ∧
                                  (forall tid, snd r = Some tid -> hex_id tid))
                        rows_data).
  { subst rows_data. unfold extract_player_team_ids_from_soup.
    destruct soup_table as [table|]; [|constructor].
    destruct (find ["tbody"] [] table) as [tbody|]; [|constructor].
    apply Forall_forall. intros r Hr.
    apply list_elem_of_fmap in Hr as (t & -> & _). unfold row_pair; simpl.
    split; intros id Hid; by apply cell_link_id_hex in Hid. }
  split; [done|]. split.
  - rewrite id_map_of_valid_rows. by apply id_map_of_hex.
  - intros pid tid Hin. rewrite Forall_forall in Hhex.
    destruct (Hhex _ Hin) as [Hp Ht]. simpl in *.
    destruct (Hp pid eq_refl) as [? _]. destruct (Ht tid eq_refl) as [? _]. done.
Qed.

Lemma record_id_entry collection id_map td :
  record_id collection id_map td
  = Ok (match cell_entry collection td with
        | Some (name, entity_id) => <[name := entity_id]> id_map
        | None => id_map
        end).
Proof.
  unfold record_id, cell_entry. destruct (find ["a"] [] td) as [link|]; [|done].
  simpl. destruct (truthy (tag_get link "href")) eqn:Ht.
  - unfold tag_getitem. destruct (tag_get link "href") as [href|]; [|done].
    simpl. by destruct (re_search collection href).
  - by rewrite (truthy_false_search _ _ Ht).
Qed.

Lemma record_ids_foldl collection cells : forall id_map,
  foldM (record_id collection) id_map cells
  = Ok (foldl (entry_step collection) id_map cells).
Proof.
  induction cells as [|td cells IH]; intros id_map; [done|].
  simpl. rewrite record_id_entry. simpl. apply IH.
Qed.

Lemma entry_fold_lookup collection cells : forall m name,
  (forall c id, c ∈ cells -> cell_entry collection c ≠ Some (name, id)) ->
  foldl (entry_step collection) m cells !! name = m !! name.
Proof.
  induction cells as [|td cells IH]; intros m name Hno; [done|].
  simpl. rewrite IH by (intros c id Hc; apply Hno; by right).
  unfold entry_step. destruct (cell_entry collection td) as [[n i]|] eqn:He; [|done].
  destruct (decide (n = name)) as [->|Hne]; [|by rewrite lookup_insert_ne].
  destruct (Hno td i); [by left | done].
Qed.

Lemma entry_fold_dom collection cells : forall m name,
  is_Some (foldl (entry_step collection) m cells !! name) <->
  is_Some (m !! name) ∨
  exists c id, c ∈ cells ∧ cell_entry collection c = Some (name, id).
Proof.
  induction cells as [|td cells IH]; intros m name; simpl.
  - split; [by left | intros [?|(c & id & Hc & _)]; [done | inversion Hc]].
  - rewrite IH. unfold entry_step at 1.
    destruct (cell_entry collection td) as [[n i]|] eqn:He.
    + rewrite lookup_insert. split.
      * intros [Hs|(c & id & Hc & Hce)].
        -- case_decide as Hn; [subst; right; exists td, i; split; [by left|done] | by left].
        -- right. exists c, id. split; [by right|done].
      * intros [Hs|(c & id & Hc & Hce)].
        -- left. case_decide; [by eexists | done].
        -- apply elem_of_cons in Hc as [->|Hc].
           ++ left. rewrite He in Hce. injection Hce as -> ->.
              rewrite decide_True by done. by eexists.
           ++ right. by exists c, id.
    + split.
      * intros [?|(c & id & Hc & Hce)]; [by left|]. right. exists c, id.
        split; [by right|done].
      * intros [?|(c & id & Hc & Hce)]; [by left|].
        apply elem_of_cons in Hc as [->|Hc]; [congruence|]. right. by exists c, id.
Qed.

Lemma entry_fold_hex collection cells : forall m name id,
  foldl (entry_step collection) m cells !! name = Some id ->
  m !! name = Some id ∨ hex_id id.
Proof.
  induction cells as [|td cells IH]; intros m name id; simpl; [by left|].
  intros H. apply IH in H as [H|H]; [|by right].
  unfold entry_step in H. destruct (cell_entry collection td) as [[n i]|] eqn:He;
    [|by left].
  destruct (decide (n = name)) as [->|Hne]; [|rewrite lookup_insert_ne in H; auto].
  rewrite lookup_insert_eq in H. injection H as <-. right.
  unfold cell_entry in He. destruct (find ["a"] [] td) as [link|]; [|done].
  simpl in He. destruct (re_search collection _) as [i'|] eqn:Hr; [|done].
  injection He as _ <-. by apply re_search_sound in Hr as [? _].
Qed.

(** X4: the name map of [extract_ids_from_soup] has exactly the trimmed
    link texts of the relevant cells with a matching first link as keys;
    every value is a non-empty string of hex digits; and when several
    cells give the same name, the identifier of the last one in document
    order is kept. *)
Theorem extract_ids_from_soup_entries (table : Tag) (id_type : string) :
  let cells := relevant_cells id_type table in
  let collection := collection_of id_type in
  exists m,
    extract_ids_from_soup (Some table) id_type = Ok m ∧
    (forall name, is_Some (m !! name) <->
       exists c id, c ∈ cells ∧ cell_entry collection c = Some (name, id)) ∧
    (forall name id, m !! name = Some id -> hex_id id) ∧
    (forall pre cell post name id,
       cells = pre ++ cell :: post ->
       cell_entry collection cell = Some (name, id) ->
       (forall c id', c ∈ post -> cell_entry collection c ≠ Some (name, id')) ->
       m !! name = Some id).
Proof.
  intros cells collection. rewrite extract_ids_from_soup_unfold, record_ids_foldl.
  fold cells collection. eexists. split; [reflexivity|]. split; [|split].
  - intros name. rewrite entry_fold_dom. split; [|by right].
    intros [Hs|?]; [|done]. rewrite lookup_empty in Hs. by destruct Hs.
  - intros name id H. apply entry_fold_hex in H as [H|H]; [|done].
    by rewrite lookup_empty in H.
  - intros pre cell post name id -> He Hpost.
    rewrite foldl_app. cbn [foldl]. rewrite entry_fold_lookup by done.
    unfold entry_step at 1. rewrite He. apply lookup_insert_eq.
Qed.

(** The name is trimmed as [str.strip] does: a no-break space after the
    link text does not enter the key. *)
Example strip_no_break_space :
  strip (" " +:+ nbsp +:+ "Arsenal" +:+ nbsp +:+ " ") = "Arsenal".
Proof. reflexivity. Qed.

Example extract_ids_trims_no_break_space :
  extract_ids_from_soup
    (Some (Element "table" ∅
             [data_cell "th" "team"
                [anchor "/en/squads/18bb7c10/Arsenal-Stats" ("Arsenal" +:+ nbsp)]]))
    "squad"
  = Ok {["Arsenal" := "18bb7c10"]}.
Proof. vm_compute. reflexivity. Qed.

(** ** Assigning a column leaves the rest of the table alone *)

Lemma set_cells_length cols name v (r : list cell) :
  length r = length cols -> length (set_cells cols name v r) = length cols.
Proof. intros H. unfold set_cells. rewrite length_zip_with. lia. Qed.

Lemma set_cells_other cols name v (r : list cell) j c :
  cols !! j = Some c -> c ≠ name ->
  cell_at (set_cells cols name v r) j = cell_at r j.
Proof.
  intros Hc Hne. unfold cell_at, set_cells. rewrite lookup_zip_with, Hc. simpl.
  destruct (r !! j) as [x|]; simpl; [|done]. by rewrite decide_False.
Qed.

Lemma zip_with_rows_Forall (f : cell -> list cell -> list cell) (P : list cell -> Prop) :
  forall vals rows,
    Forall (fun r => forall v, P (f v r)) rows ->
    Forall P (zip_with f vals rows).
Proof.
  induction vals as [|v vals IH]; intros [|r rows] H; simpl; try constructor.
  - apply Forall_cons in H as [Hr _]. apply Hr.
  - apply Forall_cons in H as [_ H]. by apply IH.
Qed.

Lemma zip_with_rows_column (f : cell -> list cell -> list cell) j :
  forall vals rows,
    length vals = length rows ->
    Forall (fun r => forall v, cell_at (f v r) j = cell_at r j) rows ->
    map (fun r => cell_at r j) (zip_with f vals rows) = map (fun r => cell_at r j) rows.
Proof.
  induction vals as [|v vals IH]; intros [|r rows] Hlen H; simpl in *; try done.
  apply Forall_cons in H as [Hr H]. rewrite Hr. f_equal. apply IH; [lia|done].
Qed.

(** A successful assignment keeps the shape of the table, the labels
    and cells of every other column, and adds at most the assigned label at
    the end. *)
Lemma setitem_frame df name vals df' :
  wf df -> length vals = len df -> setitem df name vals = Ok df' ->
  wf df' ∧ len df' = len df ∧
  (columns df' = columns df ∨ columns df' = columns df ++ [name]) ∧
  forall j c, columns df !! j = Some c -> c ≠ name ->
    columns df' !! j = Some c ∧ column_at df' j = column_at df j.
Proof.
  intros Hwf Hlen. destruct (decide (across df name vals)) as [Ha|Ha].
  - rewrite setitem_across by done. intros [= <-].
    unfold wf, len, column_at in *. simpl. split; [|split; [|split]].
    + apply Forall_fmap. eapply Forall_impl; [exact Hwf|].
      intros r Hr. simpl in *. by apply set_cells_across_length.
    + by rewrite length_map.
    + by left.
    + intros j c Hj Hne. split; [done|]. rewrite map_map.
      apply map_ext. intros r. by eapply set_cells_across_other.
  - rewrite setitem_plain by done. unfold wf, len, column_at in *.
    destruct (has_column df name) eqn:Hc; intros [= <-]; simpl.
    + split; [|split; [|split]].
      * apply zip_with_rows_Forall. eapply Forall_impl; [exact Hwf|].
        intros r Hr v. simpl in Hr. by apply set_cells_length.
      * rewrite length_zip_with. lia.
      * by left.
      * intros j c Hj Hne. split; [done|].
        apply zip_with_rows_column; [done|]. apply Forall_forall.
        intros r _ v. by eapply set_cells_other.
    + split; [|split; [|split]].
      * apply zip_with_rows_Forall. eapply Forall_impl; [exact Hwf|].
        intros r Hr v. simpl in Hr. rewrite !length_app. simpl. lia.
      * rewrite length_zip_with. lia.
      * by right.
      * intros j c Hj Hne. split; [by apply lookup_app_l_Some|].
        apply zip_with_rows_column; [done|]. eapply Forall_impl; [exact Hwf|].
        intros r Hr v. simpl in Hr. unfold cell_at. rewrite lookup_app_l; [done|].
        rewrite Hr. by eapply lookup_lt_Some.
Qed.

(** ** add_ids_to_dataframe *)

(** X5: [add_ids_to_dataframe] returns the table untouched when the name
    map is empty or the name column is absent.  Otherwise, with one name
    column, it returns a table of the same row count to whose label
    [id_col] the list of the identifiers of the rows' names is assigned, a
    missing value standing where the name is not in the map: every column
    labelled [id_col] holds this list, unless the table has several
    columns labelled [id_col], as many as it has rows, the i-th of which
    then holds the i-th identifier in every row.  Every other column is as
    before. *)
Theorem add_ids_to_dataframe_spec (df : DataFrame) (id_map : gmap string string)
    (name_col id_col : string) :
  wf df ->
  ((id_map = ∅ ∨ name_col ∉ columns df) ->
   add_ids_to_dataframe df id_map name_col id_col = Ok df) ∧
  (id_map ≠ ∅ -> forall p, positions name_col (columns df) = [p] ->
   exists df',
     add_ids_to_dataframe df id_map name_col id_col = Ok df' ∧
     wf df' ∧
     column_assigned df id_col (map (map_cell id_map) (column_at df p)) df' ∧
     (forall j c, columns df !! j = Some c -> c ≠ id_col ->
        columns df' !! j = Some c ∧ column_at df' j = column_at df j)).
Proof.
  intros Hwf. unfold add_ids_to_dataframe. split.
  - intros [->|Hno].
    + by rewrite bool_decide_eq_true_2.
    + apply has_column_false in Hno. rewrite Hno. simpl. by rewrite orb_true_r.
  - intros Hne p Hp.
    rewrite bool_decide_eq_false_2 by done.
    assert (Hin : has_column df name_col = true).
    { apply has_column_true, list_elem_of_lookup. exists p.
      apply positions_spec. rewrite Hp. by left. }
    rewrite Hin. simpl. unfold getitem. rewrite Hp. simpl.
    set (vals := map (map_cell id_map) (column_at df p)).
    assert (Hlen : length vals = len df)
      by (unfold vals, column_at, len; by rewrite !length_map).
    destruct (setitem_assigned df id_col vals Hwf Hlen) as (df' & Hset & Hassigned).
    destruct (setitem_frame df id_col vals df' Hwf Hlen Hset) as (Hwf' & _ & _ & Hother).
    exists df'. split; [exact Hset|]. split; [done|]. split; [done|exact Hother].
Qed.

(** A map with one entry gives the Player ID column one identifier; on a
    table with two rows and two columns labelled Team ID, the first of
    these columns holds the identifier of the first row in both rows. *)
Lemma add_ids_to_dataframe_spec_witness :
  add_ids_to_dataframe players_abc ∅ "Player" "Player ID" = Ok players_abc ∧
  (exists df',
     add_ids_to_dataframe players_abc {["B" := "b0b0"]} "Player" "Player ID" = Ok df' ∧
     len df' = len players_abc ∧
     column_at df' 1 = [CNA; CStr "b0b0"; CNA] ∧
     column_at df' 0 = column_at players_abc 0) ∧
  (exists df',
     add_ids_to_dataframe two_team_columns {["a1" := "x"]} "Player ID" "Team ID" = Ok df' ∧
     column_at df' 1 = [CStr "x"; CStr "x"] ∧ column_at df' 2 = [CNA; CNA]).
Proof.
  destruct (add_ids_to_dataframe_spec players_abc ∅ "Player" "Player ID"
              players_abc_wf) as [Hsame _].
  destruct (add_ids_to_dataframe_spec players_abc {["B" := "b0b0"]} "Player" "Player ID"
              players_abc_wf) as [_ Hset].
  destruct (add_ids_to_dataframe_spec two_team_columns {["a1" := "x"]}
              "Player ID" "Team ID" two_team_columns_wf) as [_ Htwo].
  split; [apply Hsame; by left|]. split.
  - destruct (Hset (insert_non_empty _ _ _) 0 eq_refl)
      as (df' & Hrun & _ & (Hlen & _ & Hid & _) & Hother).
    exists df'. split; [done|]. split; [done|]. split.
    + rewrite (Hid ltac:(simpl; lia) 1); [reflexivity|].
      vm_compute in Hrun. injection Hrun as <-. reflexivity.
    + by destruct (Hother 0 "Player" eq_refl) as [_ ->].
  - destruct (Htwo (insert_non_empty _ _ _) 0 eq_refl)
      as (df' & Hrun & _ & (_ & _ & _ & Hacross) & _).
    exists df'. split; [done|]. split.
    + apply (Hacross ltac:(simpl; lia) eq_refl 0 1 (CStr "x")); reflexivity.
    + apply (Hacross ltac:(simpl; lia) eq_refl 1 2 CNA); reflexivity.
Defined.

(** ** add_team_id_to_player_df: what it leaves alone *)

(** X6: [add_team_id_to_player_df] raises only on the lookup path with
    more than one column labelled "Player ID".  Whenever it returns, the
    row count is the same, every column other than "Team ID" keeps its
    label, position and cells, and at most one column, labelled "Team ID",
    is added at the end. *)
Theorem add_team_id_to_player_df_frame (df : DataFrame) (rows_data : list assoc) :
  wf df ->
  (forall e, add_team_id_to_player_df df rows_data = Raise e ->
     length (valid_rows_of rows_data) ≠ len df ∧
     2 <= length (positions "Player ID" (columns df))) ∧
  (forall df', add_team_id_to_player_df df rows_data = Ok df' ->
     wf df' ∧ len df' = len df ∧
     (columns df' = columns df ∨ columns df' = columns df ++ ["Team ID"]) ∧
     forall j c, columns df !! j = Some c -> c ≠ "Team ID" ->
       columns df' !! j = Some c ∧ column_at df' j = column_at df j).
Proof.
  intros Hwf.
  assert (Hid : forall df', Ok df = Ok df' ->
     wf df' ∧ len df' = len df ∧
     (columns df' = columns df ∨ columns df' = columns df ++ ["Team ID"]) ∧
     forall j c, columns df !! j = Some c -> c ≠ "Team ID" ->
       columns df' !! j = Some c ∧ column_at df' j = column_at df j).
  { intros df' [= <-]. repeat split; auto. }
  unfold add_team_id_to_player_df.
  destruct rows_data as [|r0 rows]; [split; [done | exact Hid]|].
  set (rows_data := r0 :: rows).
  destruct (decide (length (valid_rows_of rows_data) ≠ len df)) as [Hlen|Hlen].
  - destruct (has_column df "Player ID") eqn:Hc; [|split; [done | exact Hid]].
    unfold getitem.
    destruct (positions "Player ID" (columns df)) as [|p [|p' ps]] eqn:Hpos.
    + apply has_column_true in Hc. by apply positions_nil in Hpos.
    + simpl. set (vals := map _ (column_at df p)).
      assert (Hl : length vals = len df)
        by (unfold vals, column_at, len; by rewrite !length_map).
      split.
      * intros e He. destruct (setitem_returns df "Team ID" vals Hl) as (? & Hs).
        exfalso. enough (Ok x = Raise e) by done. rewrite <- Hs. exact He.
      * intros df' Hs. apply (setitem_frame df "Team ID" vals); [done|done|exact Hs].
    + simpl. split; [|done]. intros e _. split; [done|]. simpl. lia.
  - set (vals := map (fun r : assoc => opt_cell (snd r)) (valid_rows_of rows_data)).
    assert (Hl : length vals = len df).
    { unfold vals. rewrite length_map. by destruct (decide (length (valid_rows_of rows_data) = len df)); [|destruct Hlen]. }
    split.
    + intros e He. destruct (setitem_returns df "Team ID" vals Hl) as (? & Hs).
      exfalso. enough (Ok x = Raise e) by done. rewrite <- Hs. exact He.
    + intros df' Hs. apply (setitem_frame df "Team ID" vals); [done|done|exact Hs].
Qed.

Lemma add_team_id_to_player_df_frame_witness :
  exists df', add_team_id_to_player_df players_abc assoc_transfer = Ok df' ∧
    wf df' ∧ len df' = len players_abc ∧
    (columns df' = columns players_abc ∨
     columns df' = columns players_abc ++ ["Team ID"]).
Proof.
  destruct (add_team_id_to_player_df players_abc assoc_transfer) as [df'|e] eqn:Hrun.
  - exists df'. split; [done|].
    destruct (add_team_id_to_player_df_frame players_abc assoc_transfer players_abc_wf)
      as [_ Hok].
    destruct (Hok df' Hrun) as (Hwf & Hlen & Hcols & _). by repeat split.
  - exfalso. vm_compute in Hrun. discriminate.
Defined.

(** ** flatten_multiindex_columns: repeated header rows and header depth *)

Lemma select_rows_filter df (f : cell -> bool) p :
  select_rows df (map f (column_at df p))
  = mkDF (columns df) (filter (fun r => f (cell_at r p) = true) (values df)).
Proof.
  unfold select_rows, column_at. f_equal.
  induction (values df) as [|r rows IH]; [done|].
  simpl. rewrite !filter_cons. simpl.
  destruct (f (cell_at r p)); simpl; by rewrite IH.
Qed.

(** X7: under a header of tuples, when no resulting name is "Rk" the
    rows are kept as they are; when exactly one resulting name is "Rk",
    the rows returned are the rows whose cell in that column is not the
    string "Rk", in their original order, so no repeated header row is
    left. *)
Theorem flatten_drops_header_rows (where_rk : DataFrame -> result (list row))
    (tuples : list (list string)) (rows : list (list cell)) (names : list string) :
  mapM new_col_name tuples = Ok names ->
  ("Rk" ∉ names ->
   flatten_multiindex_columns where_rk (mkPF (MultiIndex tuples) rows)
   = Ok (mkDF names rows)) ∧
  (forall p, positions "Rk" names = [p] ->
   flatten_multiindex_columns where_rk (mkPF (MultiIndex tuples) rows)
     = Ok (mkDF names (filter (fun r => cell_ne_str "Rk" (cell_at r p) = true) rows)) ∧
   Forall (fun r => cell_at r p ≠ CStr "Rk")
          (filter (fun r => cell_ne_str "Rk" (cell_at r p) = true) rows)).
Proof.
  intros Hnames. unfold flatten_multiindex_columns. simpl. rewrite Hnames. simpl.
  split.
  - intros Hno.
    assert (Hc : has_column (mkDF names rows) "Rk" = false)
      by (by apply has_column_false).
    by rewrite Hc.
  - intros p Hp.
    assert (Hin : has_column (mkDF names rows) "Rk" = true).
    { apply has_column_true, list_elem_of_lookup. exists p. simpl.
      apply positions_spec. rewrite Hp. by left. }
    rewrite Hin. simpl. rewrite Hp.
    split; [by rewrite (select_rows_filter (mkDF names rows))|].
    apply Forall_forall. intros r Hr. apply list_elem_of_filter in Hr as [Hr _].
    intros Heq. by rewrite Heq in Hr.
Qed.

Lemma flatten_drops_header_rows_witness :
  flatten_multiindex_columns where_keep parsed_shooting
  = Ok (mkDF ["Rk"; "Player"; "Performance Gls"; "Per 90 Minutes Gls"]
             (filter (fun r => cell_ne_str "Rk" (cell_at r 0) = true)
                     (pf_values parsed_shooting))) ∧
  Forall (fun r => cell_at r 0 ≠ CStr "Rk")
         (filter (fun r => cell_ne_str "Rk" (cell_at r 0) = true)
                 (pf_values parsed_shooting)).
Proof.
  destruct (flatten_drops_header_rows where_keep
              [["Unnamed: 0_level_0"; "Rk"]; ["Unnamed: 1_level_0"; "Player"];
               ["Performance"; "Gls"]; ["Per 90 Minutes"; "Gls"]]
              (pf_values parsed_shooting)
              ["Rk"; "Player"; "Performance Gls"; "Per 90 Minutes Gls"] eq_refl)
    as [_ H].
  apply (H 0). reflexivity.
Defined.

Lemma new_col_name_short col :
  length col < 2 -> new_col_name col = Raise IndexError.
Proof.
  destruct col as [|g [|s rest]]; simpl; try lia; intros _; reflexivity.
Qed.

(** X8: only the first two levels of a header tuple enter the new name,
    whatever the depth of the header; a header whose tuples have fewer than
    two levels makes the function raise IndexError. *)
Theorem flatten_header_depth (where_rk : DataFrame -> result (list row))
    (tuples : list (list string)) (rows : list (list cell)) :
  (Forall (fun col => 2 <= length col) tuples ->
   mapM new_col_name tuples
   = Ok (map (fun col => strip (spec_flat_name (group_label col) (sub_label col)))
             tuples)) ∧
  (Exists (fun col => length col < 2) tuples ->
   flatten_multiindex_columns where_rk (mkPF (MultiIndex tuples) rows)
   = Raise IndexError).
Proof.
  split.
  - induction 1 as [|col tuples Hcol _ IH]; [done|].
    simpl. rewrite new_col_name_levels by done. simpl. by rewrite IH.
  - intros Hex. unfold flatten_multiindex_columns. simpl.
    assert (Hm : mapM new_col_name tuples = Raise IndexError); [|by rewrite Hm].
    induction tuples as [|col tuples IH]; [by apply Exists_nil in Hex|].
    simpl. destruct (decide (length col < 2)) as [Hs|Hl].
    + by rewrite new_col_name_short.
    + rewrite new_col_name_levels by lia. simpl.
      apply Exists_cons in Hex as [?|Hex]; [done|]. by rewrite IH.
Qed.

Lemma flatten_header_depth_witness :
  mapM new_col_name [["Performance"; "Gls"; "per match"]; ["Unnamed: 1"; "Squad"; "x"]]
  = Ok ["Performance Gls"; "Squad"] ∧
  flatten_multiindex_columns where_keep
    (mkPF (MultiIndex [["Rk"]; ["Player"]]) [[CNum 1; CStr "A"]])
  = Raise IndexError.
Proof.
  split.
  - destruct (flatten_header_depth where_keep
                [["Performance"; "Gls"; "per match"]; ["Unnamed: 1"; "Squad"; "x"]] [])
      as [H _].
    apply H. repeat constructor.
  - destruct (flatten_header_depth where_keep [["Rk"]; ["Player"]] [[CNum 1; CStr "A"]])
      as [_ H].
    apply H. left. simpl. lia.
Defined.

(** ** get_merge_keys: what the keys are *)

Ltac not_in_literal_list :=
  let H := fresh "Hin" in
  intros H; repeat (apply elem_of_cons in H as [H|H]; [discriminate H|]); inversion H.

(** X9: whatever the table and the kind, the keys returned are labels
    of the table, pairwise distinct and at most two; a kind other than
    "team" and "player" gives no key. *)
Theorem get_merge_keys_in_columns (df : DataFrame) (data_type : string) :
  Forall (fun k => k ∈ columns df) (get_merge_keys df data_type) ∧
  NoDup (get_merge_keys df data_type) ∧
  length (get_merge_keys df data_type) <= 2 ∧
  (data_type ≠ "team" -> data_type ≠ "player" -> get_merge_keys df data_type = []).
Proof.
  unfold get_merge_keys.
  destruct (decide (data_type = "team")) as [->|Ht];
    [|destruct (decide (data_type = "player")) as [->|Hp]].
  - destruct (has_column df "Team ID") eqn:H1; [|destruct (has_column df "Squad") eqn:H2];
      rewrite ?has_column_true in *; simpl;
      repeat split; try done; try lia; repeat constructor; auto; not_in_literal_list.
  - destruct (has_column df "Player ID") eqn:H1; destruct (has_column df "Team ID") eqn:H2;
      [| | |destruct (has_column df "Player") eqn:H3; destruct (has_column df "Squad") eqn:H4];
      rewrite ?has_column_true in *; simpl;
      repeat split; try done; try lia; repeat constructor; auto; not_in_literal_list.
  - repeat split; try done; try constructor. simpl. lia.
Qed.

(** ** The merge keys come from the new table only *)

Lemma merge_into_no_shared_key acc temp data_type :
  empty acc = false ->
  Forall (fun k => k ∉ columns acc) (get_merge_keys temp data_type) ->
  merge_into acc temp data_type = Ok (acc, []).
Proof.
  intros Hacc Hno. unfold merge_into.
  destruct (empty temp) eqn:Ht; simpl; [done|].
  destruct (safe_merge_degenerate acc temp (get_merge_keys temp data_type)
              default_suffixes) as (_ & _ & H).
  apply H; try done. eapply Forall_impl; [exact Hno|]. by intros k Hk [? _].
Qed.

(** X10: the driver resolves the keys on the new table alone.  When a
    team table carries a "Team ID" column and the non-empty accumulator
    does not, the accumulator is returned unchanged and the table's data is
    dropped, even if both have a "Squad" column. *)
Theorem merge_into_team_id_only_in_new (acc temp : DataFrame) :
  empty acc = false -> "Team ID" ∈ columns temp -> "Team ID" ∉ columns acc ->
  get_merge_keys temp "team" = ["Team ID"] ∧
  merge_into acc temp "team" = Ok (acc, []).
Proof.
  intros Hacc Hin Hno.
  assert (Hk : get_merge_keys temp "team" = ["Team ID"]).
  { unfold get_merge_keys. simpl. apply has_column_true in Hin. by rewrite Hin. }
  split; [done|]. apply merge_into_no_shared_key; [done|].
  rewrite Hk. by repeat constructor.
Qed.

Lemma merge_into_team_id_only_in_new_witness :
  get_merge_keys goals_table "team" = ["Team ID"] ∧
  merge_into (mkDF ["Squad"; "Age"] [[CStr "Arsenal"; CNum 25]]) goals_table "team"
  = Ok (mkDF ["Squad"; "Age"] [[CStr "Arsenal"; CNum 25]], []).
Proof.
  apply (merge_into_team_id_only_in_new
           (mkDF ["Squad"; "Age"] [[CStr "Arsenal"; CNum 25]]) goals_table).
  - reflexivity.
  - simpl. by left.
  - simpl. not_in_literal_list.
Defined.

(** ** safe_merge: how many rows come out *)

Lemma safe_merge_inv left right keys merged out :
  empty left = false -> empty right = false -> shared_keys left right keys ≠ [] ->
  safe_merge left right keys default_suffixes = Ok (merged, out) ->
  merge_outer left (drop_duplicates right (shared_keys left right keys))
              (shared_keys left right keys) default_suffixes = Ok merged ∧
  out = if fanout (len left) (len merged)
        then [fanout_warning (len left) (len merged)] else [].
Proof.
  intros Hl Hr Hek. rewrite safe_merge_unfold by done.
  fold (shared_keys left right keys).
  destruct (merge_outer _ _ _ _) as [m|e]; [|done]. simpl.
  destruct (fanout (len left) (len m)) eqn:Hf; intros [= <- <-]; by rewrite Hf.
Qed.

Lemma filter_key_at_most_one {A B} `{EqDecision B} (g : A -> B) (k : B) (l : list A) :
  NoDup (map g l) -> length (filter (fun r => g r = k) l) <= 1.
Proof.
  induction l as [|a l IH]; intros Hnd; [simpl; lia|].
  simpl in Hnd. apply NoDup_cons in Hnd as [Hnot Hnd].
  rewrite filter_cons. destruct (decide (g a = k)) as [Hk|Hk]; [|by apply IH].
  assert (Hnil : filter (fun r => g r = k) l = []).
  { destruct (filter (fun r => g r = k) l) as [|b bs] eqn:Hf; [done|].
    assert (Hb : b ∈ filter (fun r => g r = k) l) by (rewrite Hf; by left).
    apply list_elem_of_filter in Hb as [Hgb Hb]. destruct Hnot.
    apply list_elem_of_fmap. exists b. split; [congruence|done]. }
  rewrite Hnil. simpl. lia.
Qed.

Lemma joined_rows_length_ge lcols rcols on lrows rrows :
  length lrows <= length (joined_rows lcols rcols on lrows rrows).
Proof.
  unfold joined_rows. induction lrows as [|l lrows IH]; [simpl; lia|].
  rewrite bind_cons, length_app.
  match goal with |- context [length (lrows ≫= ?f)] =>
    set (n := length (lrows ≫= f)) in * end.
  destruct (filter _ rrows) as [|m ms]; simpl; lia.
Qed.

Lemma joined_rows_length_eq lcols rcols on lrows rrows :
  NoDup (map (key_of rcols on) rrows) ->
  length (joined_rows lcols rcols on lrows rrows) = length lrows.
Proof.
  intros Hnd. unfold joined_rows. induction lrows as [|l lrows IH]; [done|].
  rewrite bind_cons, length_app, IH.
  pose proof (filter_key_at_most_one (key_of rcols on) (key_of lcols on l) rrows Hnd)
    as Hle.
  destruct (filter _ rrows) as [|m [|m' ms]]; simpl in *; lia.
Qed.

Lemma drop_duplicates_len right on : len (drop_duplicates right on) <= len right.
Proof. unfold len. simpl. apply sublist_length, dedup_rows_sublist. Qed.

(** X11: a merge that is not degenerate never loses or repeats a row of
    the accumulator.  The merged table has at least as many rows as the
    accumulator; for a well-formed new table it has exactly the rows of
    the accumulator plus one row per key combination of the new table that
    the accumulator does not have, hence at most the two row counts
    together. *)
Theorem safe_merge_row_count (left right : DataFrame) (keys : list string)
    (merged : DataFrame) (out : list string) :
  let existing_keys := shared_keys left right keys in
  let right_deduped := drop_duplicates right existing_keys in
  empty left = false -> empty right = false -> existing_keys ≠ [] ->
  safe_merge left right keys default_suffixes = Ok (merged, out) ->
  len left <= len merged ∧
  (wf right ->
   len merged = len left + length (unmatched_rows left right_deduped existing_keys) ∧
   len merged <= len left + len right).
Proof.
  intros ek rd Hl Hr Hek Hsm.
  apply safe_merge_inv in Hsm as [Hm _]; try done. fold ek rd in Hm.
  apply merge_outer_inv in Hm as [Huniq Hvals].
  unfold len. rewrite Hvals, length_app. split.
  - pose proof (joined_rows_length_ge (columns left) (columns rd) ek
                  (values left) (values rd)) as Hge. lia.
  - intros Hwf.
    change (columns rd) with (columns right) in *.
    assert (Hnd : NoDup (map (key_of (columns right) ek) (values rd))).
    { apply (drop_duplicates_join_keys right ek); [done|].
      eapply Forall_impl; [exact Huniq|]. by intros k [_ ?]. }
    rewrite joined_rows_length_eq by done.
    unfold right_only_rows. rewrite length_map.
    set (u := length (filter _ (values rd))).
    split; [reflexivity|].
    assert (Hu : u <= length (values rd)) by apply length_filter.
    pose proof (drop_duplicates_len right ek) as Hd. unfold len in Hd. fold rd in Hd.
    lia.
Qed.

Lemma goals_shots_keys : shared_keys goals_table shots_table ["Team ID"] ≠ [].
Proof. vm_compute. congruence. Qed.


Lemma safe_merge_row_count_witness :
  exists merged out,
    safe_merge goals_table shots_table ["Team ID"] default_suffixes = Ok (merged, out) ∧
    len merged = 3.
Proof.
  destruct (safe_merge goals_table shots_table ["Team ID"] default_suffixes)
    as [[merged out]|e] eqn:Hsm; [|vm_compute in Hsm; discriminate Hsm].
  exists merged, out. split; [reflexivity|].
  destruct (safe_merge_row_count goals_table shots_table ["Team ID"] merged out
              eq_refl eq_refl goals_shots_keys Hsm) as [_ Hcount].
  destruct (Hcount shots_table_wf) as [-> _]. reflexivity.
Defined.

(** X12: the warning of [safe_merge] is printed only when the key
    combinations of the new table that the accumulator lacks number more
    than half the rows of the accumulator; when the new table brings no
    new key combination, the row count is that of the accumulator and
    nothing is printed. *)
Theorem safe_merge_warning_needs_new_keys (left right : DataFrame)
    (keys : list string) (merged : DataFrame) (out : list string) :
  let existing_keys := shared_keys left right keys in
  let right_deduped := drop_duplicates right existing_keys in
  let new_keys := length (unmatched_rows left right_deduped existing_keys) in
  empty left = false -> empty right = false -> existing_keys ≠ [] -> wf right ->
  safe_merge left right keys default_suffixes = Ok (merged, out) ->
  (out ≠ [] -> len left < 2 * new_keys ∧ 100 < len left + new_keys) ∧
  (new_keys = 0 -> len merged = len left ∧ out = []).
Proof.
  intros ek rd new_keys Hl Hr Hek Hwf Hsm.
  destruct (safe_merge_row_count left right keys merged out Hl Hr Hek Hsm)
    as [_ Hcount].
  destruct (Hcount Hwf) as [Hlen _]. fold ek rd new_keys in Hlen.
  apply safe_merge_inv in Hsm as [_ Hout]; try done.
  unfold fanout in Hout.
  destruct (Nat.ltb_spec (3 * len left) (2 * len merged)) as [H1|H1];
    destruct (Nat.ltb_spec 100 (len merged)) as [H2|H2]; simpl in Hout; subst out.
  - split; [intros _; lia | intros H0; lia].
  - split; [done | intros H0; split; [lia|done]].
  - split; [done | intros H0; split; [lia|done]].
  - split; [done | intros H0; split; [lia|done]].
Qed.

Lemma safe_merge_warning_needs_new_keys_witness :
  exists merged out,
    safe_merge accumulator_small hundred_teams ["Team ID"] default_suffixes
      = Ok (merged, out) ∧
    (out ≠ [] ->
     len accumulator_small
       < 2 * length (unmatched_rows accumulator_small
                       (drop_duplicates hundred_teams
                          (shared_keys accumulator_small hundred_teams ["Team ID"]))
                       (shared_keys accumulator_small hundred_teams ["Team ID"]))).
Proof.
  destruct (safe_merge accumulator_small hundred_teams ["Team ID"] default_suffixes)
    as [[merged out]|e] eqn:Hsm; [|vm_compute in Hsm; discriminate Hsm].
  exists merged, out. split; [reflexivity|].
  assert (Hek : shared_keys accumulator_small hundred_teams ["Team ID"] ≠ [])
    by (vm_compute; congruence).
  assert (Hwf : wf hundred_teams).
  { unfold wf, hundred_teams. cbn [values columns].
    apply Forall_forall. intros r Hr. by apply list_elem_of_fmap in Hr as (i & -> & _). }
  destruct (safe_merge_warning_needs_new_keys accumulator_small hundred_teams
              ["Team ID"] merged out eq_refl eq_refl Hek Hwf Hsm) as [H _].
  intros Hout. by destruct (H Hout).
Defined.

(** ** remove_duplicate_columns on a table with distinct labels *)

Lemma positions_from_S name cols : forall i,
  positions_from (S i) name cols = map S (positions_from i name cols).
Proof.
  induction cols as [|c cols IH]; intros i; [done|].
  simpl. case_decide; simpl; by rewrite IH.
Qed.

Lemma positions_cons_ne c name cols :
  c ≠ name -> positions name (c :: cols) = map S (positions name cols).
Proof.
  intros Hne. unfold positions. simpl. rewrite decide_False by done.
  apply positions_from_S.
Qed.

Lemma positions_cons_eq c cols :
  c ∉ cols -> positions c (c :: cols) = [0].
Proof.
  intros Hno. unfold positions. simpl. rewrite decide_True by done.
  rewrite positions_from_S. apply positions_nil in Hno. unfold positions in Hno.
  by rewrite Hno.
Qed.

Section Selection.
Variable P : string -> Prop.
Context `{!forall c, Decision (P c)}.

(** The positions [df.loc[:, [c for c in cols if P c]]] selects. *)
Lemma selected_positions_cons c cols :
  NoDup (c :: cols) ->
  filter P (c :: cols) ≫= (fun l => positions l (c :: cols))
  = (if decide (P c) then [0] else [])
    ++ map S (filter P cols ≫= (fun l => positions l cols)).
Proof.
  intros Hnd. apply NoDup_cons in Hnd as [Hc Hnd].
  assert (Hrest : filter P cols ≫= (fun l => positions l (c :: cols))
                  = map S (filter P cols ≫= (fun l => positions l cols))).
  { assert (Hsub : Forall (fun l => l ∈ cols) (filter P cols)).
    { apply Forall_forall. intros l Hl. by apply list_elem_of_filter in Hl as [_ ?]. }
    induction Hsub as [|l ls Hl _ IH]; [done|].
    rewrite !bind_cons, map_app, <- IH. f_equal.
    apply positions_cons_ne. intros ->. done. }
  rewrite filter_cons. destruct (decide (P c)) as [Hp|Hp]; [|done].
  rewrite bind_cons, Hrest. by rewrite positions_cons_eq.
Qed.

Lemma selected_labels cols :
  NoDup cols ->
  map (fun i => default "" (cols !! i))
      (filter P cols ≫= (fun l => positions l cols))
  = filter P cols.
Proof.
  induction cols as [|c cols IH]; intros Hnd; [done|].
  rewrite selected_positions_cons by done.
  apply NoDup_cons in Hnd as [Hc Hnd].
  rewrite map_app, map_map. simpl. rewrite (IH Hnd), filter_cons.
  by destruct (decide (P c)).
Qed.

Lemma selected_cells cols : forall (r : list cell),
  NoDup cols -> length r = length cols ->
  map (cell_at r) (filter P cols ≫= (fun l => positions l cols))
  = map snd (filter (fun cx => P (fst cx)) (zip cols r)).
Proof.
  induction cols as [|c cols IH]; intros r Hnd Hlen; [done|].
  destruct r as [|x r]; [done|]. simpl in Hlen.
  rewrite selected_positions_cons by done.
  apply NoDup_cons in Hnd as [Hc Hnd].
  rewrite map_app, map_map. simpl. rewrite filter_cons. simpl.
  change (map (fun i => cell_at (x :: r) (S i))) with (map (cell_at r)).
  rewrite (IH r Hnd) by lia.
  by destruct (decide (P c)).
Qed.
End Selection.

(** X13: on a well-formed table whose labels are pairwise distinct,
    [remove_duplicate_columns] keeps exactly the columns whose label does
    not contain "_duplicate", in their order and with their cells; the
    number of rows never changes. *)
Theorem remove_duplicate_columns_distinct_labels (df : DataFrame) :
  len (remove_duplicate_columns df) = len df ∧
  (NoDup (columns df) -> wf df ->
   remove_duplicate_columns df
   = mkDF (filter (fun c => contains "_duplicate" c = false) (columns df))
          (map (fun r =>
                  map snd (filter (fun cx => contains "_duplicate" (fst cx) = false)
                                  (zip (columns df) r)))
               (values df))).
Proof.
  split.
  - unfold remove_duplicate_columns, loc_columns, len. simpl. by rewrite length_map.
  - intros Hnd Hwf. unfold remove_duplicate_columns, loc_columns. f_equal.
    + by apply selected_labels.
    + apply map_ext_in. intros r Hr%list_elem_of_In.
      unfold wf in Hwf. rewrite Forall_forall in Hwf.
      apply selected_cells; [done|]. by apply Hwf.
Qed.

Lemma remove_duplicate_columns_distinct_labels_witness :
  remove_duplicate_columns merged_with_marker
  = mkDF ["Team ID"; "Squad"; "Goals"; "Shots"]
         [[CStr "t1"; CStr "Arsenal"; CNum 2; CNum 10]].
Proof.
  destruct (remove_duplicate_columns_distinct_labels merged_with_marker) as [_ H].
  rewrite H; [reflexivity | | repeat constructor].
  repeat (constructor; [not_in_literal_list|]). constructor.
Defined.

Lemma zip_filter_all (P : string -> Prop) `{!forall c, Decision (P c)}
    (cols : list string) : forall (r : list cell),
  Forall P cols -> length r = length cols ->
  map snd (filter (fun cx => P (fst cx)) (zip cols r)) = r.
Proof.
  induction cols as [|c cols IH]; intros [|x r] Hall Hlen; try done.
  apply Forall_cons in Hall as [Hc Hall]. simpl in *.
  rewrite filter_cons. simpl. rewrite decide_True by done. simpl.
  f_equal. apply IH; [done|lia].
Qed.

Lemma loc_columns_wf df labels : wf (loc_columns df labels).
Proof.
  unfold wf, loc_columns. simpl. apply Forall_forall. intros r Hr.
  apply list_elem_of_fmap in Hr as (r' & -> & _). by rewrite !length_map.
Qed.

Lemma remove_duplicate_columns_id df :
  NoDup (columns df) -> wf df ->
  Forall (fun c => contains "_duplicate" c = false) (columns df) ->
  remove_duplicate_columns df = df.
Proof.
  intros Hnd Hwf Hclean.
  destruct (remove_duplicate_columns_distinct_labels df) as [_ ->]; try done.
  destruct df as [cols rows]. simpl in *. f_equal.
  - clear Hnd Hwf. induction Hclean as [|c cs Hc _ IH]; [done|].
    rewrite filter_cons, decide_True by done. by f_equal.
  - rewrite <- (map_id rows) at 2. apply map_ext_in. intros r Hr%list_elem_of_In.
    unfold wf in Hwf. simpl in Hwf. rewrite Forall_forall in Hwf.
    exact (@zip_filter_all (fun c => contains "_duplicate" c = false)
             (fun c => decide (contains "_duplicate" c = false)) cols r
             Hclean (Hwf r Hr)).
Qed.

(** X14: on a well-formed table with pairwise distinct labels,
    [remove_duplicate_columns] changes nothing when no label contains the
    marker, and applying it twice is the same as applying it once. *)
Theorem remove_duplicate_columns_idempotent (df : DataFrame) :
  NoDup (columns df) -> wf df ->
  (Forall (fun c => contains "_duplicate" c = false) (columns df) ->
   remove_duplicate_columns df = df) ∧
  remove_duplicate_columns (remove_duplicate_columns df) = remove_duplicate_columns df.
Proof.
  intros Hnd Hwf. split; [by apply remove_duplicate_columns_id|].
  apply remove_duplicate_columns_id.
  - destruct (remove_duplicate_columns_distinct_labels df) as [_ ->]; try done.
    simpl. by apply NoDup_filter.
  - apply loc_columns_wf.
  - apply remove_duplicate_columns_clean.
Qed.

Lemma merged_with_marker_labels : NoDup (columns merged_with_marker).
Proof. repeat (constructor; [not_in_literal_list|]). constructor. Qed.

Lemma remove_duplicate_columns_idempotent_witness :
  remove_duplicate_columns (remove_duplicate_columns merged_with_marker)
  = remove_duplicate_columns merged_with_marker.
Proof.
  apply (remove_duplicate_columns_idempotent merged_with_marker
           merged_with_marker_labels).
  repeat constructor.
Defined.

(** ** The driver: incomplete player rows *)

Lemma filter_length_all {A} (P : A -> Prop) `{!forall x, Decision (P x)} (l : list A) :
  length (filter P l) = length l -> filter P l = l.
Proof.
  induction l as [|a l IH]; [done|]. rewrite filter_cons.
  destruct (decide (P a)); simpl.
  - intros [= Hlen]. f_equal. by apply IH.
  - intros Hlen. pose proof (length_filter P l) as Hle. lia.
Qed.

Lemma count_missing_complement (p : nat) (rows : list (list cell)) :
  length (filter (fun c => isna c = true) (map (fun r => cell_at r p) rows))
  + length (filter (fun r => negb (isna (cell_at r p)) = true) rows)
  = length rows.
Proof.
  induction rows as [|r rows IH]; [done|].
  simpl. rewrite !filter_cons. simpl.
  destruct (isna (cell_at r p)); simpl; lia.
Qed.

(** X15: the removal of incomplete player rows leaves a table without a
    "Player" column alone and is refused (ValueError) when several
    columns carry that label.  With one "Player" column it returns the rows
    whose player name is not missing, in their order, so that no row with a
    missing name is left, and prints the number of removed rows exactly
    when some row was removed. *)
Theorem remove_incomplete_player_rows_spec (df : DataFrame) :
  ("Player" ∉ columns df -> remove_incomplete_player_rows df = Ok (df, [])) ∧
  (2 <= length (positions "Player" (columns df)) ->
   remove_incomplete_player_rows df = Raise ValueError) ∧
  (forall p, positions "Player" (columns df) = [p] ->
   let kept := filter (fun r => negb (isna (cell_at r p)) = true) (values df) in
   let removed := len df - length kept in
   remove_incomplete_player_rows df
   = Ok (mkDF (columns df) kept,
         if Nat.ltb 0 removed then [incomplete_message removed] else []) ∧
   Forall (fun r => cell_at r p ≠ CNA) kept).
Proof.
  split; [|split].
  - unfold remove_incomplete_player_rows.
    intros Hno. apply has_column_false in Hno. by rewrite Hno.
  - unfold remove_incomplete_player_rows.
    intros Hlen. destruct (positions "Player" (columns df)) as [|p [|p' ps]] eqn:Hpos;
      simpl in Hlen; try lia.
    assert (Hin : has_column df "Player" = true).
    { apply has_column_true, list_elem_of_lookup. exists p.
      apply positions_spec. rewrite Hpos. by left. }
    by rewrite Hin.
  - intros p Hp kept removed. unfold remove_incomplete_player_rows.
    assert (Hin : has_column df "Player" = true).
    { apply has_column_true, list_elem_of_lookup. exists p.
      apply positions_spec. rewrite Hp. by left. }
    rewrite Hin, Hp.
    pose proof (count_missing_complement p (values df)) as Hcount.
    fold kept in Hcount. fold (column_at df p) in Hcount.
    set (n := length (filter _ (column_at df p))) in *.
    assert (Hn : n = removed) by (unfold removed, len; lia).
    split.
    + rewrite Hn. destruct (Nat.ltb_spec 0 removed) as [Hpos|Hzero].
      * f_equal. f_equal.
        rewrite (select_rows_filter df (fun c => negb (isna c)) p). done.
      * f_equal. f_equal. destruct df as [cols rows]. simpl in *. f_equal.
        symmetry. apply filter_length_all. unfold removed, len in *. simpl in *.
        fold kept. lia.
    + apply Forall_forall. intros r Hr. apply list_elem_of_filter in Hr as [Hr _].
      intros Heq. by rewrite Heq in Hr.
Qed.

Lemma remove_incomplete_player_rows_spec_witness :
  remove_incomplete_player_rows
    (mkDF ["Player"; "Goals"] [[CStr "A"; CNum 1]; [CNA; CNum 2]; [CStr "C"; CNA]])
  = Ok (mkDF ["Player"; "Goals"] [[CStr "A"; CNum 1]; [CStr "C"; CNA]],
        ["Removing 1 incomplete player rows (no Player name)"]).
Proof.
  destruct (remove_incomplete_player_rows_spec
              (mkDF ["Player"; "Goals"]
                    [[CStr "A"; CNum 1]; [CNA; CNum 2]; [CStr "C"; CNA]]))
    as (_ & _ & H).
  destruct (H 0 eq_refl) as [-> _]. reflexivity.
Defined.

(** ** convert_numeric_columns *)

Lemma setitem_columns df name vals df' :
  name ∈ columns df -> setitem df name vals = Ok df' -> columns df' = columns df.
Proof.
  intros Hin. unfold setitem. case_decide as Ha; [by intros [= <-]|].
  assert (Hc : has_column (ensure_valid_index df vals) name = true).
  { apply has_column_true. unfold ensure_valid_index.
    by destruct (values df), vals. }
  rewrite Hc. case_decide; [|done]. intros [= <-]. simpl.
  unfold ensure_valid_index. by destruct (values df), vals.
Qed.

Section ConvertColumns.
Variable to_numeric : list cell -> result (list cell).
Hypothesis to_numeric_raises :
  forall s e, to_numeric s = Raise e -> e = ValueError ∨ e = TypeError.
Hypothesis to_numeric_length :
  forall s c, to_numeric s = Ok c -> length c = length s.

Lemma convert_unchanged_cells df col :
  (length (positions col (columns df)) ≠ 1 ∨
   exists p, positions col (columns df) = [p] ∧
             converted to_numeric (column_at df p) = column_at df p) ->
  forall j c, columns df !! j = Some c ->
    column_at df j =
      if decide (c = col ∧ length (positions col (columns df)) = 1)
      then converted to_numeric (column_at df j)
      else column_at df j.
Proof.
  intros Hcase j c Hj. case_decide as Hd; [|done]. destruct Hd as [-> Hone].
  destruct Hcase as [?|(p & Hp & Hconv)]; [done|].
  assert (j = p) as ->; [|done].
  apply positions_spec in Hj. rewrite Hp in Hj.
  by apply list_elem_of_singleton in Hj.
Qed.

(** One pass of the loop: the table keeps its shape; the column with the
    processed label, when it is the only one, receives the converted
    cells, and every other column is as before. *)
Lemma convert_column_step df col :
  wf df -> col ∈ columns df ->
  exists df',
    convert_column to_numeric df col = Ok df' ∧
    columns df' = columns df ∧ len df' = len df ∧ wf df' ∧
    forall j c, columns df !! j = Some c ->
      column_at df' j =
        if decide (c = col ∧ length (positions col (columns df)) = 1)
        then converted to_numeric (column_at df j)
        else column_at df j.
Proof.
  intros Hwf Hin. unfold convert_column, getitem.
  pose proof (convert_unchanged_cells df col) as Hsame.
  destruct (positions col (columns df)) as [|p [|p' ps]] eqn:Hpos.
  - by apply positions_nil in Hpos.
  - simpl. destruct (to_numeric (column_at df p)) as [conv|e] eqn:Hconv; simpl.
    + assert (Hlen : length conv = len df).
      { rewrite (to_numeric_length _ _ Hconv). unfold column_at, len.
        by rewrite length_map. }
      assert (Hna : ¬ across df col conv)
        by (unfold across; rewrite Hpos; simpl; lia).
      destruct (setitem_spec df col conv Hwf Hlen Hna) as (df' & Hset & Hl & _ & Hvals).
      destruct (setitem_frame df col conv df' Hwf Hlen Hset) as (Hwf' & _ & _ & Hother).
      pose proof (setitem_columns df col conv df' Hin Hset) as Hcols.
      rewrite Hset. simpl. exists df'. repeat split; try done.
      intros j c Hj. destruct (decide (c = col)) as [->|Hne].
      * rewrite decide_True by (by split). assert (j = p) as ->.
        { apply positions_spec in Hj. rewrite Hpos in Hj.
          by apply list_elem_of_singleton in Hj. }
        unfold converted. rewrite Hconv. apply Hvals. by rewrite Hcols.
      * rewrite decide_False by (by intros [? _]).
        by destruct (Hother j c Hj Hne).
    + destruct (to_numeric_raises _ _ Hconv) as [-> | ->]; simpl;
        (exists df; repeat split; try done; apply Hsame; right; exists p;
         split; [done|]; unfold converted; by rewrite Hconv).
  - simpl. exists df. repeat split; try done. apply Hsame. left. simpl. lia.
Qed.

Lemma convert_columns_fold labels : forall df,
  wf df -> Forall (fun c => c ∈ columns df) labels -> NoDup labels ->
  exists df',
    foldM (convert_column to_numeric) df labels = Ok df' ∧
    columns df' = columns df ∧ len df' = len df ∧ wf df' ∧
    forall j c, columns df !! j = Some c ->
      column_at df' j =
        if decide (c ∈ labels ∧ length (positions c (columns df)) = 1)
        then converted to_numeric (column_at df j)
        else column_at df j.
Proof.
  induction labels as [|col labels IH]; intros df Hwf Hin Hnd.
  - exists df. do 4 (split; [done|]). intros j c Hj.
    rewrite decide_False; [done|]. intros [H _]. inversion H.
  - apply Forall_cons in Hin as [Hcol Hin]. apply NoDup_cons in Hnd as [Hfresh Hnd].
    destruct (convert_column_step df col Hwf Hcol)
      as (df1 & Hstep & Hc1 & Hl1 & Hw1 & Hcells1).
    destruct (IH df1 Hw1) as (df' & Hfold & Hc' & Hl' & Hw' & Hcells'); [by rewrite Hc1|done|].
    simpl. rewrite Hstep. simpl. exists df'.
    split; [done|]. split; [congruence|]. split; [congruence|]. split; [done|].
    intros j c Hj. rewrite (Hcells' j c) by (by rewrite Hc1).
    rewrite Hc1, (Hcells1 j c Hj).
    destruct (decide (c = col)) as [->|Hne].
    + rewrite (decide_False (P := col ∈ labels ∧ _)) by (by intros [? _]).
      destruct (decide (length (positions col (columns df)) = 1)) as [Hone|Hmany].
      * rewrite !decide_True; [done| |done]. split; [by left|done].
      * rewrite !decide_False; [done| |]; by intros [_ ?].
    + rewrite (decide_False (P := c = col ∧ _)) by (by intros [? _]).
      destruct (decide (c ∈ labels ∧ length (positions c (columns df)) = 1)) as [Hd|Hd].
      * rewrite decide_True; [done|]. destruct Hd. split; [by right|done].
      * rewrite decide_False; [done|]. intros [Hcin Hone]. apply Hd. split; [|done].
        by apply elem_of_cons in Hcin as [?|?].
Qed.

Lemma convert_columns_shape labels : forall df,
  wf df -> Forall (fun c => c ∈ columns df) labels ->
  exists df',
    foldM (convert_column to_numeric) df labels = Ok df' ∧
    columns df' = columns df ∧ len df' = len df ∧ wf df'.
Proof.
  induction labels as [|col labels IH]; intros df Hwf Hin.
  - by exists df.
  - apply Forall_cons in Hin as [Hcol Hin].
    destruct (convert_column_step df col Hwf Hcol) as (df1 & Hstep & Hc1 & Hl1 & Hw1 & _).
    destruct (IH df1 Hw1) as (df' & Hfold & Hc' & Hl' & Hw'); [by rewrite Hc1|].
    simpl. rewrite Hstep. simpl. exists df'.
    split; [done|]. split; [congruence|]. split; [congruence|done].
Qed.
End ConvertColumns.

(** X16: whatever [pd.to_numeric] does, as long as it fails only with
    ValueError or TypeError and returns as many cells as it receives,
    [convert_numeric_columns] never raises and keeps the labels and the
    row count.  When the labels are pairwise distinct, every column ends
    as the conversion of its cells if the conversion succeeds and exactly
    as it was if the conversion is refused. *)
Theorem convert_numeric_columns_spec (to_numeric : list cell -> result (list cell))
    (df : DataFrame) :
  (forall s e, to_numeric s = Raise e -> e = ValueError ∨ e = TypeError) ->
  (forall s c, to_numeric s = Ok c -> length c = length s) ->
  wf df ->
  exists df',
    convert_numeric_columns to_numeric df = Ok df' ∧
    columns df' = columns df ∧ len df' = len df ∧ wf df' ∧
    (NoDup (columns df) ->
     forall j c, columns df !! j = Some c ->
       column_at df' j = converted to_numeric (column_at df j)).
Proof.
  intros Hraise Hlen Hwf. unfold convert_numeric_columns.
  assert (Hall : Forall (fun c => c ∈ columns df) (columns df))
    by (by apply Forall_forall).
  destruct (convert_columns_shape to_numeric Hraise Hlen (columns df) df Hwf Hall)
    as (df' & Hfold & Hc & Hl & Hw).
  exists df'. repeat split; try done.
  intros Hnd j c Hj.
  destruct (convert_columns_fold to_numeric Hraise Hlen (columns df) df Hwf Hall Hnd)
    as (df2 & Hfold2 & _ & _ & _ & Hcells).
  assert (df2 = df') as -> by congruence.
  rewrite (Hcells j c Hj). rewrite decide_True; [done|]. split.
  - by eapply list_elem_of_lookup_2.
  - destruct (positions c (columns df)) as [|p [|p' ps]] eqn:Hpos.
    + apply positions_nil in Hpos. destruct Hpos. by eapply list_elem_of_lookup_2.
    + done.
    + exfalso. assert (Hp : p ∈ positions c (columns df)) by (rewrite Hpos; by left).
      assert (Hp' : p' ∈ positions c (columns df))
        by (rewrite Hpos; right; by left).
      apply positions_spec in Hp, Hp'.
      assert (p = p') by (by eapply NoDup_lookup).
      subst p'. clear Hp'.
      assert (Hsorted : forall i name cols a b l,
                 positions_from i name cols = a :: b :: l -> a < b).
      { clear. intros i name cols. revert i.
        induction cols as [|x cols IH]; intros i a b l; simpl; [done|].
        case_decide; [|apply IH].
        intros [= <- Hrest].
        assert (Hb : b ∈ positions_from (S i) name cols) by (rewrite Hrest; by left).
        apply positions_from_spec in Hb as [? _]. lia. }
      specialize (Hsorted 0 c (columns df) p p ps Hpos). lia.
Qed.

Lemma mapM_length {A B} (f : A -> result B) (l : list A) : forall l',
  mapM f l = Ok l' -> length l' = length l.
Proof.
  induction l as [|x l IH]; intros l'; simpl; [by intros [= <-]|].
  destruct (f x) as [y|e]; [|done]. simpl.
  destruct (mapM f l) as [ys|e]; [|done]. simpl. intros [= <-].
  simpl. by rewrite (IH ys).
Qed.

Lemma mapM_raise {A B} (f : A -> result B) (P : exn -> Prop) (l : list A) :
  (forall x e, f x = Raise e -> P e) ->
  forall e, mapM f l = Raise e -> P e.
Proof.
  intros Hf. induction l as [|x l IH]; intros e; simpl; [done|].
  destruct (f x) as [y|e'] eqn:Hx; simpl; [|intros [= <-]; by eapply Hf].
  destruct (mapM f l) as [ys|e']; simpl; [done|]. intros [= <-]. by apply IH.
Qed.

Lemma to_numeric_digits_raises s e :
  to_numeric_digits s = Raise e -> e = ValueError ∨ e = TypeError.
Proof.
  apply (mapM_raise to_numeric_cell (fun e => e = ValueError ∨ e = TypeError)).
  intros c e'. destruct c as [t|z|]; simpl; try done.
  destruct t as [|a t]; [intros [= <-]; by left|].
  destruct (parse_digits_from 0 (String a t)); [done|]. intros [= <-]. by left.
Qed.

Lemma convert_numeric_columns_spec_witness :
  exists df',
    convert_numeric_columns to_numeric_digits scraped_goals = Ok df' ∧
    columns df' = columns scraped_goals ∧ len df' = len scraped_goals ∧ wf df' ∧
    (NoDup (columns scraped_goals) ->
     forall j c, columns scraped_goals !! j = Some c ->
       column_at df' j = converted to_numeric_digits (column_at scraped_goals j)).
Proof.
  apply (convert_numeric_columns_spec to_numeric_digits scraped_goals).
  - exact to_numeric_digits_raises.
  - intros s c. apply mapM_length.
  - repeat constructor.
Defined.

(** The names are refused and stay, the goals become numbers. *)
Example convert_scraped_goals :
  convert_numeric_columns to_numeric_digits scraped_goals
  = Ok (mkDF ["Player"; "Goals"] [[CStr "A"; CNum 12]; [CStr "B"; CNum 7]]).
Proof. reflexivity. Qed.

(** ** From the merge to the final player table *)

Lemma positions_from_nil name cols i :
  name ∉ cols -> positions_from i name cols = [].
Proof.
  intros Hno. destruct (positions_from i name cols) as [|j l] eqn:E; [done|].
  assert (Hj : j ∈ positions_from i name cols) by (rewrite E; by left).
  apply positions_from_spec in Hj as [_ Hj]. destruct Hno.
  by eapply list_elem_of_lookup_2.
Qed.

Lemma positions_from_app name A : forall B i,
  positions_from i name (A ++ B)
  = positions_from i name A ++ positions_from (i + length A) name B.
Proof.
  induction A as [|a A IH]; intros B i; simpl.
  - by replace (i + 0) with i by lia.
  - replace (i + S (length A)) with (S i + length A) by lia.
    case_decide; simpl; by rewrite IH.
Qed.

(** A label carried by exactly one column splits the header around it. *)
Lemma positions_singleton_split name cols p :
  positions name cols = [p] ->
  exists C1 C2, cols = C1 ++ name :: C2 ∧ length C1 = p ∧ (name ∉ C1) ∧ (name ∉ C2).
Proof.
  intros Hpos.
  assert (Hp : cols !! p = Some name).
  { apply positions_spec. rewrite Hpos. by left. }
  assert (Honly : forall j, cols !! j = Some name -> j = p).
  { intros j Hj. apply positions_spec in Hj. rewrite Hpos in Hj.
    by apply list_elem_of_singleton in Hj. }
  exists (take p cols), (drop (S p) cols). split; [|split; [|split]].
  - by rewrite take_drop_middle.
  - rewrite length_take. apply lookup_lt_Some in Hp. lia.
  - intros Hin. apply list_elem_of_lookup in Hin as [j Hj].
    assert (Hlt : j < p).
    { apply lookup_lt_Some in Hj. rewrite length_take in Hj. lia. }
    rewrite lookup_take_lt in Hj by done. apply Honly in Hj. lia.
  - intros Hin. apply list_elem_of_lookup in Hin as [j Hj].
    rewrite lookup_drop in Hj. apply Honly in Hj. lia.
Qed.

Lemma positions_split name C1 C2 :
  name ∉ C1 -> name ∉ C2 -> positions name (C1 ++ name :: C2) = [length C1].
Proof.
  intros H1 H2. unfold positions. rewrite positions_from_app.
  rewrite (positions_from_nil name C1 0 H1). simpl.
  rewrite decide_True by done. by rewrite (positions_from_nil name C2 _ H2).
Qed.

Section SelectUnique.
Variable P : string -> Prop.
Context `{!forall c, Decision (P c)}.

Lemma selected_labels_from cols L i :
  i ∈ (L ≫= (fun l => positions l cols)) ->
  exists l, l ∈ L ∧ cols !! i = Some l.
Proof.
  intros Hi. apply list_elem_of_bind in Hi as (l & Hi & Hl).
  exists l. split; [done|]. by apply positions_spec.
Qed.

(** Selecting the labels that satisfy [P] keeps a column whose label
    satisfies [P] and is carried by no other column, once and with its
    cells. *)
Lemma loc_columns_unique_label df name p :
  positions name (columns df) = [p] -> P name ->
  exists p',
    positions name (columns (loc_columns df (filter P (columns df)))) = [p'] ∧
    column_at (loc_columns df (filter P (columns df))) p' = column_at df p.
Proof.
  intros Hpos HP.
  destruct (positions_singleton_split name (columns df) p Hpos)
    as (C1 & C2 & Hcols & Hlen & H1 & H2).
  unfold loc_columns. simpl.
  set (pos := fun l => positions l (columns df)).
  assert (Hidx : filter P (columns df) ≫= pos
                 = (filter P C1 ≫= pos) ++ [p] ++ (filter P C2 ≫= pos)).
  { rewrite Hcols at 1. rewrite filter_app, filter_cons, decide_True by done.
    rewrite bind_app, bind_cons. unfold pos at 2. by rewrite Hpos. }
  rewrite Hidx.
  set (I1 := filter P C1 ≫= pos). set (I2 := filter P C2 ≫= pos).
  assert (Hfree : forall C, name ∉ C ->
            name ∉ map (fun i => default "" (columns df !! i)) (filter P C ≫= pos)).
  { intros C HC Hin. apply list_elem_of_fmap in Hin as (i & Hname & Hi).
    apply selected_labels_from in Hi as (l & Hl & Hcol).
    rewrite Hcol in Hname. simpl in Hname. subst l.
    by apply list_elem_of_filter in Hl as [_ ?]. }
  exists (length I1). split.
  - rewrite !map_app. simpl.
    assert (Hp : columns df !! p = Some name).
    { apply positions_spec. rewrite Hpos. by left. }
    rewrite Hp. simpl.
    rewrite <- (length_map (fun i => default "" (columns df !! i)) I1).
    apply positions_split; by apply Hfree.
  - unfold column_at. simpl. rewrite map_map. apply map_ext. intros r.
    unfold cell_at at 1. rewrite list_lookup_fmap.
    rewrite lookup_app_r by lia. by replace (length I1 - length I1) with 0 by lia.
Qed.
End SelectUnique.

Lemma prefix_refl (s : string) : String.prefix s s = true.
Proof.
  induction s as [|a s IH]; [done|]. simpl. by destruct (ascii_dec a a).
Qed.

Lemma contains_self (s : string) : contains s s = true.
Proof.
  destruct s as [|a s]; [done|].
  change (String.prefix (String a s) (String a s) || contains (String a s) s = true).
  by rewrite prefix_refl.
Qed.

Lemma contains_app_r (needle s : string) : contains needle (s +:+ needle) = true.
Proof.
  induction s as [|a s IH].
  - rewrite app_nil_l. apply contains_self.
  - rewrite app_cons. simpl. rewrite IH. apply orb_true_r.
Qed.

(** The "Player" column of the accumulator is the only column of the
    merged table with that label. *)
Lemma merged_player_position left right on merged p :
  outer_join_of left right on merged ->
  positions "Player" (columns left) = [p] ->
  positions "Player" (columns merged) = [p].
Proof.
  intros [Hcols _] Hpos. rewrite Hcols. unfold positions.
  rewrite positions_from_app. fold (positions "Player" (columns left)).
  rewrite Hpos, positions_from_nil; [done|].
  intros Hin. apply list_elem_of_fmap in Hin as (c & Hc & _).
  destruct (decide (c ∈ columns left)) as [Hl|Hl].
  - pose proof (contains_app_r "_duplicate" c) as Hm. rewrite <- Hc in Hm.
    discriminate Hm.
  - subst c. destruct Hl. apply list_elem_of_lookup. exists p.
    apply positions_spec. rewrite Hpos. by left.
Qed.

Lemma joined_rows_map lcols rcols on lrows rrows :
  NoDup (map (key_of rcols on) rrows) ->
  exists ext : list cell -> list cell,
    joined_rows lcols rcols on lrows rrows = map (fun l => l ++ ext l) lrows.
Proof.
  intros Hnd.
  exists (fun l =>
            match filter (fun r => key_of rcols on r = key_of lcols on l) rrows with
            | [] => replicate (length (rest_labels on rcols)) CNA
            | m :: _ => rest_of on rcols m
            end).
  unfold joined_rows. induction lrows as [|l lrows IH]; [done|].
  rewrite bind_cons, IH. simpl.
  pose proof (filter_key_at_most_one (key_of rcols on) (key_of lcols on l) rrows Hnd)
    as Hle.
  destruct (filter _ rrows) as [|m [|m' ms]]; simpl in *; try done; lia.
Qed.

Lemma count_named (rows : list (list cell)) p :
  length (filter (fun r => negb (isna (cell_at r p)) = true) rows)
  = length (filter (fun c => negb (isna c) = true) (map (fun r => cell_at r p) rows)).
Proof.
  induction rows as [|r rows IH]; [done|]. simpl. rewrite !filter_cons.
  destruct (decide (negb (isna (cell_at r p)) = true)); simpl; by rewrite IH.
Qed.

Lemma filter_replicate_missing n :
  filter (fun c => negb (isna c) = true) (replicate n CNA) = [].
Proof. induction n as [|n IH]; [done|]. simpl. by rewrite filter_cons. Qed.

(** X17: when the player tables are merged on keys that do not include
    the player name, the rows that only the new table contributes have no
    name; after the marked columns are stripped and the incomplete rows
    removed, the rows left are as many as the accumulator rows with a
    player name.  A player who is absent from the accumulator does not
    reach the final table. *)
Theorem later_only_players_are_dropped (left right : DataFrame) (keys : list string)
    (merged : DataFrame) (out : list string) (p : nat) :
  let existing_keys := shared_keys left right keys in
  empty left = false -> empty right = false -> existing_keys ≠ [] ->
  wf left -> wf right ->
  positions "Player" (columns left) = [p] -> "Player" ∉ existing_keys ->
  safe_merge left right keys default_suffixes = Ok (merged, out) ->
  exists final msgs,
    remove_incomplete_player_rows (remove_duplicate_columns merged) = Ok (final, msgs) ∧
    len final
    = length (filter (fun l => negb (isna (cell_at l p)) = true) (values left)) ∧
    len final <= len left.
Proof.
  intros ek Hl Hr Hek Hwfl Hwfr Hpos Hkey Hsm.
  apply safe_merge_inv in Hsm as [Hm _]; try done. fold ek in Hm.
  set (rd := drop_duplicates right ek) in *.
  pose proof (merge_outer_spec _ _ _ _ Hm) as Hjoin.
  pose proof (merged_player_position _ _ _ _ p Hjoin Hpos) as Hmp.
  apply merge_outer_inv in Hm as [Huniq Hvals].
  change (columns rd) with (columns right) in *.
  assert (Hnd : NoDup (map (key_of (columns right) ek) (values rd))).
  { apply (drop_duplicates_join_keys right ek); [done|].
    eapply Forall_impl; [exact Huniq|]. by intros k [_ ?]. }
  destruct (joined_rows_map (columns left) (columns right) ek (values left)
              (values rd) Hnd) as [ext Hext].
  rewrite Hext in Hvals.
  (* the Player column of the merged table *)
  assert (Hp : columns left !! p = Some "Player").
  { apply positions_spec. rewrite Hpos. by left. }
  assert (Hcol : column_at merged p
                 = map (fun l => cell_at l p) (values left)
                   ++ replicate (length (right_only_rows (columns left) (columns right)
                                           ek (values left) (values rd))) CNA).
  { unfold column_at. rewrite Hvals, map_app, map_map. f_equal.
    - apply map_ext_in. intros l Hin%list_elem_of_In.
      unfold wf in Hwfl. rewrite Forall_forall in Hwfl.
      unfold cell_at. rewrite lookup_app_l; [done|].
      rewrite (Hwfl l Hin). by eapply lookup_lt_Some.
    - unfold right_only_rows. rewrite map_map, length_map.
      induction (filter _ (values rd)) as [|r rs IH]; [done|].
      simpl. rewrite IH. f_equal. unfold right_only_row, cell_at.
      rewrite lookup_app_l by (rewrite length_map; by eapply lookup_lt_Some).
      rewrite list_lookup_fmap, Hp. simpl. by rewrite decide_False. }
  (* stripping keeps that column *)
  destruct (loc_columns_unique_label (fun c => contains "_duplicate" c = false)
              merged "Player" p Hmp eq_refl) as (p' & Hp' & Hcol').
  fold (remove_duplicate_columns merged) in Hp', Hcol'.
  destruct (remove_incomplete_player_rows_spec (remove_duplicate_columns merged))
    as (_ & _ & Hrem).
  destruct (Hrem p' Hp') as [Hres _].
  eexists _, _. split; [exact Hres|].
  assert (Hlen : length (filter (fun r => negb (isna (cell_at r p')) = true)
                                (values (remove_duplicate_columns merged)))
                 = length (filter (fun l => negb (isna (cell_at l p)) = true)
                                  (values left))).
  { rewrite (count_named (values (remove_duplicate_columns merged)) p').
    fold (column_at (remove_duplicate_columns merged) p').
    rewrite Hcol', Hcol, filter_app, filter_replicate_missing, app_nil_r.
    by rewrite <- count_named. }
  unfold len. cbn [values]. rewrite Hlen. split; [done|].
  apply length_filter.
Qed.

Lemma later_only_players_are_dropped_witness :
  exists merged out final msgs,
    safe_merge players_first players_later ["Player ID"] default_suffixes
      = Ok (merged, out) ∧
    remove_incomplete_player_rows (remove_duplicate_columns merged) = Ok (final, msgs) ∧
    len final <= len players_first.
Proof.
  destruct (safe_merge players_first players_later ["Player ID"] default_suffixes)
    as [[merged out]|e] eqn:Hsm; [|vm_compute in Hsm; discriminate Hsm].
  assert (Hek : shared_keys players_first players_later ["Player ID"] ≠ [])
    by (vm_compute; congruence).
  assert (Hkey : "Player" ∉ shared_keys players_first players_later ["Player ID"]).
  { vm_compute. not_in_literal_list. }
  destruct (later_only_players_are_dropped players_first players_later ["Player ID"]
              merged out 0 eq_refl eq_refl Hek) as (final & msgs & Hres & _ & Hle);
    try done; try (repeat constructor).
  by exists merged, out, final, msgs.
Defined.

(** Player [d4] of the later table is gone from the final table. *)
Example players_first_later_final :
  (r ← safe_merge players_first players_later ["Player ID"] default_suffixes;
   remove_incomplete_player_rows (remove_duplicate_columns (fst r)))
  = Ok (mkDF ["Player"; "Player ID"; "Goals"; "Shots"]
             [[CStr "A"; CStr "a1"; CNum 3; CNum 9];
              [CStr "B"; CStr "b2"; CNum 1; CNA]],
        ["Removing 1 incomplete player rows (no Player name)"]).
Proof. reflexivity. Qed.

(** ** The loop over the statistic groups *)

Lemma merge_into_empty_table acc temp data_type :
  empty temp = true -> merge_into acc temp data_type = Ok (acc, []).
Proof. intros H. unfold merge_into. by rewrite H. Qed.

(** X18: a table that is not found in the page gives the empty frame,
    for squads and for players alike, and a statistic group whose three
    tables are empty leaves the three accumulators and the printed lines
    as they are. *)
Theorem absent_tables_change_nothing :
  (forall where_rk parsed, squad_stats where_rk None parsed = Ok empty_frame) ∧
  (forall where_rk parsed, player_stats where_rk None parsed = Ok empty_frame) ∧
  (forall c out stat_data,
     empty (squad stat_data) = true -> empty (opponent stat_data) = true ->
     empty (player stat_data) = true ->
     merge_statistic_group (c, out) stat_data = Ok (c, out)).
Proof.
  split; [done|]. split; [done|].
  intros [tf ta pl] out sd Hs Ho Hp. unfold merge_statistic_group. simpl.
  rewrite !merge_into_empty_table by done. simpl. by rewrite app_nil_r.
Qed.

Lemma foldM_snoc {A B} (f : B -> A -> result B) (l : list A) (x : A) : forall b,
  foldM f b (l ++ [x]) = (b' ← foldM f b l; f b' x).
Proof.
  induction l as [|y l IH]; intros b; simpl.
  - by destruct (f b x).
  - destruct (f b y) as [b1|e]; simpl; [apply IH | done].
Qed.

Lemma foldM_invariant {A B} (f : B -> A -> result B) (P : B -> Prop) (l : list A) :
  (forall b x b', P b -> f b x = Ok b' -> P b') ->
  forall b b', P b -> foldM f b l = Ok b' -> P b'.
Proof.
  intros Hstep. induction l as [|x l IH]; intros b b' Hb; simpl.
  - by intros [= <-].
  - destruct (f b x) as [b1|e] eqn:Hf; simpl; [|done].
    apply IH. by eapply Hstep.
Qed.

Lemma empty_false_inv df :
  empty df = false -> columns df ≠ [] ∧ values df ≠ [].
Proof. unfold empty. by destruct (columns df), (values df). Qed.

(** One merge step keeps an accumulator untouched or non-empty and never
    shortens it. *)
Lemma merge_into_grows acc temp data_type acc' out :
  started_or_untouched acc ->
  merge_into acc temp data_type = Ok (acc', out) ->
  started_or_untouched acc' ∧ len acc <= len acc'.
Proof.
  intros Hacc. unfold merge_into.
  destruct (empty temp) eqn:Ht; simpl; [by intros [= <- <-]|].
  set (keys := get_merge_keys temp data_type).
  destruct Hacc as [->|Hne].
  - intros Hsm.
    destruct (safe_merge_degenerate empty_frame temp keys default_suffixes)
      as (H & _ & _).
    rewrite H in Hsm by done. injection Hsm as <- <-.
    split; [by right | unfold len; simpl; lia].
  - destruct (decide (shared_keys acc temp keys = [])) as [Hk|Hk].
    + intros Hsm.
      destruct (safe_merge_degenerate acc temp keys default_suffixes) as (_ & _ & H).
      rewrite H in Hsm; [| done | done | by apply existing_keys_nil].
      injection Hsm as <- <-. split; [by right | done].
    + intros Hsm.
      destruct (safe_merge_row_count acc temp keys acc' out Hne Ht Hk Hsm) as [Hle _].
      split; [|done]. right.
      apply safe_merge_inv in Hsm as [Hm _]; try done.
      apply merge_outer_spec in Hm as [Hcols _].
      apply empty_false_inv in Hne as [Hc Hv].
      unfold empty. rewrite Hcols.
      destruct (columns acc) as [|c cs]; [done|]. simpl.
      destruct (values acc') eqn:Hv'; [|done].
      unfold len in Hle. rewrite Hv' in Hle. destruct (values acc); [done|].
      simpl in Hle. lia.
Qed.

Lemma merge_statistic_group_grows s stat_data s' :
  consolidated_ok s ->
  merge_statistic_group s stat_data = Ok s' ->
  consolidated_ok s' ∧
  len (teaminfo_for_df (fst s)) <= len (teaminfo_for_df (fst s')) ∧
  len (teaminfo_against_df (fst s)) <= len (teaminfo_against_df (fst s')) ∧
  len (playerinfo_df (fst s)) <= len (playerinfo_df (fst s')) ∧
  snd s `prefix_of` snd s'.
Proof.
  destruct s as [c out]. intros (H1 & H2 & H3). simpl in *.
  unfold merge_statistic_group.
  destruct (merge_into (teaminfo_for_df c) (squad stat_data) "team")
    as [[a1 o1]|e] eqn:E1; [|done].
  destruct (merge_into (teaminfo_against_df c) (opponent stat_data) "team")
    as [[a2 o2]|e] eqn:E2; [|done].
  destruct (merge_into (playerinfo_df c) (player stat_data) "player")
    as [[a3 o3]|e] eqn:E3; [|done].
  simpl. intros [= <-]. simpl.
  destruct (merge_into_grows _ _ _ _ _ H1 E1) as [G1 L1].
  destruct (merge_into_grows _ _ _ _ _ H2 E2) as [G2 L2].
  destruct (merge_into_grows _ _ _ _ _ H3 E3) as [G3 L3].
  repeat split; try done. by apply prefix_app_r.
Qed.

(** X19: along the loop over the statistic groups none of the three
    consolidated tables ever loses a row, and what has been printed stays:
    processing one more group gives tables with at least as many rows and
    an output that extends the previous one. *)
Theorem consolidation_never_loses_rows (groups : list StatData) (g : StatData)
    (c c' : Consolidated) (out out' : list string) :
  merge_statistic_groups groups = Ok (c, out) ->
  merge_statistic_groups (groups ++ [g]) = Ok (c', out') ->
  len (teaminfo_for_df c) <= len (teaminfo_for_df c') ∧
  len (teaminfo_against_df c) <= len (teaminfo_against_df c') ∧
  len (playerinfo_df c) <= len (playerinfo_df c') ∧
  out `prefix_of` out'.
Proof.
  unfold merge_statistic_groups. intros Hrun. rewrite foldM_snoc, Hrun. simpl.
  intros Hstep.
  assert (Hok : consolidated_ok (c, out)).
  { eapply (foldM_invariant merge_statistic_group consolidated_ok);
      [| |exact Hrun].
    - intros b x b' Hb Hf. by destruct (merge_statistic_group_grows b x b' Hb Hf).
    - repeat split; by left. }
  destruct (merge_statistic_group_grows (c, out) g (c', out') Hok Hstep)
    as (_ & L1 & L2 & L3 & Hp).
  by repeat split.
Qed.

Lemma consolidation_never_loses_rows_witness :
  exists c out c' out',
    merge_statistic_groups [mkStatData goals_table empty_frame players_first]
      = Ok (c, out) ∧
    merge_statistic_groups
      ([mkStatData goals_table empty_frame players_first]
       ++ [mkStatData shots_table goals_table players_later]) = Ok (c', out') ∧
    len (teaminfo_for_df c) <= len (teaminfo_for_df c') ∧
    len (teaminfo_against_df c) <= len (teaminfo_against_df c') ∧
    len (playerinfo_df c) <= len (playerinfo_df c') ∧
    out `prefix_of` out'.
Proof.
  destruct (merge_statistic_groups [mkStatData goals_table empty_frame players_first])
    as [[c out]|e] eqn:H1; [|vm_compute in H1; discriminate H1].
  destruct (merge_statistic_groups
              ([mkStatData goals_table empty_frame players_first]
               ++ [mkStatData shots_table goals_table players_later]))
    as [[c' out']|e] eqn:H2; [|vm_compute in H2; discriminate H2].
  exists c, out, c', out'. split; [reflexivity|]. split; [reflexivity|].
  exact (consolidation_never_loses_rows _ _ _ _ _ _ H1 H2).
Defined.

(** ** The page addresses *)

Lemma split_on_nonempty sep s : split_on sep s ≠ [].
Proof.
  destruct s as [|a s]; simpl; [done|].
  destruct (Ascii.eqb a sep); [done|]. by destruct (split_on sep s).
Qed.

Lemma split_on_app sep a : forall b,
  split_on sep (a +:+ String sep b) = split_on sep a ++ split_on sep b.
Proof.
  induction a as [|x a IH]; intros b.
  - rewrite app_nil_l. simpl. by rewrite Ascii.eqb_refl.
  - rewrite app_cons. simpl. destruct (Ascii.eqb x sep); [by rewrite IH|].
    rewrite IH. pose proof (split_on_nonempty sep a) as Hne.
    by destruct (split_on sep a).
Qed.

Lemma split_on_no_sep sep s :
  string_forall (fun a => negb (Ascii.eqb a sep)) s = true -> split_on sep s = [s].
Proof.
  induction s as [|a s IH]; [done|]. simpl.
  intros [Ha Hs]%andb_true_iff. apply negb_true_iff in Ha. rewrite Ha.
  by rewrite (IH Hs).
Qed.

Lemma join_with_cons sep p q ps :
  join_with sep (p :: q :: ps) = p +:+ sep +:+ join_with sep (q :: ps).
Proof. reflexivity. Qed.

Lemma join_with_app sep l1 : forall l2,
  l1 ≠ [] -> l2 ≠ [] ->
  join_with sep (l1 ++ l2) = join_with sep l1 +:+ sep +:+ join_with sep l2.
Proof.
  induction l1 as [|p l1 IH]; intros l2 H1 H2; [done|].
  destruct l1 as [|q l1].
  - destruct l2 as [|r l2]; [done|]. reflexivity.
  - change ((p :: q :: l1) ++ l2) with (p :: q :: (l1 ++ l2)).
    rewrite !join_with_cons.
    change (q :: l1 ++ l2) with ((q :: l1) ++ l2). rewrite IH by done.
    by rewrite !app_assoc_str.
Qed.

Lemma join_with_char a sep w ws :
  join_with sep (String a w :: ws) = String a (join_with sep (w :: ws)).
Proof. destruct ws; reflexivity. Qed.

(** Joining what was split gives the string back. *)
Lemma join_split sep s : join_with (String sep "") (split_on sep s) = s.
Proof.
  induction s as [|a s IH]; [done|]. simpl.
  destruct (Ascii.eqb_spec a sep) as [->|Hne].
  - pose proof (split_on_nonempty sep s) as Hn.
    destruct (split_on sep s) as [|w ws] eqn:E; [done|].
    rewrite join_with_cons, IH. reflexivity.
  - pose proof (split_on_nonempty sep s) as Hn.
    destruct (split_on sep s) as [|w ws] eqn:E; [done|].
    by rewrite join_with_char, IH.
Qed.

Lemma insert_before_last_snoc {A} (x y : A) (l : list A) :
  insert_before_last x (l ++ [y]) = l ++ [x; y].
Proof.
  unfold insert_before_last. rewrite length_app. simpl.
  replace (length l + 1 - 1) with (length l) by lia.
  by rewrite take_app_length, drop_app_length.
Qed.

Lemma join_dir_segments sep dir (segs : list string) :
  segs ≠ [] ->
  join_with (String sep "") (split_on sep dir ++ segs)
  = dir +:+ String sep "" +:+ join_with (String sep "") segs.
Proof.
  intros Hs. rewrite join_with_app; [|apply split_on_nonempty|done].
  by rewrite join_split.
Qed.

(** X20: for a season address [dir/last] whose last segment has no
    slash, the statistics address is [dir/<category>/last], with
    [squads/] before the last segment for the combined competition, and
    the player address is [dir/<category>/players/last]; an address
    without any slash gets the category in front. *)
Theorem stat_url_inserts_category (dir last category_url : string) :
  string_forall (fun a => negb (Ascii.eqb a "/")) last = true ->
  stat_url (dir +:+ "/" +:+ last) category_url false
    = dir +:+ "/" +:+ category_url +:+ "/" +:+ last ∧
  stat_url (dir +:+ "/" +:+ last) category_url true
    = dir +:+ "/" +:+ category_url +:+ "/squads/" +:+ last ∧
  player_url (dir +:+ "/" +:+ last) category_url
    = dir +:+ "/" +:+ category_url +:+ "/players/" +:+ last ∧
  stat_url last category_url false = category_url +:+ "/" +:+ last.
Proof.
  intros Hlast. unfold stat_url, player_url.
  change (dir +:+ "/" +:+ last) with (dir +:+ String "/" last).
  rewrite split_on_app, (split_on_no_sep "/" last Hlast).
  rewrite insert_before_last_snoc.
  change (split_on "/" dir ++ [category_url; last])
    with (split_on "/" dir ++ [category_url] ++ [last]).
  rewrite (app_assoc (split_on "/" dir)), !insert_before_last_snoc.
  rewrite <- !app_assoc. simpl.
  rewrite !(join_dir_segments "/" dir) by done.
  repeat split.
Qed.

Lemma stat_url_inserts_category_witness :
  stat_url "https://fbref.com/en/comps/9/2022-2023/2022-2023-Premier-League-Stats"
           "shooting" false
  = "https://fbref.com/en/comps/9/2022-2023/shooting/2022-2023-Premier-League-Stats".
Proof.
  destruct (stat_url_inserts_category "https://fbref.com/en/comps/9/2022-2023"
              "2022-2023-Premier-League-Stats" "shooting" eq_refl) as [H _].
  exact H.
Defined.

(** ** Season strings *)

Lemma season_str_checked :
  forallb (fun n =>
             let y := (1000 + Z.of_nat n)%Z in
             String.eqb (season_str y)
                        (pretty (y - 1)%Z +:+ "_" +:+ two_digits (y mod 100)))
          (seq 0 (Z.to_nat 9000)) = true.
Proof. vm_compute. reflexivity. Qed.

Lemma season_str_short_checked :
  forallb (fun n => String.eqb (string_drop 2 (pretty (Z.of_nat n))) "") (seq 0 100)
  = true.
Proof. vm_compute. reflexivity. Qed.

(** X21: for a four-digit end year the season part of the output
    directory is the start year, an underscore and the last two digits of
    the end year; for an end year from 0 to 99 nothing follows the
    underscore. *)
Theorem season_str_two_digits (competition_end_year : Z) :
  ((1000 <= competition_end_year <= 9999)%Z ->
   season_str competition_end_year
   = pretty (competition_end_year - 1)%Z +:+ "_"
     +:+ two_digits (competition_end_year mod 100)) ∧
  ((0 <= competition_end_year <= 99)%Z ->
   season_str competition_end_year = pretty (competition_end_year - 1)%Z +:+ "_").
Proof.
  split.
  - intros Hy. pose proof season_str_checked as Hall.
    rewrite forallb_forall in Hall.
    specialize (Hall (Z.to_nat (competition_end_year - 1000))).
    replace (1000 + Z.of_nat (Z.to_nat (competition_end_year - 1000)))%Z
      with competition_end_year in Hall by lia.
    apply String.eqb_eq, Hall, in_seq. lia.
  - intros Hy. pose proof season_str_short_checked as Hall.
    rewrite forallb_forall in Hall.
    specialize (Hall (Z.to_nat competition_end_year)).
    rewrite Z2Nat.id in Hall by lia. unfold season_str.
    assert (Hdrop : string_drop 2 (pretty competition_end_year) = "").
    { apply String.eqb_eq, Hall, in_seq. lia. }
    rewrite Hdrop. by rewrite !append_empty_r.
Qed.

Lemma season_str_two_digits_witness :
  season_str 2023 = pretty 2022%Z +:+ "_" +:+ two_digits 23.
Proof.
  destruct (season_str_two_digits 2023) as [H _]. apply H. lia.
Defined.

Example season_str_2023 : season_str 2023 = "2022_23".
Proof. reflexivity. Qed.

Example get_season_string_2024 : get_season_string 2024 = "2023-2024".
Proof. reflexivity. Qed.
